(** * kortschak/graph: the weighted selector, the contraction overlay and
      the FastRandMinCut drivers, embedded from the Go sources.

    Conventions of the embedding.
    - Go [int] values that index slices are [nat] where the source uses them
      as positions and [Z] where they are identifiers or counters.
    - [float64] comes twice.  The module [F64] embeds the selector and the
      sequential driver with Rocq's primitive floats, which are the IEEE
      754 binary64 values of Go's [float64] with the same rounding,
      infinities and NaN; every property that depends on the arithmetic is
      stated there.  The development outside [F64] reads weights as exact
      rationals [Q] and is used for the properties in which the arithmetic
      plays no part: labels, orders, indices, the test of a total against
      zero, sums of zeros.
    - a run-time panic (index out of range, nil dereference, division by
      zero) is the outcome [Panicked]; a loop that is cut off by the fuel of
      the model is [Timeout]; a normal return is [Done].
    - [rand.Float64()] reads a stream of draws that is threaded through the
      calls. *)

From Stdlib Require Import Floats.
From Stdlib Require Import ZArith QArith Lia Lqa.
From stdpp Require Import base list gmap sets.

Open Scope Z_scope.

(** ** Outcomes of a call *)

Inductive outcome (A : Type) : Type :=
| Done (a : A)
| Panicked
| Timeout.

Arguments Done {A} a.
Arguments Panicked {A}.
Arguments Timeout {A}.

Definition obind {A B} (m : outcome A) (f : A -> outcome B) : outcome B :=
  match m with
  | Done a => f a
  | Panicked => Panicked
  | Timeout => Timeout
  end.

#[global] Instance outcome_bind : MBind outcome :=
  fun A B f m => obind m f.
#[global] Instance outcome_ret : MRet outcome := @Done.

(** A slice read [l[i]]: out of range is a panic. *)
Definition at_ {A} (l : list A) (i : nat) : outcome A :=
  match l !! i with
  | Some a => Done a
  | None => Panicked
  end.

(** The error values of the package. *)
Inductive error : Type :=
| SelectorEmpty
| NodeIDOutOfRange
| notFound
| alreadyConnected.

(** ** The weighted selector (selector.go) *)

Record WeightedItem : Type := mkItem {
  Index : Z;
  Weight : Q;
  total : Q
}.

Abbreviation Selector := (list WeightedItem).

Definition setTotal (t : Q) (it : WeightedItem) : WeightedItem :=
  mkItem (Index it) (Weight it) t.

Definition setWeight (w : Q) (it : WeightedItem) : WeightedItem :=
  mkItem (Index it) w (total it).

(** [(i+1)>>1-1]: the position of the parent of position [i]. *)
Definition parent (i : nat) : nat := (Nat.shiftr (i + 1) 1 - 1)%nat.

(** [s[p].total += d]; the caller has checked the position. *)
Definition addTotal (p : nat) (d : Q) (s : Selector) : Selector :=
  match s !! p with
  | Some it => <[p := setTotal (total it + d)%Q it]> s
  | None => s
  end.

(** First loop of [Init]: [s[i].total = s[i].Weight] for every [i]. *)
Definition resetTotals (s : Selector) : Selector :=
  map (fun it => setTotal (Weight it) it) s.

(** Second loop of [Init], from position [i] down to 1. *)
Fixpoint accumulate (i : nat) (s : Selector) : Selector :=
  match i with
  | O => s
  | S j =>
      accumulate j
        (match s !! i with
         | Some it => addTotal (parent i) (total it) s
         | None => s
         end)
  end.

Definition Init (s : Selector) : Selector :=
  accumulate (length s - 1) (resetTotals s).

(** The 0-based position of the 1-based tree index [i]. *)
Definition pos0 (i : positive) : nat := (Pos.to_nat i - 1)%nat.

(** The descent of [Select]: [r] is the remaining draw, [i] the 1-based
    index.  One unit of fuel per move to a child. *)
Fixpoint descend (fuel : nat) (s : Selector) (r : Q) (i : positive)
  : outcome positive :=
  match s !! pos0 i with
  | None => Panicked
  | Some it =>
      let r := (r - Weight it)%Q in
      if Qle_bool r 0 then Done i
      else
        match fuel with
        | O => Timeout
        | S f =>
            let i := (i~0)%positive in
            match s !! pos0 i with
            | None => Panicked
            | Some c =>
                let d := total c in
                if negb (Qle_bool r d)
                then descend f s (r - d)%Q (Pos.succ i)
                else descend f s r i
            end
        end
  end.

(** [s[p].total -= w]. *)
Definition subTotal (p : nat) (w : Q) (s : Selector) : Selector :=
  match s !! p with
  | Some it => <[p := setTotal (total it - w)%Q it]> s
  | None => s
  end.

(** The final loop of [Select] and of [Weight]:
    [for i > 0 { s[i-1].total -= w; i >>= 1 }]. *)
Fixpoint ascend (i : positive) (w : Q) (s : Selector) : Selector :=
  let s' := subTotal (pos0 i) w s in
  match i with
  | xH => s'
  | xO p | xI p => ascend p w s'
  end.

(** [Select], with the value [u] of [rand.Float64()] as an argument.  The
    result is the selector after the call, the returned index and the
    returned error ([None] is Go's [nil]). *)
Definition Select (s : Selector) (u : Q)
  : outcome (Selector * Z * option error) :=
  root ← at_ s 0%nat;
  if Qeq_bool (total root) 0 then Done (s, -1, Some SelectorEmpty)
  else
    i ← descend (length s) s (total root * u)%Q 1%positive;
    it ← at_ s (pos0 i);
    let w := Weight it in
    let index := Index it in
    let s := <[pos0 i := setWeight 0 it]> s in
    Done (ascend i w s, index, None).


(** ** The flat parallel driver: how [FastRandMinCutPar] shares out the
       iterations (kargerr.go) *)

(** Go's [int] on a 64-bit platform: results wrap around. *)
Definition maxInt : Z := 2 ^ 63 - 1.
Definition minInt : Z := - 2 ^ 63.
Definition wrap (z : Z) : Z := (z + 2 ^ 63) mod 2 ^ 64 - 2 ^ 63.

(** [a / b] and [a % b]: truncated division, a zero divisor panics. *)
Definition goDiv (a b : Z) : outcome Z :=
  if b =? 0 then Panicked else Done (wrap (Z.quot a b)).

Definition goMod (a b : Z) : outcome Z :=
  if b =? 0 then Panicked else Done (Z.rem a b).

(** The two clamps at the head of [FastRandMinCutPar]. *)
Definition clampThread (MaxProcs iter thread : Z) : Z :=
  let thread := if MaxProcs <? thread then MaxProcs else thread in
  if iter <? thread then iter else thread.

(** The loop [for j := 0; j < thread; j++] up to the [go] statement: the
    list of the values of [iter] handed to the workers, in order of [j].
    [n] is the number of rounds still to run. *)
Fixpoint shareOut (n : nat) (iter rem : Z) : list Z :=
  match n with
  | O => []
  | S n' =>
      let iter := if rem =? 0 then wrap (iter - 1) else iter in
      let rem := if 0 <=? rem then wrap (rem - 1) else rem in
      iter :: shareOut n' iter rem
  end.

(** [FastRandMinCutPar] up to the start of its workers: the clamped worker
    count and the iteration count of each worker.  [make([]*r, thread)]
    panics on a negative length. *)
Definition FastRandMinCutPar_plan (MaxProcs iter thread : Z)
  : outcome (Z * list Z) :=
  let thread := clampThread MaxProcs iter thread in
  q ← goDiv iter thread;
  rem ← goMod iter thread;
  let iter := wrap (q + 1) in
  if thread <? 0 then Panicked
  else Done (thread, shareOut (Z.to_nat thread) iter rem).

Definition sumZ (l : list Z) : Z := fold_right Z.add 0 l.

(** ** Edges, nodes and the undirected graph (edge.go, node.go) *)

(** An edge ([edge] in edge.go) without its compact index.  The two
    endpoints are nodes of the graph the edge lives in; the embedding
    names them by their node id, [None] is a nil endpoint. *)
Record edge : Type := mkEdge {
  eid : Z;
  eu : option Z;
  ev : option Z;
  eweight : Q;
  eflags : N
}.

(** A node ([node] in node.go): its id and its incidence list.  An entry of
    the incidence list refers to an edge by its position in the edge array
    of the graph (or of the store the node set comes from). *)
Record node : Type := mkNode {
  nodeID : Z;
  nodeEdges : list nat
}.

(** [e.Head().ID()] and [e.Tail().ID()]: [Head] is [v], [Tail] is [u]; a
    nil endpoint panics. *)
Definition HeadID (e : edge) : outcome Z :=
  match ev e with Some i => Done i | None => Panicked end.

Definition TailID (e : edge) : outcome Z :=
  match eu e with Some i => Done i | None => Panicked end.

(** Modelled from the spec: the type [Undirected] and its methods are not
    among the sources.  The graph owns a table of nodes addressable by id,
    a compact array of all edges and the counter [nextNodeID]. *)
Record Undirected : Type := mkUndirected {
  compNodes : list node;
  compEdges : list edge;
  nextNodeID : Z
}.

(** Modelled from the spec: [Order], [Size], [NextNodeID], [Nodes],
    [Edges] and [Edge(id)] (id -> edge lookup; a missing id gives nil). *)
Definition Order (g : Undirected) : Z := Z.of_nat (length (compNodes g)).
Definition Size (g : Undirected) : nat := length (compEdges g).
Definition NextNodeID (g : Undirected) : Z := nextNodeID g.
Definition Nodes (g : Undirected) : list node := compNodes g.
Definition Edges (g : Undirected) : list edge := compEdges g.
Definition EdgeByID (g : Undirected) (id : Z) : option edge :=
  List.find (fun e => eid e =? id) (compEdges g).

(** Modelled from the spec: [NewUndirected] creates the empty graph. *)
Definition NewUndirected : Undirected := mkUndirected [] [] 0.

(** Modelled from the spec: [g.nodes[id]], the node table read at [id]. *)
Definition nodeByID (g : Undirected) (id : Z) : option node :=
  List.find (fun n => nodeID n =? id) (compNodes g).

(** Modelled from the spec: [AddID(id)] ensures a node with id [id] exists;
    if absent, inserts it; idempotent.  The counter is kept above every id
    in the graph. *)
Definition AddID (id : Z) (g : Undirected) : Undirected :=
  match nodeByID g id with
  | Some _ => g
  | None =>
      mkUndirected (compNodes g ++ [mkNode id []]) (compEdges g)
        (Z.max (nextNodeID g) (id + 1))
  end.

(** [n.add(e)] on the node with id [id] of the graph; a missing node is a
    nil receiver. *)
Definition addIncident (id : Z) (r : nat) (g : Undirected)
  : outcome Undirected :=
  match nodeByID g id with
  | None => Panicked
  | Some _ =>
      Done (mkUndirected
              (map (fun n => if nodeID n =? id
                             then mkNode (nodeID n) (nodeEdges n ++ [r])
                             else n) (compNodes g))
              (compEdges g) (nextNodeID g))
  end.

(** Modelled from the spec: [newEdge] and [newEdgeKeepID] allocate an
    edge, append it to the edge array and add it to the incidence lists of
    both endpoints (once for a self-loop).  The result is the reference of
    the new edge and the graph. *)
Definition newEdgeKeepID (id uid vid : Z) (w : Q) (f : N) (g : Undirected)
  : outcome (nat * Undirected) :=
  let r := length (compEdges g) in
  let g := mkUndirected (compNodes g)
             (compEdges g ++ [mkEdge id (Some uid) (Some vid) w f])
             (nextNodeID g) in
  g ← addIncident uid r g;
  g ← (if vid =? uid then Done g else addIncident vid r g);
  Done (r, g).

(** Modelled from the spec: the compact variant numbers the new edge by
    its position in the edge array. *)
Definition newEdge (uid vid : Z) (w : Q) (f : N) (g : Undirected)
  : outcome (nat * Undirected) :=
  newEdgeKeepID (Z.of_nat (length (compEdges g))) uid vid w f g.

(** *** [Nodes.BuildUndirected] (node.go) *)

(** The state of the two loops: the map [seen] and the graph [g]. *)
Definition buildState : Type := (gset nat * Undirected)%type.

(** One round of the inner loop, for the edge reference [r] read in the
    store [heap].  [inl err] is the early [return nil, err]. *)
Definition buildEdge (heap : list edge) (compact : bool) (r : nat)
    (st : buildState) : outcome (error + buildState) :=
  let '(seen, g) := st in
  if decide (r ∈ seen) then Done (inr st)
  else
    let seen := seen ∪ {[r]} in
    e ← at_ heap r;
    uid ← TailID e;
    vid ← HeadID e;
    if (uid <? 0) || (vid <? 0) then Done (inl NodeIDOutOfRange)
    else
      let g := AddID uid g in
      let g := AddID vid g in
      '(ne, g) ← (if compact
                  then newEdge uid vid (eweight e) (eflags e) g
                  else newEdgeKeepID (eid e) uid vid (eweight e) (eflags e) g);
      g ← addIncident uid ne g;
      g ← (if negb (vid =? uid) then addIncident vid ne g else Done g);
      Done (inr (seen, g)).

Fixpoint buildEdges (heap : list edge) (compact : bool) (rs : list nat)
    (st : buildState) : outcome (error + buildState) :=
  match rs with
  | [] => Done (inr st)
  | r :: rs' =>
      res ← buildEdge heap compact r st;
      match res with
      | inl err => Done (inl err)
      | inr st' => buildEdges heap compact rs' st'
      end
  end.

Fixpoint buildNodes (heap : list edge) (compact : bool) (ns : list node)
    (st : buildState) : outcome (error + buildState) :=
  match ns with
  | [] => Done (inr st)
  | n :: ns' =>
      let '(seen, g) := st in
      let g := AddID (nodeID n) g in
      res ← buildEdges heap compact (nodeEdges n) (seen, g);
      match res with
      | inl err => Done (inl err)
      | inr st' => buildNodes heap compact ns' st'
      end
  end.

(** [ns.BuildUndirected(compact)]; [heap] holds the edges the incidence
    lists of [ns] refer to.  The result is the pair of the returned graph
    ([None] is nil) and the returned error. *)
Definition BuildUndirected (heap : list edge) (ns : list node)
    (compact : bool) : outcome (option Undirected * option error) :=
  res ← buildNodes heap compact ns (∅, NewUndirected);
  match res with
  | inl err => Done (None, Some err)
  | inr (_, g) => Done (Some g, None)
  end.

(** ** The contraction context and FastRandMinCut (kargerr.go) *)

(** A slice read [l[i]] with an [int] index. *)
Definition atZ {A} (l : list A) (i : Z) : outcome A :=
  if i <? 0 then Panicked else at_ l (Z.to_nat i).

(** The random source: the values [rand.Float64()] returns, in order. *)
Definition draws : Type := nat -> Q.

Definition nextDraws (rs : draws) : draws := fun n => rs (S n).

(** [Select] reading the random source: the draw is consumed only on the
    path that passes the emptiness test. *)
Definition SelectFrom (s : Selector) (rs : draws)
  : outcome (Selector * Z * option error * draws) :=
  '(s', idx, err) ← Select s (rs 0%nat);
  Done (s', idx, err, match err with Some _ => rs | None => nextDraws rs end).

(** [super]: the label of a node id and the members merged into it; [None]
    is the nil slice. *)
Record super : Type := mkSuper {
  label : Z;
  nodes : option (list Z)
}.

Record kargerR : Type := mkKargerR {
  ka_g : Undirected;
  ka_order : Z;
  ka_ind : list super;
  ka_sel : Selector;
  ka_c : list edge;
  ka_w : Q
}.

Definition withInd (ka : kargerR) (ind : list super) : kargerR :=
  mkKargerR (ka_g ka) (ka_order ka) ind (ka_sel ka) (ka_c ka) (ka_w ka).

Definition withSel (ka : kargerR) (s : Selector) : kargerR :=
  mkKargerR (ka_g ka) (ka_order ka) (ka_ind ka) s (ka_c ka) (ka_w ka).

(** [make([]T, n)]: a negative length panics. *)
Definition make {A} (zero : A) (n : Z) : outcome (list A) :=
  if n <? 0 then Panicked else Done (replicate (Z.to_nat n) zero).

Definition newKargerR (g : Undirected) : outcome kargerR :=
  ind ← make (mkSuper 0 None) (NextNodeID g);
  Done (mkKargerR g 0 ind (replicate (Size g) (mkItem 0 0 0)) [] 0).

Definition setLabel (i : Z) (l : Z) (ind : list super)
  : outcome (list super) :=
  s ← atZ ind i;
  Done (<[Z.to_nat i := mkSuper l (nodes s)]> ind).

Definition setNodes (i : Z) (ns : option (list Z)) (ind : list super)
  : outcome (list super) :=
  s ← atZ ind i;
  Done (<[Z.to_nat i := mkSuper (label s) ns]> ind).

(** Second loop of [init]: [ka.ind[id].label = id] for the nodes of [g]. *)
Fixpoint labelNodes (ns : list node) (ind : list super)
  : outcome (list super) :=
  match ns with
  | [] => Done ind
  | n :: ns' =>
      ind ← setLabel (nodeID n) (nodeID n) ind;
      labelNodes ns' ind
  end.

Definition init (ka : kargerR) : outcome kargerR :=
  let g := ka_g ka in
  let ind := map (fun _ => mkSuper (-1) None) (ka_ind ka) in
  ind ← labelNodes (Nodes g) ind;
  let s := map (fun e => mkItem (eid e) (eweight e) 0) (Edges g) in
  if negb (length s <=? length (ka_sel ka))%nat then Panicked
  else
    let s := s ++ drop (length s) (ka_sel ka) in
    Done (mkKargerR g (Order g) ind (Init s) (ka_c ka) (ka_w ka)).

(** [clone] copies [order], [ind] and [sel]; [c] and [w] start empty. *)
Definition clone (ka : kargerR) : kargerR :=
  mkKargerR (ka_g ka) (ka_order ka) (ka_ind ka) (ka_sel ka) [] 0.

Definition loop (ka : kargerR) (e : edge) : outcome bool :=
  hid ← HeadID e;
  sh ← atZ (ka_ind ka) hid;
  tid ← TailID e;
  st ← atZ (ka_ind ka) tid;
  Done (label sh =? label st).

(** [len(s.nodes)]. *)
Definition lenNodes (s : super) : nat :=
  match nodes s with
  | Some l => length l
  | None => 0%nat
  end.

(** [append(s.nodes, l...)] for a non-empty [l]. *)
Definition appendNodes (s : super) (l : list Z) : option (list Z) :=
  Some (default [] (nodes s) ++ l).

(** [for _, i := range ms { ka.ind[i].label = ka.ind[hid].label }]. *)
Fixpoint relabel (ms : list Z) (hid : Z) (ind : list super)
  : outcome (list super) :=
  match ms with
  | [] => Done ind
  | i :: ms' =>
      sh ← atZ ind hid;
      ind ← setLabel i (label sh) ind;
      relabel ms' hid ind
  end.

(** The merge once head and tail are fixed: from
    [if ka.ind[hl].nodes == nil] to the end of the relabelling loop. *)
Definition absorb (hid tid hl tl : Z) (ind : list super)
  : outcome (list super) :=
  shl ← atZ ind hl;
  ind ← (match nodes shl with
         | None => setNodes hl (Some [hid]) ind
         | Some _ => Done ind
         end);
  stl ← atZ ind tl;
  ind ← (match nodes stl with
         | None =>
             shl ← atZ ind hl;
             setNodes hl (appendNodes shl [tid]) ind
         | Some mt =>
             shl ← atZ ind hl;
             ind ← setNodes hl (appendNodes shl mt) ind;
             setNodes tl None ind
         end);
  shl ← atZ ind hl;
  relabel (default [] (nodes shl)) hid ind.

(** The body of the contraction loop from [hid, tid := ...] to
    [ka.order--]: the merge of the two supernodes joined by [e], the one
    with the longer member list absorbing the other. *)
Definition merge (ka : kargerR) (e : edge) : outcome kargerR :=
  let ind := ka_ind ka in
  hid ← HeadID e;
  tid ← TailID e;
  sh ← atZ ind hid;
  st ← atZ ind tid;
  let hl := label sh in
  let tl := label st in
  shl ← atZ ind hl;
  stl ← atZ ind tl;
  ind ← (if (lenNodes shl <? lenNodes stl)%nat
         then absorb tid hid tl hl ind
         else absorb hid tid hl tl ind);
  Done (mkKargerR (ka_g ka) (ka_order ka - 1) ind (ka_sel ka)
          (ka_c ka) (ka_w ka)).

(** The loop [for ka.order > k { ... }] that [randContract] and
    [randCompact] share word for word.  One unit of fuel per round. *)
Fixpoint contractLoop (fuel : nat) (k : Z) (ka : kargerR) (rs : draws)
  : outcome (kargerR * draws) :=
  if negb (k <? ka_order ka) then Done (ka, rs)
  else
    match fuel with
    | O => Timeout
    | S f =>
        '(s, id, err, rs) ← SelectFrom (ka_sel ka) rs;
        let ka := withSel ka s in
        match err with
        | Some _ => Done (ka, rs)
        | None =>
            match EdgeByID (ka_g ka) id with
            | None => Panicked
            | Some e =>
                b ← loop ka e;
                if b : bool then contractLoop f k ka rs
                else
                  ka ← merge ka e;
                  contractLoop f k ka rs
            end
        end
    end.

Definition randContract (fuel : nat) (k : Z) (ka : kargerR) (rs : draws)
  : outcome (kargerR * draws) :=
  contractLoop fuel k ka rs.

(** The tail of [randCompact]: the edges that are not loops under the
    labels, and the sum of their weights. *)
Fixpoint cutEdges (ka : kargerR) (es : list edge) (c : list edge) (w : Q)
  : outcome (list edge * Q) :=
  match es with
  | [] => Done (c, w)
  | e :: es' =>
      b ← loop ka e;
      if b : bool then cutEdges ka es' c w
      else cutEdges ka es' (c ++ [e]) (w + eweight e)%Q
  end.

Definition randCompact (fuel : nat) (k : Z) (ka : kargerR) (rs : draws)
  : outcome (kargerR * draws) :=
  '(ka, rs) ← contractLoop fuel k ka rs;
  '(c, w) ← cutEdges ka (Edges (ka_g ka)) [] 0;
  Done (mkKargerR (ka_g ka) (ka_order ka) (ka_ind ka) (ka_sel ka) c w, rs).

(** [int(math.Ceil(float64(k)/sqrt2 + 1))] in exact arithmetic: for
    [k >= 1] the quotient [k/sqrt2] is irrational, so its ceiling is
    [floor(sqrt(k*k/2)) + 1]. *)
Definition contractTarget (k : Z) : Z := Z.sqrt (k * k / 2) + 2.

(** [fastRandMinCut]; one unit of fuel per level of the recursion, and the
    loops of a level run on the fuel of the level. *)
Fixpoint fastRandMinCut (fuel : nat) (ka : kargerR) (rs : draws)
  : outcome (kargerR * draws) :=
  match fuel with
  | O => Timeout
  | S f =>
      if ka_order ka <=? 6 then randCompact fuel 2 ka rs
      else
        let t := contractTarget (ka_order ka) in
        let sub1 := clone ka in
        '(sub0, rs) ← randContract fuel t ka rs;
        '(sub0, rs) ← fastRandMinCut f sub0 rs;
        '(sub1, rs) ← randContract fuel t sub1 rs;
        '(sub1, rs) ← fastRandMinCut f sub1 rs;
        if Qlt_le_dec (ka_w sub0) (ka_w sub1) then Done (sub0, rs)
        else Done (sub1, rs)
  end.

(** A [float64] that may be [math.Inf(1)]. *)
Inductive float : Type :=
| Fin (q : Q)
| PosInf.

(** [x < w] for a finite [x]. *)
Definition ltFloat (x : Q) (w : float) : bool :=
  match w with
  | Fin q => if Qlt_le_dec x q then true else false
  | PosInf => true
  end.

(** The loop of the sequential driver, [n] rounds to go. *)
Fixpoint driverLoop (fuel n : nat) (ka : kargerR) (c : list edge)
    (w : float) (rs : draws) : outcome (kargerR * list edge * float * draws) :=
  match n with
  | O => Done (ka, c, w, rs)
  | S n' =>
      '(ka, rs) ← fastRandMinCut fuel ka rs;
      if ltFloat (ka_w ka) w
      then driverLoop fuel n' ka (ka_c ka) (Fin (ka_w ka)) rs
      else driverLoop fuel n' ka c w rs
  end.

Definition FastRandMinCut (fuel : nat) (g : Undirected) (iter : Z)
    (rs : draws) : outcome (list edge * float) :=
  ka ← newKargerR g;
  ka ← init ka;
  '(_, c, w, _) ← driverLoop fuel (Z.to_nat iter) ka [] PosInf rs;
  Done (c, w).

(** ** Notions the properties are stated with *)

(** The ids of the nodes of the graph, in the order of [g.Nodes()]. *)
Definition ids (g : Undirected) : list Z := map nodeID (compNodes g).

(** A graph as the package builds it: node ids are distinct and below
    [NextNodeID], not negative; both endpoints of every edge are nodes of
    the graph; edge ids are distinct. *)
Definition wfGraph (g : Undirected) : bool :=
  bool_decide (NoDup (ids g))
  && forallb (fun i => (0 <=? i) && (i <? nextNodeID g)) (ids g)
  && forallb (fun e =>
       match eu e, ev e with
       | Some a, Some b =>
           bool_decide (a ∈ ids g) && bool_decide (b ∈ ids g)
       | _, _ => false
       end) (compEdges g)
  && bool_decide (NoDup (map eid (compEdges g))).

(** [ind[i]] as a partial function of the id. *)
Definition get (ind : list super) (i : Z) : option super :=
  if i <? 0 then None else ind !! Z.to_nat i.

(** [ind[i].label]; -1 stands for an id outside the slice. *)
Definition labelOf (ind : list super) (i : Z) : Z :=
  match get ind i with
  | Some s => label s
  | None => -1
  end.

(** The number of distinct values among the labels of the nodes. *)
Definition distinctLabels (g : Undirected) (ind : list super) : nat :=
  length (remove_dups (labelOf ind <$> ids g)).

(** The contexts a run can be in: after [init], after a [Select] of the
    contraction loop, after a merge, after a [clone], and after the cut of
    [randCompact] is stored. *)
Inductive reachable (g : Undirected) : kargerR -> Prop :=
| reach_init ka0 ka :
    newKargerR g = Done ka0 -> init ka0 = Done ka -> reachable g ka
| reach_select ka u s idx err :
    reachable g ka ->
    Select (ka_sel ka) u = Done (s, idx, err) ->
    reachable g (withSel ka s)
| reach_merge ka id e ka' :
    reachable g ka ->
    EdgeByID g id = Some e ->
    loop ka e = Done false ->
    merge ka e = Done ka' ->
    reachable g ka'
| reach_clone ka :
    reachable g ka -> reachable g (clone ka)
| reach_cut ka c w :
    reachable g ka ->
    reachable g (mkKargerR (ka_g ka) (ka_order ka) (ka_ind ka) (ka_sel ka) c w).

(** An edge of [c], by its id. *)
Definition inCut (c : list edge) (e : edge) : bool :=
  bool_decide (eid e ∈ map eid c).

(** Two node ids joined by an edge of [g] that is not in [c]. *)
Definition adjacentWithout (g : Undirected) (c : list edge) (a b : Z) : Prop :=
  exists e, e ∈ compEdges g /\ inCut c e = false /\
    ((eu e = Some a /\ ev e = Some b) \/ (eu e = Some b /\ ev e = Some a)).

(** Connected in [g] with the edges of [c] removed. *)
Inductive connectedWithout (g : Undirected) (c : list edge) : Z -> Z -> Prop :=
| conn_refl a : connectedWithout g c a a
| conn_step a b b' :
    connectedWithout g c a b -> adjacentWithout g c b b' ->
    connectedWithout g c a b'.


Definition connected (g : Undirected) : Prop :=
  forall a b, a ∈ ids g -> b ∈ ids g -> connectedWithout g [] a b.



(** ** The recursion-tree parallel driver (kargerr.go) *)

(** [kargerRP] has the fields of [kargerR] and the two counters; its
    [init], [randContract], [randCompact] and [loop] are the code of
    [kargerR] word for word and act on the common fields. *)
Record kargerRP : Type := mkKargerRP {
  rp_base : kargerR;
  rp_count : Z;
  rp_split : Z
}.

Definition newKargerRP (g : Undirected) : outcome kargerRP :=
  ka ← newKargerR g;
  Done (mkKargerRP ka 0 0).

(** [clone] copies [count] but not [split], which starts at zero. *)
Definition cloneP (ka : kargerRP) : kargerRP :=
  mkKargerRP (clone (rp_base ka)) (rp_count ka) 0.

(** The test [ka.count < ka.split] that decides whether the two
    subcomputations are started with [go]. *)
Definition spawns (ka : kargerRP) : bool := rp_count ka <? rp_split ka.

(** [fastRandMinCut] of [kargerRP].  The third component of the result
    lists, in the order of the calls, the value of the spawn test at every
    call that reaches it (order above 6).  When the test holds the two
    goroutines run concurrently on the shared random source; the embedding
    runs them one after the other, which is one of the schedules. *)
Fixpoint fastRandMinCutP (fuel : nat) (ka : kargerRP) (rs : draws)
  : outcome (kargerRP * draws * list bool) :=
  match fuel with
  | O => Timeout
  | S f =>
      if ka_order (rp_base ka) <=? 6 then
        '(b, rs) ← randCompact fuel 2 (rp_base ka) rs;
        Done (mkKargerRP b (rp_count ka) (rp_split ka), rs, [])
      else
        let t := contractTarget (ka_order (rp_base ka)) in
        let spawn := spawns ka in
        let ka := mkKargerRP (rp_base ka) (wrap (rp_count ka + 1)) (rp_split ka) in
        let sub1 := cloneP ka in
        '(b0, rs) ← randContract fuel t (rp_base ka) rs;
        '(sub0, rs, log0) ←
           fastRandMinCutP f (mkKargerRP b0 (rp_count ka) (rp_split ka)) rs;
        '(b1, rs) ← randContract fuel t (rp_base sub1) rs;
        '(sub1, rs, log1) ←
           fastRandMinCutP f (mkKargerRP b1 (rp_count sub1) (rp_split sub1)) rs;
        let log := spawn :: log0 ++ log1 in
        if Qlt_le_dec (ka_w (rp_base sub0)) (ka_w (rp_base sub1))
        then Done (sub0, rs, log)
        else Done (sub1, rs, log)
  end.

Fixpoint driverLoopP (fuel n : nat) (ka : kargerRP) (c : list edge)
    (w : float) (rs : draws) (log : list bool)
  : outcome (list edge * float * list bool) :=
  match n with
  | O => Done (c, w, log)
  | S n' =>
      '(ka, rs, l) ← fastRandMinCutP fuel ka rs;
      if ltFloat (ka_w (rp_base ka)) w
      then driverLoopP fuel n' ka (ka_c (rp_base ka))
             (Fin (ka_w (rp_base ka))) rs (log ++ l)
      else driverLoopP fuel n' ka c w rs (log ++ l)
  end.

(** [ParFastRandMinCut(g, iter, threads)]: the cut, its weight and the
    values of the spawn test over the whole run. *)
Definition ParFastRandMinCut (fuel : nat) (g : Undirected) (iter threads : Z)
    (rs : draws) : outcome (list edge * float * list bool) :=
  k ← newKargerRP g;
  let split := if threads =? 0 then -1 else threads in
  b ← init (rp_base k);
  driverLoopP fuel (Z.to_nat iter) (mkKargerRP b (rp_count k) split) [] PosInf
    rs [].

(** ** Invariants and examples used by the proofs *)

(** [s[0].total], the total of the root; 0 for the empty selector. *)
Definition rootTotal (s : Selector) : Q :=
  match s !! 0%nat with
  | Some it => total it
  | None => 0%Q
  end.

(** The fields that [Init] reads: the index and the weight of each item. *)
Definition skeleton (s : Selector) : list (Z * Q) :=
  map (fun it => (Index it, Weight it)) s.

(** The 1-based tree indices visited by the last loop of [Select]. *)
Fixpoint ancestors (i : positive) : list positive :=
  i :: match i with
       | xH => []
       | xO p | xI p => ancestors p
       end.

(** [j] is [i] or an ancestor of [i], on 0-based positions, through the
    [parent] of [Init]. *)
Inductive ancestorOrSelf : nat -> nat -> Prop :=
| anc_self i : ancestorOrSelf i i
| anc_up j i : i <> 0%nat -> ancestorOrSelf j (parent i) -> ancestorOrSelf j i.

(** [ind[j].nodes]; nil outside the slice. *)
Definition nodesAt (ind : list super) (j : Z) : option (list Z) :=
  match get ind j with
  | Some s => nodes s
  | None => None
  end.

(** The invariant of the overlay: every node has a label that is a node
    and its own label; a representative with no member list stands alone,
    and a member list holds exactly the nodes with that label. *)
Record overlay (g : Undirected) (ind : list super) : Prop := mkOverlay {
  ov_dom : forall i, i ∈ ids g ->
    is_Some (get ind i) /\ labelOf ind i ∈ ids g;
  ov_rep : forall i, i ∈ ids g ->
    labelOf ind (labelOf ind i) = labelOf ind i;
  ov_mem : forall r, r ∈ ids g -> labelOf ind r = r ->
    match nodesAt ind r with
    | None => forall i, i ∈ ids g -> labelOf ind i = r -> i = r
    | Some l => NoDup l /\ forall i, i ∈ l <-> (i ∈ ids g /\ labelOf ind i = r)
    end
}.

(** The set of the labels of the nodes. *)
Definition labelSet (g : Undirected) (ind : list super) : gset Z :=
  list_to_set (labelOf ind <$> ids g).

(** The invariant of a context over [g]: the overlay is sound and [order]
    counts its labels. *)
Definition stateInv (g : Undirected) (ka : kargerR) : Prop :=
  ka_g ka = g /\
  overlay g (ka_ind ka) /\
  ka_order ka = Z.of_nat (size (labelSet g (ka_ind ka))).

(** The triangle with unit weights. *)
Definition triangle : Undirected :=
  mkUndirected
    [mkNode 0 [0; 2]%nat; mkNode 1 [0; 1]%nat; mkNode 2 [1; 2]%nat]
    [mkEdge 0 (Some 0) (Some 1) 1 0;
     mkEdge 1 (Some 1) (Some 2) 1 0;
     mkEdge 2 (Some 0) (Some 2) 1 0]
    3.

(** The context of the triangle after [newKargerR] and [init]. *)
Definition triangleInit : kargerR :=
  mkKargerR triangle 3
    [mkSuper 0 None; mkSuper 1 None; mkSuper 2 None]
    [mkItem 0 1 3; mkItem 1 1 1; mkItem 2 1 1]%Q [] 0.

(** The context after [i] rounds of the loop of [FastRandMinCut]. *)
Fixpoint contextAfter (fuel i : nat) (ka : kargerR) (rs : draws)
  : outcome (kargerR * draws) :=
  match i with
  | O => Done (ka, rs)
  | S i' =>
      '(ka, rs) ← fastRandMinCut fuel ka rs;
      contextAfter fuel i' ka rs
  end.

(** Two random sources for the examples. *)
Definition half : draws := fun _ => (1 # 2)%Q.

(** The context the second round of [FastRandMinCut triangle 2] starts
    from. *)
Definition triangleAfterOne : kargerR :=
  mkKargerR triangle 2
    [mkSuper 0 None; mkSuper 2 None; mkSuper 2 (Some [2; 1])]
    [mkItem 0 1 2; mkItem 1 0 0; mkItem 2 1 1]%Q
    [mkEdge 0 (Some 0) (Some 1) 1 0; mkEdge 2 (Some 0) (Some 2) 1 0] 2.

(** A cycle of seven nodes with unit weights. *)
Definition cycle7 : Undirected :=
  mkUndirected
    [mkNode 0 [6; 0]%nat; mkNode 1 [0; 1]%nat; mkNode 2 [1; 2]%nat;
     mkNode 3 [2; 3]%nat; mkNode 4 [3; 4]%nat; mkNode 5 [4; 5]%nat;
     mkNode 6 [5; 6]%nat]
    [mkEdge 0 (Some 0) (Some 1) 1 0; mkEdge 1 (Some 1) (Some 2) 1 0;
     mkEdge 2 (Some 2) (Some 3) 1 0; mkEdge 3 (Some 3) (Some 4) 1 0;
     mkEdge 4 (Some 4) (Some 5) 1 0; mkEdge 5 (Some 5) (Some 6) 1 0;
     mkEdge 6 (Some 6) (Some 0) 1 0]
    7.

Definition ninths : draws := fun n => ((Z.of_nat (n mod 7) + 1) # 9)%Q.

(** The edges a node set refers to are in the store, have both endpoints,
    and no endpoint id is negative. *)
Definition edgesNonNegative (heap : list edge) (ns : list node) : Prop :=
  forall n r, n ∈ ns -> r ∈ nodeEdges n ->
    exists e a b, heap !! r = Some e /\ eu e = Some a /\ ev e = Some b /\
                  0 <= a /\ 0 <= b.




(** The total at a position; 0 outside the slice. *)
Definition totalAt (s : Selector) (j : nat) : Q :=
  match s !! j with Some it => total it | None => 0%Q end.

(** The weight at a position; 0 outside the slice. *)
Definition weightAt (s : Selector) (j : nat) : Q :=
  match s !! j with Some it => Weight it | None => 0%Q end.

(** Every total is the weight of its item plus the totals of its two
    children. *)
Definition treeInv (s : Selector) : Prop :=
  forall j, (totalAt s j ==
             weightAt s j + totalAt s (2 * j + 1) + totalAt s (2 * j + 2))%Q.

(** The same while the second loop of [Init] has handled the positions
    above [i] only. *)
Definition partInv (i : nat) (s : Selector) : Prop :=
  forall j, (totalAt s j ==
             weightAt s j
             + (if decide (i < 2 * j + 1)%nat then totalAt s (2 * j + 1) else 0)
             + (if decide (i < 2 * j + 2)%nat then totalAt s (2 * j + 2) else 0))%Q.

(** No weight is negative. *)
Definition nonneg (s : Selector) : Prop := forall j, (0 <= weightAt s j)%Q.


(** ** The visited list of the searchers (traverse.go) *)

(** [mark(n, v)] for a node with id [id]; [id+1] is an [int] sum and wraps
    around. *)
Definition mark (id : Z) (v : list bool) : outcome (list bool) :=
  if id =? Z.of_nat (length v) then Done (v ++ [true])
  else if Z.of_nat (length v) <? id then
    t ← make false (wrap (id + 1));
    let t := v ++ drop (length v) t in
    Done (<[Z.to_nat id := true]> t)
  else
    _ ← atZ v id;
    Done (<[Z.to_nat id := true]> v).

(** [Visited(n)] on the visited list [v]; the same code in [BreadthFirst]
    and [DepthFirst]. *)
Definition Visited (id : Z) (v : list bool) : bool :=
  if (id <? 0) || (Z.of_nat (length v) <=? id) then false
  else default false (v !! Z.to_nat id).

(** The visited list after [Reset]: [visits[:0]]. *)
Definition resetVisits (v : list bool) : list bool := take 0 v.

(** ** Incidence lists, degrees and neighbours (node.go, edge.go) *)

(** [e[i], e[len(e)-1] = e[len(e)-1], e[i]], the first statement of
    [delFromNode] and of both [delFromGraph]: both reads come before the
    two writes, and an index outside the slice panics. *)
Definition swapLast {A} (e : list A) (i : Z) : outcome (list A) :=
  let n := Z.of_nat (length e) in
  last ← atZ e (n - 1);
  x ← atZ e i;
  Done (<[Z.to_nat (n - 1) := x]> (<[Z.to_nat i := last]> e)).

(** [Edges.delFromNode(i)]. *)
Definition delFromNode {A} (e : list A) (i : Z) : outcome (list A) :=
  e ← swapLast e i;
  Done (take (length e - 1) e).

(** [n.add(e)] with the reference [r] of [e]. *)
Definition node_add (r : nat) (n : node) : node :=
  mkNode (nodeID n) (nodeEdges n ++ [r]).

(** The loop of [n.drop(e)], at index [i]: the first entry that is [e] is
    deleted and the loop is left. *)
Fixpoint dropLoop (fuel : nat) (r : nat) (i : nat) (es : list nat)
  : outcome (list nat) :=
  match es !! i with
  | None => Done es
  | Some x =>
      if decide (x = r) then delFromNode es (Z.of_nat i)
      else
        match fuel with
        | O => Timeout
        | S f => dropLoop f r (S i) es
        end
  end.

(** [n.drop(e)] with the reference [r] of [e]. *)
Definition node_drop (r : nat) (n : node) : outcome node :=
  es ← dropLoop (length (nodeEdges n)) r 0 (nodeEdges n);
  Done (mkNode (nodeID n) es).

(** The loop of [n.Degree()]: [l] counts the entries whose two ends are
    the same node.  [heap] holds the edges the incidence list refers to;
    an entry outside of it stands for a nil edge, whose methods panic. *)
Fixpoint degreeLoop (heap : list edge) (rs : list nat) (l : Z) : outcome Z :=
  match rs with
  | [] => Done l
  | r :: rs' =>
      e ← at_ heap r;
      degreeLoop heap rs' (if decide (ev e = eu e) then l + 1 else l)
  end.

Definition Degree (heap : list edge) (n : node) : outcome Z :=
  l ← degreeLoop heap (nodeEdges n) 0;
  Done (l + Z.of_nat (length (nodeEdges n))).

(** [Hop]: an edge, by its reference, and the node it leads to. *)
Record Hop : Type := mkHop {
  hopEdge : nat;
  hopNode : option Z
}.

(** The loop of [n.Neighbors(ef)] for the node with id [id]. *)
Fixpoint neighborsLoop (heap : list edge) (id : Z) (ef : edge -> bool)
    (rs : list nat) (nodes : list (option Z)) : outcome (list (option Z)) :=
  match rs with
  | [] => Done nodes
  | r :: rs' =>
      e ← at_ heap r;
      if ef e then
        let a := eu e in
        if decide (a = Some id)
        then neighborsLoop heap id ef rs' (nodes ++ [ev e])
        else neighborsLoop heap id ef rs' (nodes ++ [a])
      else neighborsLoop heap id ef rs' nodes
  end.

Definition Neighbors (heap : list edge) (n : node) (ef : edge -> bool)
  : outcome (list (option Z)) :=
  neighborsLoop heap (nodeID n) ef (nodeEdges n) [].

(** The loop of [n.Hops(ef)]. *)
Fixpoint hopsLoop (heap : list edge) (id : Z) (ef : edge -> bool)
    (rs : list nat) (h : list Hop) : outcome (list Hop) :=
  match rs with
  | [] => Done h
  | r :: rs' =>
      e ← at_ heap r;
      if ef e then
        let a := eu e in
        if decide (a = Some id)
        then hopsLoop heap id ef rs' (h ++ [mkHop r (ev e)])
        else hopsLoop heap id ef rs' (h ++ [mkHop r a])
      else hopsLoop heap id ef rs' h
  end.

Definition Hops (heap : list edge) (n : node) (ef : edge -> bool)
  : outcome (list Hop) :=
  hopsLoop heap (nodeID n) ef (nodeEdges n) [].

(** A node or an edge together with its field [i], the position it has in
    the compact list of its graph. *)
Record indexed (A : Type) : Type := mkIndexed {
  obj : A;
  idx : Z
}.
Arguments mkIndexed {A}.
Arguments obj {A}.
Arguments idx {A}.

(** [x.setIndex(i)]. *)
Definition setIndex {A} (i : Z) (x : indexed A) : indexed A :=
  mkIndexed (obj x) i.

(** The statements of [delFromGraph] before the [return], on the whole
    slice: the same code for [Nodes] and for [Edges]. *)
Definition delFromGraphArray {A} (s : list (indexed A)) (i : Z)
  : outcome (list (indexed A)) :=
  let n := Z.of_nat (length s) in
  s ← swapLast s i;
  a ← atZ s i;
  let s := <[Z.to_nat i := setIndex i a]> s in
  b ← atZ s (n - 1);
  let s := <[Z.to_nat (n - 1) := setIndex (-1) b]> s in
  Done s.

(** [delFromGraph(i)]: the slice without its last position. *)
Definition delFromGraph {A} (s : list (indexed A)) (i : Z)
  : outcome (list (indexed A)) :=
  s ← delFromGraphArray s i;
  Done (take (length s - 1) s).

Definition Nodes_delFromGraph : list (indexed node) -> Z ->
  outcome (list (indexed node)) := delFromGraph.

Definition Edges_delFromGraph : list (indexed edge) -> Z ->
  outcome (list (indexed edge)) := delFromGraph.

(** Every element of a compact list carries its own position. *)
Definition indexInv {A} (s : list (indexed A)) : Prop :=
  forall j x, s !! j = Some x -> idx x = Z.of_nat j.

(** An edge whose two ends are the same node. *)
Definition sameEnds (e : edge) : bool := bool_decide (ev e = eu e).

(** [id] is an end of [e]. *)
Definition endOf (id : Z) (e : edge) : bool :=
  bool_decide (eu e = Some id) || bool_decide (ev e = Some id).

(** The end of [e] a walk leaving the node [id] along [e] arrives at. *)
Definition otherEnd (id : Z) (e : edge) : option Z :=
  if decide (eu e = Some id) then ev e else eu e.

(** The sum of [f] over a list. *)
Definition sumOver {A} (f : A -> Z) (l : list A) : Z :=
  foldr (fun x acc => f x + acc) 0 l.

(** The sum of the degrees of the nodes [ns]. *)
Fixpoint sumDegrees (heap : list edge) (ns : list node) : outcome Z :=
  match ns with
  | [] => Done 0
  | n :: ns' =>
      d ← Degree heap n;
      t ← sumDegrees heap ns';
      Done (d + t)
  end.

(** The node lists, once each, the edges of [heap] it is an end of. *)
Definition listsItsEdges (heap : list edge) (n : node) : Prop :=
  NoDup (nodeEdges n) /\
  forall r, r ∈ nodeEdges n <->
            exists e, heap !! r = Some e /\ endOf (nodeID n) e = true.

(** Nodes and edges that belong together: the ids of the nodes are
    distinct, every node lists its edges, and both ends of every edge are
    among the nodes. *)
Definition incidenceOK (ns : list node) (heap : list edge) : Prop :=
  NoDup (nodeID <$> ns) /\
  (forall n, n ∈ ns -> listsItsEdges heap n) /\
  (forall e, e ∈ heap ->
     exists a b, eu e = Some a /\ ev e = Some b /\
                 a ∈ nodeID <$> ns /\ b ∈ nodeID <$> ns).

(** 1 when the edge at [r] joins a node to itself, else 0. *)
Definition loopAt (heap : list edge) (r : nat) : Z :=
  match heap !! r with
  | Some e => if sameEnds e then 1 else 0
  | None => 0
  end.

(** The number of ends of [e] that are the node [id]. *)
Definition endsAt (id : Z) (e : edge) : Z :=
  (if decide (eu e = Some id) then 1 else 0)
  + (if decide (ev e = Some id) then 1 else 0).

(** Two nodes, a loop at node 0 and an edge between node 0 and node 1. *)
Definition loopAndEdge : list edge :=
  [mkEdge 0 (Some 0) (Some 0) 1 0; mkEdge 1 (Some 0) (Some 1) 1 0].

Definition loopAndEdgeNodes : list node :=
  [mkNode 0 [0; 1]%nat; mkNode 1 [1]%nat].

(** ** Connecting and disconnecting an edge (edge.go) *)

Definition setU (u : option Z) (e : edge) : edge :=
  mkEdge (eid e) u (ev e) (eweight e) (eflags e).

Definition setV (v : option Z) (e : edge) : edge :=
  mkEdge (eid e) (eu e) v (eweight e) (eflags e).

(** [e.reconnect(u, v)]: the first end that is [u] becomes [v]. *)
Definition reconnect (u v : option Z) (e : edge) : edge :=
  if decide (u = eu e) then setU v e
  else if decide (u = ev e) then setV v e
  else e.

(** [e.join(u, v)]. *)
Definition join (u v : option Z) (e : edge) : edge :=
  mkEdge (eid e) u v (eweight e) (eflags e).

(** [e.connect(n)] for the edge [e] with reference [r]; [n] is the node
    object passed ([None] is nil) and is returned as the call leaves it,
    with the edge and the error.  A nil [n] is stored and then used as
    the receiver of [add], which panics. *)
Definition connect (r : nat) (n : option node) (e : edge)
  : outcome (edge * option node * option error) :=
  if decide (eu e = None) then
    match n with
    | None => Panicked
    | Some m => Done (setU (Some (nodeID m)) e, Some (node_add r m), None)
    end
  else if decide (ev e = None) then
    match n with
    | None => Panicked
    | Some m => Done (setV (Some (nodeID m)) e, Some (node_add r m), None)
    end
  else Done (e, n, Some alreadyConnected).

(** [e.disconnect(n)]: the end that is [n] drops the edge from its
    incidence list and becomes nil.  The end is the object [n] itself. *)
Definition disconnect (r : nat) (n : option node) (e : edge)
  : outcome (edge * option node) :=
  if decide (nodeID <$> n = eu e) then
    match n with
    | None => Panicked
    | Some m => m' ← node_drop r m; Done (setU None e, Some m')
    end
  else if decide (nodeID <$> n = ev e) then
    match n with
    | None => Panicked
    | Some m => m' ← node_drop r m; Done (setV None e, Some m')
    end
  else Done (e, n).

(** ** Graphs on which the contraction cannot go on *)

(** Every edge has weight zero. *)
Definition weightless (g : Undirected) : Prop :=
  forall e, e ∈ compEdges g -> (eweight e == 0)%Q.

(** Seven nodes and one edge of weight zero between node 0 and node 1. *)
Definition sevenWeightless : Undirected :=
  mkUndirected
    [mkNode 0 [0%nat]; mkNode 1 [0%nat]; mkNode 2 []; mkNode 3 [];
     mkNode 4 []; mkNode 5 []; mkNode 6 []]
    [mkEdge 0 (Some 0) (Some 1) 0 0]
    7.

(** Three nodes and no edge. *)
Definition threeIsolated : Undirected :=
  mkUndirected [mkNode 0 []; mkNode 1 []; mkNode 2 []] [] 3.

(** ** What BuildUndirected reads and what it builds *)

(** The edges the node set refers to are in the store and have both
    ends. *)
Definition edgesPresent (heap : list edge) (ns : list node) : Prop :=
  forall n r, n ∈ ns -> r ∈ nodeEdges n ->
    exists e a b, heap !! r = Some e /\ eu e = Some a /\ ev e = Some b.

(** Some edge the node set refers to has an end with a negative id. *)
Definition someNegativeEnd (heap : list edge) (ns : list node) : Prop :=
  exists n r e a b, n ∈ ns /\ r ∈ nodeEdges n /\
    heap !! r = Some e /\ eu e = Some a /\ ev e = Some b /\ (a < 0 \/ b < 0).

(** The references in the order in which the two loops meet them for the
    first time, given the references [seen] so far. *)
Fixpoint firstSeen (seen : gset nat) (rs : list nat) : list nat :=
  match rs with
  | [] => []
  | r :: rs' =>
      if decide (r ∈ seen) then firstSeen seen rs'
      else r :: firstSeen (seen ∪ {[r]}) rs'
  end.

(** The copies of the edges [rs] of the store, the first of them at
    position [k] of the edge array: ends, weight and flags are kept, and
    the id is kept or, with [compact], is the position. *)
Fixpoint copies (heap : list edge) (compact : bool) (k : nat)
    (rs : list nat) : list edge :=
  match rs with
  | [] => []
  | r :: rs' =>
      match heap !! r with
      | Some e =>
          mkEdge (if compact then Z.of_nat k else eid e) (eu e) (ev e)
            (eweight e) (eflags e)
          :: copies heap compact (S k) rs'
      | None => copies heap compact k rs'
      end
  end.

(** Both ends of every edge of the graph are nodes of the graph. *)
Definition endsIn (g : Undirected) : Prop :=
  forall e, e ∈ compEdges g ->
    exists a b, eu e = Some a /\ ev e = Some b /\ a ∈ ids g /\ b ∈ ids g.

(** Two nodes joined by an edge that both list, and a loop that the
    second node lists twice. *)
Definition twoEdges : list edge :=
  [mkEdge 7 (Some 0) (Some 1) 2 1; mkEdge 9 (Some 1) (Some 1) 3 0].

Definition twoEdgesNodes : list node :=
  [mkNode 0 [0]%nat; mkNode 1 [0; 1; 1]%nat].

(** * The selector and the sequential driver in float64 arithmetic *)

(** Go's [float64]: Rocq's primitive floats are the IEEE 754 binary64
    values, with round to nearest even, signed zeros, infinities and
    NaN. *)
Abbreviation float64 := PrimFloat.float.

(** The value of a finite float as a rational; 0 for the others. *)
Definition SF2Q (x : spec_float) : Q :=
  match x with
  | S754_finite s m e =>
      let v := if 0 <=? e then (Z.pos m * 2 ^ e) # 1
               else Z.pos m # Z.to_pos (2 ^ (- e)) in
      if s then Qopp v else v
  | _ => 0%Q
  end.

Definition toQ (x : float64) : Q := SF2Q (Prim2SF x).

Module F64.

(** ** The weighted selector (selector.go) *)

Record WeightedItem : Type := mkItem {
  Index : Z;
  Weight : float64;
  total : float64
}.

Abbreviation Selector := (list WeightedItem).

Definition setTotal (t : float64) (it : WeightedItem) : WeightedItem :=
  mkItem (Index it) (Weight it) t.

Definition setWeight (w : float64) (it : WeightedItem) : WeightedItem :=
  mkItem (Index it) w (total it).

(** [s[p].total += d]; the caller has checked the position. *)
Definition addTotal (p : nat) (d : float64) (s : Selector) : Selector :=
  match s !! p with
  | Some it => <[p := setTotal (total it + d)%float it]> s
  | None => s
  end.

(** First loop of [Init]: [s[i].total = s[i].Weight] for every [i]. *)
Definition resetTotals (s : Selector) : Selector :=
  map (fun it => setTotal (Weight it) it) s.

(** Second loop of [Init], from position [i] down to 1. *)
Fixpoint accumulate (i : nat) (s : Selector) : Selector :=
  match i with
  | O => s
  | S j =>
      accumulate j
        (match s !! i with
         | Some it => addTotal (parent i) (total it) s
         | None => s
         end)
  end.

Definition Init (s : Selector) : Selector :=
  accumulate (length s - 1) (resetTotals s).

(** The descent of [Select]: [r] is the remaining draw, [i] the 1-based
    index.  One unit of fuel per move to a child; the index doubles with
    every move, so the descent ends within [length s] moves, by the
    [break] or by a read outside the slice. *)
Fixpoint descend (fuel : nat) (s : Selector) (r : float64) (i : positive)
  : outcome positive :=
  match s !! pos0 i with
  | None => Panicked
  | Some it =>
      let r := (r - Weight it)%float in
      if (r <=? 0)%float then Done i
      else
        match fuel with
        | O => Timeout
        | S f =>
            let i := (i~0)%positive in
            match s !! pos0 i with
            | None => Panicked
            | Some c =>
                let d := total c in
                if (d <? r)%float
                then descend f s (r - d)%float (Pos.succ i)
                else descend f s r i
            end
        end
  end.

(** [s[p].total -= w]. *)
Definition subTotal (p : nat) (w : float64) (s : Selector) : Selector :=
  match s !! p with
  | Some it => <[p := setTotal (total it - w)%float it]> s
  | None => s
  end.

(** The final loop of [Select] and of [Weight]:
    [for i > 0 { s[i-1].total -= w; i >>= 1 }]. *)
Fixpoint ascend (i : positive) (w : float64) (s : Selector) : Selector :=
  let s' := subTotal (pos0 i) w s in
  match i with
  | xH => s'
  | xO p | xI p => ascend p w s'
  end.

(** [Select], with the value [u] of [rand.Float64()] as an argument.  The
    result is the selector after the call, the returned index and the
    returned error ([None] is Go's [nil]). *)
Definition Select (s : Selector) (u : float64)
  : outcome (Selector * Z * option error) :=
  root ← at_ s 0%nat;
  if (total root =? 0)%float then Done (s, -1, Some SelectorEmpty)
  else
    i ← descend (length s) s (total root * u)%float 1%positive;
    it ← at_ s (pos0 i);
    let w := Weight it in
    let index := Index it in
    let s := <[pos0 i := setWeight 0%float it]> s in
    Done (ascend i w s, index, None).

(** [s.Weight(i, w)]. *)
Definition Selector_Weight (s : Selector) (i : Z) (w : float64)
  : outcome Selector :=
  it ← atZ s i;
  let d := (Weight it - w)%float in
  let s := <[Z.to_nat i := setWeight w it]> s in
  Done (ascend (Z.to_pos (i + 1)) d s).

(** ** The contraction context and FastRandMinCut (kargerr.go) *)

(** The random source: the values [rand.Float64()] returns, in order. *)
Definition draws : Type := nat -> float64.

Definition nextDraws (rs : draws) : draws := fun n => rs (S n).

(** [Select] reading the random source: the draw is consumed only on the
    path that passes the emptiness test. *)
Definition SelectFrom (s : Selector) (rs : draws)
  : outcome (Selector * Z * option error * draws) :=
  '(s', idx, err) ← Select s (rs 0%nat);
  Done (s', idx, err, match err with Some _ => rs | None => nextDraws rs end).

Record kargerR : Type := mkKargerR {
  ka_g : Undirected;
  ka_order : Z;
  ka_ind : list super;
  ka_sel : Selector;
  ka_c : list edge;
  ka_w : float64
}.

Definition withSel (ka : kargerR) (s : Selector) : kargerR :=
  mkKargerR (ka_g ka) (ka_order ka) (ka_ind ka) s (ka_c ka) (ka_w ka).

Definition newKargerR (g : Undirected) : outcome kargerR :=
  ind ← make (mkSuper 0 None) (NextNodeID g);
  Done (mkKargerR g 0 ind (replicate (Size g) (mkItem 0 0 0)) [] 0).

(** [clone] copies [order], [ind] and [sel]; [c] and [w] start empty. *)
Definition clone (ka : kargerR) : kargerR :=
  mkKargerR (ka_g ka) (ka_order ka) (ka_ind ka) (ka_sel ka) [] 0.

Definition loop (ka : kargerR) (e : edge) : outcome bool :=
  hid ← HeadID e;
  sh ← atZ (ka_ind ka) hid;
  tid ← TailID e;
  st ← atZ (ka_ind ka) tid;
  Done (label sh =? label st).

(** The body of the contraction loop from [hid, tid := ...] to
    [ka.order--]. *)
Definition merge (ka : kargerR) (e : edge) : outcome kargerR :=
  let ind := ka_ind ka in
  hid ← HeadID e;
  tid ← TailID e;
  sh ← atZ ind hid;
  st ← atZ ind tid;
  let hl := label sh in
  let tl := label st in
  shl ← atZ ind hl;
  stl ← atZ ind tl;
  ind ← (if (lenNodes shl <? lenNodes stl)%nat
         then absorb tid hid tl hl ind
         else absorb hid tid hl tl ind);
  Done (mkKargerR (ka_g ka) (ka_order ka - 1) ind (ka_sel ka)
          (ka_c ka) (ka_w ka)).

(** The loop [for ka.order > k { ... }] that [randContract] and
    [randCompact] share word for word.  One unit of fuel per round. *)
Fixpoint contractLoop (fuel : nat) (k : Z) (ka : kargerR) (rs : draws)
  : outcome (kargerR * draws) :=
  if negb (k <? ka_order ka) then Done (ka, rs)
  else
    match fuel with
    | O => Timeout
    | S f =>
        '(s, id, err, rs) ← SelectFrom (ka_sel ka) rs;
        let ka := withSel ka s in
        match err with
        | Some _ => Done (ka, rs)
        | None =>
            match EdgeByID (ka_g ka) id with
            | None => Panicked
            | Some e =>
                b ← loop ka e;
                if b : bool then contractLoop f k ka rs
                else
                  ka ← merge ka e;
                  contractLoop f k ka rs
            end
        end
    end.

Definition randContract (fuel : nat) (k : Z) (ka : kargerR) (rs : draws)
  : outcome (kargerR * draws) :=
  contractLoop fuel k ka rs.

Section Weights.

(** [e.Weight()], the float64 weight the code reads from an edge.  The
    field [eweight] of the exact development is not read here. *)
Variable weight : edge -> float64.

Definition init (ka : kargerR) : outcome kargerR :=
  let g := ka_g ka in
  let ind := map (fun _ => mkSuper (-1) None) (ka_ind ka) in
  ind ← labelNodes (Nodes g) ind;
  let s := map (fun e => mkItem (eid e) (weight e) 0) (Edges g) in
  if negb (length s <=? length (ka_sel ka))%nat then Panicked
  else
    let s := s ++ drop (length s) (ka_sel ka) in
    Done (mkKargerR g (Order g) ind (Init s) (ka_c ka) (ka_w ka)).

(** The tail of [randCompact]: the edges that are not loops under the
    labels, and the sum of their weights, added up in this order. *)
Fixpoint cutEdges (ka : kargerR) (es : list edge) (c : list edge)
    (w : float64) : outcome (list edge * float64) :=
  match es with
  | [] => Done (c, w)
  | e :: es' =>
      b ← loop ka e;
      if b : bool then cutEdges ka es' c w
      else cutEdges ka es' (c ++ [e]) (w + weight e)%float
  end.

Definition randCompact (fuel : nat) (k : Z) (ka : kargerR) (rs : draws)
  : outcome (kargerR * draws) :=
  '(ka, rs) ← contractLoop fuel k ka rs;
  '(c, w) ← cutEdges ka (Edges (ka_g ka)) [] 0;
  Done (mkKargerR (ka_g ka) (ka_order ka) (ka_ind ka) (ka_sel ka) c w, rs).

(** [fastRandMinCut]; one unit of fuel per level of the recursion, and the
    loops of a level run on the fuel of the level. *)
Fixpoint fastRandMinCut (fuel : nat) (ka : kargerR) (rs : draws)
  : outcome (kargerR * draws) :=
  match fuel with
  | O => Timeout
  | S f =>
      if ka_order ka <=? 6 then randCompact fuel 2 ka rs
      else
        let t := contractTarget (ka_order ka) in
        let sub1 := clone ka in
        '(sub0, rs) ← randContract fuel t ka rs;
        '(sub0, rs) ← fastRandMinCut f sub0 rs;
        '(sub1, rs) ← randContract fuel t sub1 rs;
        '(sub1, rs) ← fastRandMinCut f sub1 rs;
        if (ka_w sub0 <? ka_w sub1)%float then Done (sub0, rs)
        else Done (sub1, rs)
  end.

(** The loop of the sequential driver, [n] rounds to go. *)
Fixpoint driverLoop (fuel n : nat) (ka : kargerR) (c : list edge)
    (w : float64) (rs : draws)
  : outcome (kargerR * list edge * float64 * draws) :=
  match n with
  | O => Done (ka, c, w, rs)
  | S n' =>
      '(ka, rs) ← fastRandMinCut fuel ka rs;
      if (ka_w ka <? w)%float
      then driverLoop fuel n' ka (ka_c ka) (ka_w ka) rs
      else driverLoop fuel n' ka c w rs
  end.

(** [FastRandMinCut(g, iter)]; the returned [c] is nil, here [[]], until
    an iteration improves on [math.Inf(1)]. *)
Definition FastRandMinCut (fuel : nat) (g : Undirected) (iter : Z)
    (rs : draws) : outcome (list edge * float64) :=
  ka ← newKargerR g;
  ka ← init ka;
  '(_, c, w, _) ← driverLoop fuel (Z.to_nat iter) ka [] infinity rs;
  Done (c, w).


(** A selector on which [Select] reports [SelectorEmpty]: the root total
    compares equal to zero. *)
Definition exhausted (s : Selector) : Prop :=
  exists root, s !! 0%nat = Some root /\ (total root =? 0)%float = true.

(** A context that further calls of [fastRandMinCut] leave alone: at most
    six supernodes, contracted to two or with an exhausted selector, and
    holding the cut and the weight of its labels. *)
Definition quiet (ka : kargerR) : Prop :=
  ka_order ka <= 6 /\
  (ka_order ka <= 2 \/ exhausted (ka_sel ka)) /\
  cutEdges ka (Edges (ka_g ka)) [] 0 = Done (ka_c ka, ka_w ka).

End Weights.

(** ** Notions the properties are stated with *)

(** The fields that [Init] reads: the index and the weight of each item. *)
Definition skeleton (s : Selector) : list (Z * float64) :=
  map (fun it => (Index it, Weight it)) s.

(** [s[0].total]; 0 for the empty selector. *)
Definition rootTotal (s : Selector) : float64 :=
  match s !! 0%nat with
  | Some it => total it
  | None => 0%float
  end.

(** What the second loop of [Init] has added to the running total [t] of
    a parent on behalf of its child at position [c], once the positions
    above [i] have been handled. *)
Definition contrib (i : nat) (s : Selector) (c : nat) (t : float64)
  : float64 :=
  match s !! c with
  | Some r => if decide (i < c)%nat then (t + total r)%float else t
  | None => t
  end.

(** The total that [Init] leaves at position [j], once the children at the
    positions above [i] have been added: the weight, then the total of the
    right child, then the total of the left child. *)
Definition sumAbove (i : nat) (s : Selector) (j : nat) (x : WeightedItem)
  : float64 :=
  contrib i s (2 * j + 1) (contrib i s (2 * j + 2) (Weight x)).

(** The tree of sums in float64: every total is the weight of its item
    plus the total of its right child plus the total of its left child,
    added in this order. *)
Definition treeOrder (s : Selector) : Prop :=
  forall j x, s !! j = Some x -> total x = sumAbove 0 s j x.

(** The same while the second loop of [Init] has handled the positions
    above [i] only. *)
Definition partOrder (i : nat) (s : Selector) : Prop :=
  forall j x, s !! j = Some x -> total x = sumAbove i s j x.

End F64.

(** The labels, the order and the graph of a float64 context, as a context
    of the exact development; the selector and the weight are left out. *)
Definition labelPart (ka : F64.kargerR) : kargerR :=
  mkKargerR (F64.ka_g ka) (F64.ka_order ka) (F64.ka_ind ka) []
    (F64.ka_c ka) 0.



(** ** Selectors and graphs of the float64 examples *)

(** The exact sum of the weights of a selector. *)
Definition exactSum (s : F64.Selector) : Q :=
  fold_right (fun it acc => (toQ (F64.Weight it) + acc)%Q) 0%Q s.

(** Three items with the float64 weights nearest to 0.1, 0.2 and 0.3. *)
Definition tenths : F64.Selector :=
  [ F64.mkItem 0 0x1.999999999999ap-4 0;
    F64.mkItem 1 0x1.999999999999ap-3 0;
    F64.mkItem 2 0x1.3333333333333p-2 0 ]%float.

(** Three items with the float64 weights nearest to 0.1, 0.4 and 0.2. *)
Definition fifths : F64.Selector :=
  [ F64.mkItem 0 0x1.999999999999ap-4 0;
    F64.mkItem 1 0x1.999999999999ap-2 0;
    F64.mkItem 2 0x1.999999999999ap-3 0 ]%float.

(** The random source that always draws 1/2. *)
Definition halves : F64.draws := fun _ => 0x1p-1%float.

(** Every edge of weight 1. *)
Definition unitWeight : edge -> float64 := fun _ => 1%float.





(** The path on eight nodes: edge [i] joins node [i] and node [i+1]. *)
Definition path8 : Undirected :=
  mkUndirected
    [mkNode 0 [0]%nat; mkNode 1 [0; 1]%nat; mkNode 2 [1; 2]%nat;
     mkNode 3 [2; 3]%nat; mkNode 4 [3; 4]%nat; mkNode 5 [4; 5]%nat;
     mkNode 6 [5; 6]%nat; mkNode 7 [6]%nat]
    [mkEdge 0 (Some 0) (Some 1) 1 0; mkEdge 1 (Some 1) (Some 2) 1 0;
     mkEdge 2 (Some 2) (Some 3) 1 0; mkEdge 3 (Some 3) (Some 4) 1 0;
     mkEdge 4 (Some 4) (Some 5) 1 0; mkEdge 5 (Some 5) (Some 6) 1 0;
     mkEdge 6 (Some 6) (Some 7) 1 0]
    8.

(** Edge 0 of weight 2^55, the others of weight 1. *)
Definition heavyFirst : edge -> float64 :=
  fun e => if eid e =? 0 then 0x1p55%float else 1%float.

(** Seven items with the weights 0, 1, 4, 2^54 - 2, 5, 0 and 0. *)
Definition sevenItems : F64.Selector :=
  [ F64.mkItem 0 0 0; F64.mkItem 1 1 0; F64.mkItem 2 4 0;
    F64.mkItem 3 0x1.fffffffffffffp53 0; F64.mkItem 4 5 0;
    F64.mkItem 5 0 0; F64.mkItem 6 0 0 ]%float.

(** * Proofs *)

(** ** Selector: what [Init] computes *)

Lemma parent_lt (i : nat) : (parent (S i) <= i)%nat.
Proof.
  unfold parent. rewrite Nat.shiftr_div_pow2. simpl (2 ^ 1)%nat.
  assert ((S i + 1) / 2 <= S i)%nat by (apply Nat.Div0.div_le_upper_bound; lia).
  assert (H2 := Nat.div_mod_eq (S i + 1) 2).
  assert (H3 := Nat.mod_upper_bound (S i + 1) 2).
  lia.
Qed.

Lemma length_resetTotals s : length (resetTotals s) = length s.
Proof. unfold resetTotals. apply length_map. Qed.

Lemma length_addTotal p d s : length (addTotal p d s) = length s.
Proof. unfold addTotal. destruct (s !! p); [apply length_insert | done]. Qed.

Lemma length_accumulate i s : length (accumulate i s) = length s.
Proof.
  revert s. induction i as [|j IH]; intros s; simpl; [done|].
  rewrite IH. destruct (s !! S j); [apply length_addTotal | done].
Qed.

Lemma length_Init s : length (Init s) = length s.
Proof. unfold Init. by rewrite length_accumulate, length_resetTotals. Qed.

Lemma skeleton_insert_setTotal (s : Selector) p it t :
  s !! p = Some it -> skeleton (<[p := setTotal t it]> s) = skeleton s.
Proof.
  intros H. unfold skeleton.
  rewrite list_fmap_insert. simpl.
  apply list_insert_id. by rewrite list_lookup_fmap, H.
Qed.

Lemma skeleton_addTotal p d s : skeleton (addTotal p d s) = skeleton s.
Proof.
  unfold addTotal. destruct (s !! p) eqn:E; [|done].
  by apply skeleton_insert_setTotal.
Qed.

Lemma skeleton_accumulate i s : skeleton (accumulate i s) = skeleton s.
Proof.
  revert s. induction i as [|j IH]; intros s; simpl; [done|].
  rewrite IH. destruct (s !! S j); [apply skeleton_addTotal | done].
Qed.

Lemma skeleton_resetTotals s : skeleton (resetTotals s) = skeleton s.
Proof.
  unfold skeleton, resetTotals. rewrite map_map. done.
Qed.

Lemma skeleton_Init s : skeleton (Init s) = skeleton s.
Proof. unfold Init. by rewrite skeleton_accumulate, skeleton_resetTotals. Qed.


(** ** Selector: what [Select] changes *)

Lemma pos0_xO p : pos0 p~0 = (2 * Pos.to_nat p - 1)%nat.
Proof. unfold pos0. rewrite Pos2Nat.inj_xO. done. Qed.

Lemma pos0_xI p : pos0 p~1 = (2 * Pos.to_nat p)%nat.
Proof. unfold pos0. rewrite Pos2Nat.inj_xI. lia. Qed.

Lemma parent_half n : parent n = ((n + 1) / 2 - 1)%nat.
Proof. unfold parent. by rewrite Nat.shiftr_div_pow2. Qed.

Lemma parent_pos0_xO p : parent (pos0 p~0) = pos0 p.
Proof.
  rewrite parent_half, pos0_xO. unfold pos0.
  assert (H := Pos2Nat.is_pos p).
  replace (2 * Pos.to_nat p - 1 + 1)%nat with (Pos.to_nat p * 2)%nat by lia.
  by rewrite Nat.div_mul.
Qed.

Lemma parent_pos0_xI p : parent (pos0 p~1) = pos0 p.
Proof.
  rewrite parent_half, pos0_xI. unfold pos0.
  replace (2 * Pos.to_nat p + 1)%nat with (1 + Pos.to_nat p * 2)%nat by lia.
  rewrite Nat.div_add by lia. simpl. lia.
Qed.

Lemma pos0_inj p q : pos0 p = pos0 q -> p = q.
Proof.
  unfold pos0. intros H. apply Pos2Nat.inj.
  assert (Hp := Pos2Nat.is_pos p). assert (Hq := Pos2Nat.is_pos q). lia.
Qed.

Lemma ancestors_le i a : a ∈ ancestors i -> (pos0 a <= pos0 i)%nat.
Proof.
  revert a. induction i as [p IH|p IH|]; intros a; simpl;
    rewrite elem_of_cons.
  - intros [->|H]; [lia|]. apply IH in H. rewrite pos0_xI. unfold pos0 in *. lia.
  - intros [->|H]; [lia|]. apply IH in H. rewrite pos0_xO. unfold pos0 in *.
    assert (Hp := Pos2Nat.is_pos p). lia.
  - intros [->|H]; [lia|]. inversion H.
Qed.

Lemma ancestors_spec i a :
  a ∈ ancestors i <-> ancestorOrSelf (pos0 a) (pos0 i).
Proof.
  split.
  - revert a. induction i as [p IH|p IH|]; intros a; simpl;
      rewrite elem_of_cons.
    + intros [->|H]; [constructor|].
      apply anc_up; [rewrite pos0_xI; pose proof (Pos2Nat.is_pos p); lia|].
      rewrite parent_pos0_xI. by apply IH.
    + intros [->|H]; [constructor|].
      apply anc_up; [rewrite pos0_xO; pose proof (Pos2Nat.is_pos p); lia|].
      rewrite parent_pos0_xO. by apply IH.
    + intros [->|H]; [constructor|inversion H].
  - revert a. induction i as [p IH|p IH|]; intros a H; simpl;
      rewrite elem_of_cons.
    + inversion H as [? Heq|? ? Hne Hanc]; subst.
      * left. by apply pos0_inj.
      * right. apply IH. by rewrite parent_pos0_xI in Hanc.
    + inversion H as [? Heq|? ? Hne Hanc]; subst.
      * left. by apply pos0_inj.
      * right. apply IH. by rewrite parent_pos0_xO in Hanc.
    + inversion H as [? Heq|? ? Hne Hanc]; subst.
      * left. by apply pos0_inj.
      * exfalso. apply Hne. reflexivity.
Qed.

Lemma elem_of_pos0_ancestors i j :
  j ∈ pos0 <$> ancestors i <-> ancestorOrSelf j (pos0 i).
Proof.
  rewrite list_elem_of_fmap. split.
  - intros (a & -> & Ha). by apply ancestors_spec.
  - intros H.
    exists (Pos.of_nat (S j)).
    assert (Hj : pos0 (Pos.of_nat (S j)) = j).
    { unfold pos0. rewrite Nat2Pos.id by lia. lia. }
    split; [done|]. apply ancestors_spec. by rewrite Hj.
Qed.

Lemma root_is_ancestor i : ancestorOrSelf 0 i.
Proof.
  induction i as [i IH] using lt_wf_ind.
  destruct i as [|i]; [constructor|].
  apply anc_up; [done|]. apply IH. pose proof (parent_lt i). lia.
Qed.

Lemma Select_unfold_ok (s : Selector) u root :
  s !! 0%nat = Some root ->
  Qeq_bool (total root) 0 = false ->
  Select s u =
  match descend (length s) s (total root * u)%Q 1%positive with
  | Done i =>
      match s !! pos0 i with
      | Some it =>
          Done (ascend i (Weight it) (<[pos0 i := setWeight 0 it]> s),
                Index it, None)
      | None => Panicked
      end
  | Panicked => Panicked
  | Timeout => Timeout
  end.
Proof.
  intros Hroot Hne. unfold Select, at_. rewrite Hroot.
  unfold mbind, outcome_bind, obind. rewrite Hne.
  destruct (descend _ _ _ _); [|done..].
  destruct (s !! pos0 a); done.
Qed.

(** C7: on a non-empty selector [Select] fails with [SelectorEmpty]
    exactly when the root total is zero, it then returns the index -1 and
    leaves the selector as it was; it returns no other error. *)
Theorem Select_error_iff_root_zero (s : Selector) (u : Q) :
  s <> [] ->
  ((rootTotal s == 0)%Q <-> Select s u = Done (s, -1, Some SelectorEmpty)) /\
  (forall s' idx e, Select s u = Done (s', idx, Some e) ->
     e = SelectorEmpty /\ (rootTotal s == 0)%Q /\ s' = s /\ idx = -1).
Proof.
  intros Hne.
  destruct s as [|root rest] eqn:Es; [done|]. rewrite <- Es.
  assert (Hroot : s !! 0%nat = Some root) by (by subst).
  assert (Hrt : rootTotal s = total root) by (unfold rootTotal; by rewrite Hroot).
  rewrite Hrt.
  destruct (Qeq_bool (total root) 0) eqn:Hz.
  - assert (HS : Select s u = Done (s, -1, Some SelectorEmpty)).
    { unfold Select, at_. rewrite Hroot.
      unfold mbind, outcome_bind, obind. by rewrite Hz. }
    apply Qeq_bool_iff in Hz.
    split; [done|].
    intros s' idx e. rewrite HS. intros [= <- <- <-]. done.
  - assert (Hnz : ~ (total root == 0)%Q).
    { intros H. apply Qeq_bool_iff in H. congruence. }
    rewrite (Select_unfold_ok s u root Hroot Hz).
    destruct (descend _ _ _ _) as [k| |]; [|by split..].
    destruct (s !! pos0 k); by split.
Qed.

Lemma Select_error_iff_root_zero_witness :
  [mkItem 7 0 0] <> [] /\
  (((rootTotal [mkItem 7 0 0] == 0)%Q <->
    Select [mkItem 7 0 0] (1 # 2) = Done ([mkItem 7 0 0], -1, Some SelectorEmpty)) /\
   (forall s' idx e, Select [mkItem 7 0 0] (1 # 2) = Done (s', idx, Some e) ->
      e = SelectorEmpty /\ (rootTotal [mkItem 7 0 0] == 0)%Q /\
      s' = [mkItem 7 0 0] /\ idx = -1)).
Proof.
  split; [discriminate|].
  apply (Select_error_iff_root_zero [mkItem 7 0 0] (1 # 2)). discriminate.
Defined.

(** ** The flat parallel driver *)

Lemma wrap_small z : minInt <= z <= maxInt -> wrap z = z.
Proof.
  unfold wrap, minInt, maxInt. intros H.
  rewrite Z.mod_small by lia. lia.
Qed.

Lemma wrap_pred_wrap z : wrap (wrap z - 1) = wrap (z - 1).
Proof.
  unfold wrap.
  replace ((z + 2 ^ 63) mod 2 ^ 64 - 2 ^ 63 - 1 + 2 ^ 63)
    with ((z + 2 ^ 63) mod 2 ^ 64 - 1) by lia.
  rewrite Zminus_mod_idemp_l.
  replace (z + 2 ^ 63 - 1) with (z - 1 + 2 ^ 63) by lia. done.
Qed.

Lemma shareOut_done n x : shareOut n x (-1) = replicate n x.
Proof.
  induction n as [|n IH]; [done|].
  simpl. by rewrite IH.
Qed.

Lemma shareOut_zero n q :
  0 <= q <= maxInt ->
  shareOut (S n) (wrap (q + 1)) 0 = replicate (S n) q.
Proof.
  intros Hq. simpl.
  rewrite wrap_pred_wrap. replace (q + 1 - 1) with q by lia.
  rewrite (wrap_small q) by (unfold minInt, maxInt in *; lia).
  change (wrap (0 - 1)) with (-1).
  by rewrite shareOut_done.
Qed.

Lemma shareOut_pos k m q :
  0 <= q -> q + 1 <= maxInt -> Z.of_nat k <= maxInt ->
  shareOut (k + S m) (q + 1) (Z.of_nat k) =
  replicate k (q + 1) ++ replicate (S m) q.
Proof.
  intros Hq Hq1. induction k as [|k IH]; intros Hk.
  - rewrite <- (wrap_small (q + 1)) by (unfold minInt, maxInt in *; lia).
    apply shareOut_zero. lia.
  - change (S k + S m)%nat with (S (k + S m)).
    cbn [shareOut].
    destruct (Z.eqb_spec (Z.of_nat (S k)) 0) as [?|_]; [lia|].
    destruct (Z.leb_spec 0 (Z.of_nat (S k))) as [_|?]; [|lia].
    rewrite wrap_small by (unfold minInt, maxInt in *; lia).
    replace (Z.of_nat (S k) - 1) with (Z.of_nat k) by lia.
    rewrite IH by lia. done.
Qed.

Lemma sumZ_app l1 l2 : sumZ (l1 ++ l2) = sumZ l1 + sumZ l2.
Proof. induction l1 as [|x l1 IH]; simpl; [done|]. rewrite IH. lia. Qed.

Lemma sumZ_replicate n x : sumZ (replicate n x) = Z.of_nat n * x.
Proof. induction n as [|n IH]; [done|]. cbn [replicate sumZ fold_right]. fold (sumZ (replicate n x)). lia. Qed.

Lemma clampThread_min MaxProcs iter thread :
  clampThread MaxProcs iter thread = Z.min (Z.min thread MaxProcs) iter.
Proof.
  unfold clampThread.
  destruct (Z.ltb_spec MaxProcs thread);
    [destruct (Z.ltb_spec iter MaxProcs) | destruct (Z.ltb_spec iter thread)];
    lia.
Qed.

(** The shape of the plan: the first [iter mod T] workers get one
    iteration more than the others. *)
Lemma plan_shape (MaxProcs iter threads : Z) :
  1 <= iter <= maxInt -> 1 <= threads <= maxInt -> 1 <= MaxProcs <= maxInt ->
  let T := Z.min (Z.min threads MaxProcs) iter in
  exists counts,
    FastRandMinCutPar_plan MaxProcs iter threads = Done (T, counts) /\
    Z.of_nat (length counts) = T /\
    sumZ counts = iter /\
    (forall c, c ∈ counts -> c = iter / T \/ c = iter / T + 1) /\
    counts = replicate (Z.to_nat (iter mod T)) (iter / T + 1)
             ++ replicate (Z.to_nat (T - iter mod T)) (iter / T).
Proof.
  intros Hi Ht Hm T.
  assert (HT : 1 <= T <= iter) by (unfold T; lia).
  unfold FastRandMinCutPar_plan. rewrite clampThread_min. fold T.
  unfold goDiv, goMod.
  destruct (Z.eqb_spec T 0) as [?|_]; [lia|].
  unfold mbind, outcome_bind, obind.
  destruct (Z.ltb_spec T 0) as [?|_]; [lia|].
  rewrite Z.quot_div_nonneg, Z.rem_mod_nonneg by lia.
  set (q := iter / T). set (r := iter mod T).
  assert (Hdm : iter = T * q + r) by (apply Z.div_mod; lia).
  assert (Hr : 0 <= r < T) by (apply Z.mod_pos_bound; lia).
  assert (Hq : 0 <= q) by (apply Z.div_pos; lia).
  assert (Hq2 : q <= iter) by nia.
  rewrite (wrap_small q) by (unfold minInt, maxInt in *; lia).
  eexists. split; [reflexivity|].
  assert (Hshape : shareOut (Z.to_nat T) (wrap (q + 1)) r =
            replicate (Z.to_nat r) (q + 1) ++ replicate (Z.to_nat (T - r)) q).
  { destruct (Z.eq_dec r 0) as [Hr0|Hr0].
    - rewrite Hr0. change (Z.to_nat 0) with 0%nat. simpl app.
      replace (Z.to_nat (T - 0)) with (S (Z.to_nat (T - 1))) by lia.
      replace (Z.to_nat T) with (S (Z.to_nat (T - 1))) by lia.
      apply shareOut_zero. lia.
    - assert (2 <= T) by lia.
      assert (q + 1 <= maxInt) by nia.
      rewrite wrap_small by (unfold minInt, maxInt in *; lia).
      replace (Z.to_nat T) with (Z.to_nat r + S (Z.to_nat (T - r - 1)))%nat by lia.
      replace (Z.to_nat (T - r)) with (S (Z.to_nat (T - r - 1))) by lia.
      pose proof (shareOut_pos (Z.to_nat r) (Z.to_nat (T - r - 1)) q) as HH.
      rewrite Z2Nat.id in HH by lia. apply HH; lia. }
  rewrite Hshape.
  split; [|split; [|split]].
  - rewrite length_app, !length_replicate. lia.
  - rewrite sumZ_app, !sumZ_replicate. nia.
  - intros c [Hc|Hc]%elem_of_app; apply elem_of_replicate in Hc; lia.
  - done.
Qed.

(** C8: for [iter >= 1] and [threads >= 1] (and [MaxProcs >= 1], as
    [runtime.GOMAXPROCS] gives) [FastRandMinCutPar] runs
    [T = min(threads, MaxProcs, iter)] workers; worker [j] is handed
    [iter/T + 1] iterations when [j < iter % T] and [iter/T] otherwise, and
    these counts add up to exactly [iter]. *)
Theorem FastRandMinCutPar_plan_partition (MaxProcs iter threads : Z) :
  1 <= iter <= maxInt -> 1 <= threads <= maxInt -> 1 <= MaxProcs <= maxInt ->
  let T := Z.min (Z.min threads MaxProcs) iter in
  exists counts,
    FastRandMinCutPar_plan MaxProcs iter threads = Done (T, counts) /\
    Z.of_nat (length counts) = T /\
    sumZ counts = iter /\
    (forall c, c ∈ counts -> c = iter / T \/ c = iter / T + 1) /\
    counts = replicate (Z.to_nat (iter mod T)) (iter / T + 1)
             ++ replicate (Z.to_nat (T - iter mod T)) (iter / T).
Proof.
  intros Hi Ht Hm. by apply plan_shape.
Qed.

Lemma FastRandMinCutPar_plan_partition_witness :
  (1 <= 10 <= maxInt /\ 1 <= 4 <= maxInt /\ 1 <= 8 <= maxInt) /\
  exists counts,
    FastRandMinCutPar_plan 8 10 4 = Done (4, counts) /\
    Z.of_nat (length counts) = 4 /\
    sumZ counts = 10 /\
    (forall c, c ∈ counts -> c = 10 / 4 \/ c = 10 / 4 + 1) /\
    counts = replicate (Z.to_nat (10 mod 4)) (10 / 4 + 1)
             ++ replicate (Z.to_nat (4 - 10 mod 4)) (10 / 4).
Proof.
  split; [unfold maxInt; lia|].
  apply (FastRandMinCutPar_plan_partition 8 10 4); unfold maxInt; lia.
Defined.

(** C10, as the code has it: for [int] arguments and [MaxProcs >= 1] the
    clamped worker count is [min(threads, MaxProcs, iter)], and
    [iter/thread] is a division by zero exactly when this count is 0, that
    is when one of [iter] and [threads] is 0 and the other is not
    negative; the call then panics.  When [iter] or [threads] is negative
    the count is negative, neither division panics, and the call panics
    in [make].  With [iter >= 1] and [threads >= 1] the count is at least
    1, neither division panics and the call reaches its workers. *)
Theorem FastRandMinCutPar_division_by_zero (MaxProcs iter threads : Z) :
  minInt <= iter <= maxInt -> minInt <= threads <= maxInt ->
  1 <= MaxProcs <= maxInt ->
  let T := clampThread MaxProcs iter threads in
  T = Z.min (Z.min threads MaxProcs) iter /\
  (goDiv iter T = Panicked <-> T = 0) /\
  (T = 0 <-> (iter = 0 /\ 0 <= threads) \/ (threads = 0 /\ 0 <= iter)) /\
  (T = 0 -> FastRandMinCutPar_plan MaxProcs iter threads = Panicked) /\
  (T < 0 <-> iter < 0 \/ threads < 0) /\
  (T < 0 ->
     goDiv iter T <> Panicked /\ goMod iter T <> Panicked /\
     FastRandMinCutPar_plan MaxProcs iter threads = Panicked) /\
  (1 <= iter /\ 1 <= threads ->
     1 <= T /\
     goDiv iter T <> Panicked /\ goMod iter T <> Panicked /\
     exists plan, FastRandMinCutPar_plan MaxProcs iter threads = Done plan).
Proof.
  intros Hi Ht Hm T.
  assert (HT : T = Z.min (Z.min threads MaxProcs) iter)
    by apply clampThread_min.
  split_and!.
  - exact HT.
  - unfold goDiv. destruct (Z.eqb_spec T 0); split; (done || lia).
  - lia.
  - intros HT0. unfold FastRandMinCutPar_plan. fold T. rewrite HT0. done.
  - lia.
  - intros Hneg. unfold FastRandMinCutPar_plan, goDiv, goMod. fold T.
    destruct (Z.eqb_spec T 0) as [?|_]; [lia|].
    split; [done|]. split; [done|].
    unfold mbind, outcome_bind, obind.
    by rewrite (proj2 (Z.ltb_lt T 0)) by done.
  - intros [Hi1 Ht1].
    split; [lia|].
    unfold goDiv, goMod.
    destruct (Z.eqb_spec T 0) as [?|_]; [lia|].
    split; [done|]. split; [done|].
    destruct (plan_shape MaxProcs iter threads)
      as (counts & Hp & _); [lia..|].
    eauto.
Qed.

Lemma FastRandMinCutPar_division_by_zero_witness :
  (minInt <= 0 <= maxInt /\ minInt <= 3 <= maxInt /\ 1 <= 8 <= maxInt) /\
  (let T := clampThread 8 0 3 in
   T = Z.min (Z.min 3 8) 0 /\
   (goDiv 0 T = Panicked <-> T = 0) /\
   (T = 0 <-> (0 = 0 /\ 0 <= 3) \/ (3 = 0 /\ 0 <= 0)) /\
   (T = 0 -> FastRandMinCutPar_plan 8 0 3 = Panicked) /\
   (T < 0 <-> 0 < 0 \/ 3 < 0) /\
   (T < 0 ->
      goDiv 0 T <> Panicked /\ goMod 0 T <> Panicked /\
      FastRandMinCutPar_plan 8 0 3 = Panicked) /\
   (1 <= 0 /\ 1 <= 3 ->
      1 <= T /\
      goDiv 0 T <> Panicked /\ goMod 0 T <> Panicked /\
      exists plan, FastRandMinCutPar_plan 8 0 3 = Done plan)).
Proof.
  split; [unfold minInt, maxInt; lia|].
  apply (FastRandMinCutPar_division_by_zero 8 0 3);
    unfold minInt, maxInt; lia.
Defined.

(** C10 fails as stated: with [threads = 0] and [iter = -5] the clamped
    worker count is -5, not 0, and [iter/thread] is 1, not a division by
    zero; the same with [iter = 0] and [threads = -3], where the count is
    -3 and the quotient 0.  Both calls panic later, in [make]. *)
Lemma FastRandMinCutPar_zero_without_division_by_zero :
  (clampThread 8 (-5) 0 = -5 /\
   goDiv (-5) (clampThread 8 (-5) 0) = Done 1 /\
   goMod (-5) (clampThread 8 (-5) 0) = Done 0 /\
   FastRandMinCutPar_plan 8 (-5) 0 = Panicked) /\
  (clampThread 8 0 (-3) = -3 /\
   goDiv 0 (clampThread 8 0 (-3)) = Done 0 /\
   goMod 0 (clampThread 8 0 (-3)) = Done 0 /\
   FastRandMinCutPar_plan 8 0 (-3) = Panicked).
Proof. split; split_and!; vm_compute; reflexivity. Qed.

(** ** The super-node overlay *)

Lemma bind_Done {A B} (a : A) (k : A -> outcome B) :
  (Done a ≫= k) = k a.
Proof. reflexivity. Qed.

Lemma atZ_get {A} (l : list A) (i : Z) :
  atZ l i = match (if i <? 0 then None else l !! Z.to_nat i) with
            | Some s => Done s
            | None => Panicked
            end.
Proof. unfold atZ, at_. destruct (i <? 0); done. Qed.

Lemma atZ_Some (ind : list super) i s : get ind i = Some s -> atZ ind i = Done s.
Proof. intros H. rewrite atZ_get. unfold get in H. by rewrite H. Qed.

Lemma get_insert (ind : list super) i x j :
  is_Some (get ind i) ->
  get (<[Z.to_nat i := x]> ind) j = if decide (j = i) then Some x else get ind j.
Proof.
  unfold get. intros [s Hs].
  destruct (Z.ltb_spec i 0) as [?|Hi]; [done|].
  apply lookup_lt_Some in Hs.
  destruct (decide (j = i)) as [->|Hne].
  - destruct (Z.ltb_spec i 0); [lia|]. by rewrite list_lookup_insert_eq.
  - destruct (Z.ltb_spec j 0); [done|].
    rewrite list_lookup_insert_ne; [done|]. lia.
Qed.

Lemma setLabel_spec ind i L s :
  get ind i = Some s ->
  exists ind', setLabel i L ind = Done ind' /\
    forall j, get ind' j =
      if decide (j = i) then Some (mkSuper L (nodes s)) else get ind j.
Proof.
  intros H. unfold setLabel. rewrite (atZ_Some _ _ _ H), bind_Done.
  eexists; split; [reflexivity|].
  intros j. apply get_insert. by rewrite H.
Qed.

Lemma setNodes_spec ind i ns s :
  get ind i = Some s ->
  exists ind', setNodes i ns ind = Done ind' /\
    forall j, get ind' j =
      if decide (j = i) then Some (mkSuper (label s) ns) else get ind j.
Proof.
  intros H. unfold setNodes. rewrite (atZ_Some _ _ _ H), bind_Done.
  eexists; split; [reflexivity|].
  intros j. apply get_insert. by rewrite H.
Qed.

Lemma relabel_spec ms hid ind sh :
  get ind hid = Some sh ->
  (forall i, i ∈ ms -> is_Some (get ind i)) ->
  exists ind', relabel ms hid ind = Done ind' /\
    forall j, get ind' j =
      if decide (j ∈ ms)
      then (fun s => mkSuper (label sh) (nodes s)) <$> get ind j
      else get ind j.
Proof.
  revert ind sh. induction ms as [|i ms IH]; intros ind sh Hh Hr.
  - exists ind. split; [done|]. intros j.
    rewrite decide_False; [done|]. apply not_elem_of_nil.
  - cbn [relabel]. rewrite (atZ_Some _ _ _ Hh), bind_Done.
    destruct (Hr i) as [si Hsi]; [apply elem_of_cons; by left|].
    destruct (setLabel_spec ind i (label sh) si Hsi) as (ind1 & -> & H1).
    rewrite bind_Done.
    assert (Hh1 : exists sh1, get ind1 hid = Some sh1 /\ label sh1 = label sh).
    { rewrite H1. destruct (decide (hid = i)); eauto. }
    destruct Hh1 as (sh1 & Hh1 & Hl1).
    destruct (IH ind1 sh1 Hh1) as (ind' & -> & H').
    { intros k Hk. rewrite H1. destruct (decide (k = i)); [eauto|].
      apply Hr, elem_of_cons. by right. }
    exists ind'. split; [done|]. intros j. rewrite H', H1, Hl1.
    destruct (decide (j = i)) as [->|Hne].
    + rewrite (decide_True (P := i ∈ i :: ms)) by (apply elem_of_cons; by left).
      rewrite Hsi. simpl. destruct (decide (i ∈ ms)); done.
    + destruct (decide (j ∈ ms)) as [Hin|Hnin].
      * rewrite decide_True by (apply elem_of_cons; by right). done.
      * rewrite decide_False; [done|].
        rewrite elem_of_cons. intros [?|?]; done.
Qed.

Lemma overlay_rep_get g ind i :
  overlay g ind -> i ∈ ids g ->
  exists s, get ind (labelOf ind i) = Some s /\ label s = labelOf ind i /\
            labelOf ind i ∈ ids g.
Proof.
  intros Hov Hi.
  destruct (ov_dom _ _ Hov i Hi) as [_ Hl].
  destruct (ov_dom _ _ Hov _ Hl) as [[s Hs] _].
  exists s. split; [done|]. split; [|done].
  pose proof (ov_rep _ _ Hov i Hi) as Hr.
  unfold labelOf in Hr at 1. by rewrite Hs in Hr.
Qed.

(** The relabelling loop once the member list [M] of the absorbing label is
    in place. *)
Lemma absorb_finish g ind ind2 hid hl tl M :
  overlay g ind ->
  hid ∈ ids g -> labelOf ind hid = hl -> hl <> tl ->
  hl ∈ ids g -> tl ∈ ids g -> labelOf ind tl = tl ->
  NoDup M ->
  (forall i, i ∈ M <-> i ∈ ids g /\ (labelOf ind i = hl \/ labelOf ind i = tl)) ->
  (forall j, get ind2 j =
     if decide (j = hl) then Some (mkSuper hl (Some M))
     else if decide (j = tl) then Some (mkSuper tl None)
     else get ind j) ->
  exists ind',
    relabel M hid ind2 = Done ind' /\
    (forall j, is_Some (get ind' j) <-> is_Some (get ind j)) /\
    (forall j, labelOf ind' j = if decide (j ∈ M) then hl else labelOf ind j) /\
    nodesAt ind' hl = Some M /\
    (forall j, j <> hl -> j <> tl -> nodesAt ind' j = nodesAt ind j).
Proof.
  intros Hov Hhid HLh Hne Hhl Htl HLt HND HM H2.
  destruct (ov_dom _ _ Hov hl Hhl) as [[shl Hshl] _].
  destruct (ov_dom _ _ Hov tl Htl) as [[stl Hstl] _].
  assert (Hsome2 : forall j, is_Some (get ind2 j) <-> is_Some (get ind j)).
  { intros j. rewrite H2. destruct (decide (j = hl)) as [->|];
      [rewrite Hshl; split; eauto|].
    destruct (decide (j = tl)) as [->|]; [rewrite Hstl; split; eauto|done]. }
  assert (Hlab2 : forall j, labelOf ind2 j = labelOf ind j).
  { intros j. unfold labelOf. rewrite H2.
    destruct (decide (j = hl)) as [->|].
    - simpl. pose proof (ov_rep _ _ Hov hid Hhid) as Hr. rewrite HLh in Hr.
      unfold labelOf in Hr. by rewrite Hshl in *.
    - destruct (decide (j = tl)) as [->|]; [|done].
      simpl. unfold labelOf in HLt. by rewrite Hstl in *. }
  assert (Hh2 : exists sh2, get ind2 hid = Some sh2 /\ label sh2 = hl).
  { destruct (ov_dom _ _ Hov hid Hhid) as [Hs _].
    apply Hsome2 in Hs. destruct Hs as [sh2 Hs2]. exists sh2. split; [done|].
    specialize (Hlab2 hid). unfold labelOf in Hlab2 at 1.
    rewrite Hs2 in Hlab2. congruence. }
  destruct Hh2 as (sh2 & Hsh2 & Hl2).
  destruct (relabel_spec M hid ind2 sh2 Hsh2) as (ind' & Hrel & H').
  { intros i Hi. apply Hsome2. apply HM in Hi. destruct Hi as [Hi _].
    by destruct (ov_dom _ _ Hov i Hi). }
  exists ind'. split; [done|].
  assert (HinM : forall j, j ∈ M -> is_Some (get ind2 j)).
  { intros j Hj. apply Hsome2. apply HM in Hj. destruct Hj as [Hj _].
    by destruct (ov_dom _ _ Hov j Hj). }
  split; [|split; [|split]].
  - intros j. rewrite H'. destruct (decide (j ∈ M)) as [Hj|Hj]; [|apply Hsome2].
    rewrite <- Hsome2. rewrite fmap_is_Some. done.
  - intros j. unfold labelOf at 1. rewrite H'.
    destruct (decide (j ∈ M)) as [Hj|Hj].
    + destruct (HinM j Hj) as [s Hs]. rewrite Hs. simpl. done.
    + fold (labelOf ind2 j). apply Hlab2.
  - unfold nodesAt. rewrite H'.
    assert (HhlM : hl ∈ M).
    { apply HM. split; [done|]. left.
      pose proof (ov_rep _ _ Hov hid Hhid) as Hr. by rewrite HLh in Hr. }
    rewrite decide_True by done.
    rewrite H2, decide_True by done. done.
  - intros j Hj1 Hj2. unfold nodesAt. rewrite H'.
    destruct (decide (j ∈ M)).
    + rewrite H2, decide_False, decide_False by done.
      destruct (get ind j); done.
    + rewrite H2, decide_False, decide_False by done. done.
Qed.

Lemma absorb_spec g ind hid tid hl tl :
  overlay g ind ->
  hid ∈ ids g -> tid ∈ ids g ->
  labelOf ind hid = hl -> labelOf ind tid = tl -> hl <> tl ->
  (length (default [] (nodesAt ind tl)) <= length (default [] (nodesAt ind hl)))%nat ->
  exists ind' M,
    absorb hid tid hl tl ind = Done ind' /\
    NoDup M /\
    (forall i, i ∈ M <-> i ∈ ids g /\ (labelOf ind i = hl \/ labelOf ind i = tl)) /\
    (forall j, is_Some (get ind' j) <-> is_Some (get ind j)) /\
    (forall j, labelOf ind' j = if decide (j ∈ M) then hl else labelOf ind j) /\
    nodesAt ind' hl = Some M /\
    (forall j, j <> hl -> j <> tl -> nodesAt ind' j = nodesAt ind j).
Proof.
  intros Hov Hhid Htid HLh HLt Hne Hlen.
  destruct (overlay_rep_get g ind hid Hov Hhid) as (shl & Hshl & Lhl & Hhl).
  destruct (overlay_rep_get g ind tid Hov Htid) as (stl & Hstl & Ltl & Htl).
  rewrite HLh in *. rewrite HLt in *.
  assert (Lh : labelOf ind hl = hl) by (unfold labelOf; by rewrite Hshl).
  assert (Lt : labelOf ind tl = tl) by (unfold labelOf; by rewrite Hstl).
  pose proof (ov_mem _ _ Hov hl Hhl Lh) as memh.
  pose proof (ov_mem _ _ Hov tl Htl Lt) as memt.
  unfold nodesAt in memh, memt, Hlen. rewrite Hshl in memh, Hlen.
  rewrite Hstl in memt, Hlen.
  assert (Hfin : forall ind2 M,
    NoDup M ->
    (forall i, i ∈ M <-> i ∈ ids g /\ (labelOf ind i = hl \/ labelOf ind i = tl)) ->
    (forall j, get ind2 j =
       if decide (j = hl) then Some (mkSuper hl (Some M))
       else if decide (j = tl) then Some (mkSuper tl None)
       else get ind j) ->
    exists ind' M',
      (shl' ← atZ ind2 hl; relabel (default [] (nodes shl')) hid ind2) = Done ind' /\
      NoDup M' /\
      (forall i, i ∈ M' <-> i ∈ ids g /\ (labelOf ind i = hl \/ labelOf ind i = tl)) /\
      (forall j, is_Some (get ind' j) <-> is_Some (get ind j)) /\
      (forall j, labelOf ind' j = if decide (j ∈ M') then hl else labelOf ind j) /\
      nodesAt ind' hl = Some M' /\
      (forall j, j <> hl -> j <> tl -> nodesAt ind' j = nodesAt ind j)).
  { intros ind2 M HND HM H2.
    assert (Hg : get ind2 hl = Some (mkSuper hl (Some M)))
      by (rewrite H2; by rewrite decide_True).
    rewrite (atZ_Some _ _ _ Hg), bind_Done. simpl.
    destruct (absorb_finish g ind ind2 hid hl tl M) as (ind' & Hr & Hrest);
      try done.
    exists ind', M. done. }
  unfold absorb. rewrite (atZ_Some _ _ _ Hshl), bind_Done.
  destruct (nodes shl) as [mh|] eqn:Enh.
  - rewrite bind_Done, (atZ_Some _ _ _ Hstl), bind_Done.
    destruct memh as [NDh memh].
    destruct (nodes stl) as [mt|] eqn:Ent.
    + destruct memt as [NDt memt].
      rewrite (atZ_Some _ _ _ Hshl), bind_Done.
      destruct (setNodes_spec ind hl (appendNodes shl mt) shl Hshl)
        as (ind1 & -> & H1).
      rewrite bind_Done.
      assert (Hstl1 : get ind1 tl = Some stl)
        by (rewrite H1, decide_False by done; done).
      destruct (setNodes_spec ind1 tl None stl Hstl1) as (ind2 & -> & H2).
      rewrite bind_Done.
      apply (Hfin ind2 (mh ++ mt)).
      * apply NoDup_app. split; [done|]. split; [|done].
        intros i Hi1 Hi2. apply memh in Hi1. apply memt in Hi2.
        destruct Hi1 as [_ Hi1]. destruct Hi2 as [_ Hi2]. congruence.
      * intros i. rewrite elem_of_app, memh, memt. tauto.
      * intros j. rewrite H2, H1, Ltl, Lhl.
        unfold appendNodes. rewrite Enh. simpl.
        destruct (decide (j = tl)) as [->|]; [by rewrite decide_False|done].
    + assert (Etid : tid = tl) by (by apply memt).
      rewrite (atZ_Some _ _ _ Hshl), bind_Done.
      destruct (setNodes_spec ind hl (appendNodes shl [tid]) shl Hshl)
        as (ind2 & -> & H2).
      rewrite bind_Done.
      apply (Hfin ind2 (mh ++ [tid])).
      * apply NoDup_app. split; [done|]. split; [|apply NoDup_singleton].
        intros i Hi1 Hi2. apply memh in Hi1. apply list_elem_of_singleton in Hi2.
        destruct Hi1 as [_ Hi1]. congruence.
      * intros i. rewrite elem_of_app, memh, list_elem_of_singleton.
        split.
        -- intros [[? ?] | ->]; [tauto|]. split; [done|]. by right.
        -- intros [Hi [?|Hl]]; [left; done|]. right.
           rewrite Etid. by apply memt.
      * intros j. rewrite H2, Lhl. unfold appendNodes. rewrite Enh. simpl.
        destruct (decide (j = hl)); [done|].
        destruct (decide (j = tl)) as [->|]; [|done].
        rewrite Hstl. destruct stl as [ls ns]. simpl in *. by subst.
  - assert (Ehid : hid = hl) by (by apply memh).
    assert (Ent : nodes stl = None).
    { destruct (nodes stl) as [mt|]; [|done].
      destruct memt as [_ memt]. simpl in Hlen.
      destruct mt; [|simpl in Hlen; lia].
      exfalso. eapply not_elem_of_nil. apply memt. done. }
    rewrite Ent in memt.
    assert (Etid : tid = tl) by (by apply memt).
    destruct (setNodes_spec ind hl (Some [hid]) shl Hshl) as (ind1 & -> & H1).
    rewrite bind_Done.
    assert (Hstl1 : get ind1 tl = Some stl)
      by (rewrite H1, decide_False by done; done).
    rewrite (atZ_Some _ _ _ Hstl1), bind_Done, Ent.
    assert (Hshl1 : get ind1 hl = Some (mkSuper (label shl) (Some [hid])))
      by (rewrite H1, decide_True by done; done).
    rewrite (atZ_Some _ _ _ Hshl1), bind_Done.
    destruct (setNodes_spec ind1 hl
                (appendNodes (mkSuper (label shl) (Some [hid])) [tid])
                _ Hshl1) as (ind2 & -> & H2).
    rewrite bind_Done.
    apply (Hfin ind2 [hid; tid]).
    + apply NoDup_cons. split; [|apply NoDup_singleton].
      rewrite list_elem_of_singleton. congruence.
    + intros i. rewrite elem_of_cons, list_elem_of_singleton. split.
      * intros [-> | ->]; split; try done; [by left|by right].
      * intros [Hi [Hl|Hl]]; [left; rewrite Ehid; by apply memh|
                               right; rewrite Etid; by apply memt].
    + intros j. rewrite H2, H1. simpl. rewrite Lhl.
      destruct (decide (j = hl)); [done|].
      destruct (decide (j = tl)) as [->|]; [|done].
      rewrite Hstl. destruct stl as [ls ns]. simpl in *. by subst.
Qed.

Lemma distinctLabels_size g ind : distinctLabels g ind = size (labelSet g ind).
Proof.
  unfold distinctLabels, labelSet.
  rewrite <- (size_list_to_set (C := gset Z) (remove_dups _))
    by apply NoDup_remove_dups.
  f_equal. apply set_eq. intros x.
  by rewrite !elem_of_list_to_set, elem_of_remove_dups.
Qed.

Lemma elem_of_labelSet g ind x :
  x ∈ labelSet g ind <-> exists i, i ∈ ids g /\ x = labelOf ind i.
Proof.
  unfold labelSet. rewrite elem_of_list_to_set, list_elem_of_fmap.
  split; intros (i & ? & ?); exists i; done.
Qed.

(** What [wfGraph] says, as propositions. *)
Lemma wfGraph_spec g :
  wfGraph g = true ->
  NoDup (ids g) /\
  (forall i, i ∈ ids g -> 0 <= i < nextNodeID g) /\
  (forall e, e ∈ compEdges g ->
     exists a b, eu e = Some a /\ ev e = Some b /\ a ∈ ids g /\ b ∈ ids g) /\
  NoDup (map eid (compEdges g)).
Proof.
  unfold wfGraph. rewrite !andb_true_iff.
  intros [[[H1 H2] H3] H4].
  apply bool_decide_eq_true in H1. apply bool_decide_eq_true in H4.
  rewrite forallb_forall in H2. rewrite forallb_forall in H3.
  split; [done|]. split; [|split; [|done]].
  - intros i Hi. apply list_elem_of_In in Hi. apply H2 in Hi.
    apply andb_true_iff in Hi. lia.
  - intros e He. apply list_elem_of_In in He. apply H3 in He.
    destruct (eu e) as [a|]; [|done]. destruct (ev e) as [b|]; [|done].
    apply andb_true_iff in He. destruct He as [Ha Hb].
    apply bool_decide_eq_true in Ha. apply bool_decide_eq_true in Hb.
    exists a, b. done.
Qed.

(** The overlay after the relabelling of the member list [M]. *)
Lemma overlay_after g ind ind' hl tl M :
  overlay g ind ->
  hl ∈ ids g -> tl ∈ ids g ->
  labelOf ind hl = hl -> labelOf ind tl = tl -> hl <> tl ->
  NoDup M ->
  (forall i, i ∈ M <-> i ∈ ids g /\ (labelOf ind i = hl \/ labelOf ind i = tl)) ->
  (forall j, is_Some (get ind' j) <-> is_Some (get ind j)) ->
  (forall j, labelOf ind' j = if decide (j ∈ M) then hl else labelOf ind j) ->
  nodesAt ind' hl = Some M ->
  (forall j, j <> hl -> j <> tl -> nodesAt ind' j = nodesAt ind j) ->
  overlay g ind' /\
  labelSet g ind' = labelSet g ind ∖ {[tl]} /\
  (forall j, j ∈ ids g ->
     labelOf ind' j = if decide (labelOf ind j = tl) then hl else labelOf ind j).
Proof.
  intros Hov Hhl Htl Lh Lt Hne HND HM Hsome Hlab Hnh Hno.
  assert (HhlM : hl ∈ M) by (apply HM; auto).
  assert (HtlM : tl ∈ M) by (apply HM; auto).
  assert (HrepM : forall r, r ∈ ids g -> labelOf ind r = r ->
            r ∈ M <-> (r = hl \/ r = tl)).
  { intros r Hr HLr. rewrite HM, HLr. tauto. }
  split; [|split].
  - constructor.
    + intros i Hi. destruct (ov_dom _ _ Hov i Hi) as [Hs Hl].
      split; [by apply Hsome|]. rewrite Hlab. destruct (decide (i ∈ M)); done.
    + intros i Hi. rewrite (Hlab i).
      destruct (decide (i ∈ M)) as [HiM|HiM].
      * rewrite Hlab. by rewrite decide_True.
      * destruct (ov_dom _ _ Hov i Hi) as [_ Hl].
        pose proof (ov_rep _ _ Hov i Hi) as Hr.
        rewrite Hlab. rewrite decide_False; [done|].
        rewrite (HrepM _ Hl Hr). intros [E|E]; apply HiM, HM; rewrite E; auto.
    + intros r Hr HLr'.
      destruct (decide (r ∈ M)) as [HrM|HrM].
      * rewrite Hlab, decide_True in HLr' by done. subst r.
        rewrite Hnh. split; [done|]. intros i. rewrite Hlab. split.
        -- intros HiM. rewrite decide_True by done. split; [|done].
           by apply HM in HiM as [? _].
        -- intros [Hi Hl]. destruct (decide (i ∈ M)); [done|].
           apply HM. auto.
      * rewrite Hlab, decide_False in HLr' by done.
        assert (r <> hl) by (intros ->; done).
        assert (r <> tl) by (intros ->; done).
        rewrite Hno by done.
        pose proof (ov_mem _ _ Hov r Hr HLr') as Hm.
        assert (Hcls : forall i, i ∈ ids g ->
                  labelOf ind' i = r <-> labelOf ind i = r).
        { intros i Hi. rewrite Hlab. destruct (decide (i ∈ M)) as [HiM|]; [|done].
          apply HM in HiM as [_ [E|E]]; split; congruence. }
        destruct (nodesAt ind r) as [l|].
        -- destruct Hm as [ND Hm]. split; [done|]. intros i. rewrite Hm.
           split; intros [Hi Hl]; (split; [done|]); by apply Hcls.
        -- intros i Hi Hl. apply Hm; [done|]. by apply Hcls.
  - apply set_eq. intros x.
    rewrite elem_of_difference, !elem_of_labelSet, elem_of_singleton.
    split.
    + intros (i & Hi & ->). rewrite Hlab.
      destruct (decide (i ∈ M)) as [HiM|HiM].
      * split; [|done]. exists hl. done.
      * split; [by exists i|]. intros E. apply HiM, HM. auto.
    + intros [(i & Hi & ->) Hx]. exists i. split; [done|]. rewrite Hlab.
      destruct (decide (i ∈ M)) as [HiM|HiM]; [|done].
      apply HM in HiM as [_ [E|E]]; done.
  - intros j Hj. rewrite Hlab.
    destruct (decide (j ∈ M)) as [HjM|HjM].
    + apply HM in HjM as [_ [E|E]].
      * rewrite decide_False by congruence. done.
      * by rewrite decide_True.
    + rewrite decide_False; [done|]. intros E. apply HjM, HM. auto.
Qed.

Lemma lenNodes_nodesAt ind i s :
  get ind i = Some s -> lenNodes s = length (default [] (nodesAt ind i)).
Proof.
  intros H. unfold lenNodes, nodesAt. rewrite H. by destruct (nodes s).
Qed.

Lemma loop_spec g ka e :
  overlay g (ka_ind ka) -> wfGraph g = true -> e ∈ compEdges g ->
  exists a b, eu e = Some a /\ ev e = Some b /\ a ∈ ids g /\ b ∈ ids g /\
    loop ka e = Done (labelOf (ka_ind ka) b =? labelOf (ka_ind ka) a).
Proof.
  intros Hov Hwf He.
  destruct (wfGraph_spec g Hwf) as (_ & _ & Hed & _).
  destruct (Hed e He) as (a & b & Hu & Hv & Ha & Hb).
  exists a, b. repeat (split; [done|]).
  destruct (ov_dom _ _ Hov a Ha) as [[sa Hsa] _].
  destruct (ov_dom _ _ Hov b Hb) as [[sb Hsb] _].
  unfold loop, HeadID, TailID. rewrite Hu, Hv, bind_Done.
  rewrite (atZ_Some _ _ _ Hsb), bind_Done, bind_Done.
  rewrite (atZ_Some _ _ _ Hsa), bind_Done.
  unfold labelOf. by rewrite Hsa, Hsb.
Qed.

(** A merge on a context that satisfies the invariant returns, keeps the
    invariant, lowers [order] by one and removes exactly one label. *)
Lemma merge_spec g ka e ta hb :
  overlay g (ka_ind ka) ->
  eu e = Some ta -> ev e = Some hb -> ta ∈ ids g -> hb ∈ ids g ->
  labelOf (ka_ind ka) hb <> labelOf (ka_ind ka) ta ->
  exists ka' a b,
    merge ka e = Done ka' /\
    ka_g ka' = ka_g ka /\ ka_sel ka' = ka_sel ka /\
    ka_c ka' = ka_c ka /\ ka_w ka' = ka_w ka /\
    ka_order ka' = ka_order ka - 1 /\
    overlay g (ka_ind ka') /\
    a ∈ labelSet g (ka_ind ka) /\ b ∈ labelSet g (ka_ind ka) /\ a <> b /\
    (a = labelOf (ka_ind ka) hb /\ b = labelOf (ka_ind ka) ta \/
     a = labelOf (ka_ind ka) ta /\ b = labelOf (ka_ind ka) hb) /\
    labelSet g (ka_ind ka') = labelSet g (ka_ind ka) ∖ {[b]} /\
    (forall j, j ∈ ids g ->
       labelOf (ka_ind ka') j =
       if decide (labelOf (ka_ind ka) j = b) then a else labelOf (ka_ind ka) j).
Proof.
  intros Hov Hu Hv Hta Hhb Hdiff.
  set (ind := ka_ind ka) in *.
  destruct (ov_dom _ _ Hov ta Hta) as [[st Hst] _].
  destruct (ov_dom _ _ Hov hb Hhb) as [[sh Hsh] _].
  destruct (overlay_rep_get g ind hb Hov Hhb) as (shl & Hshl & Lhl & Hhl).
  destruct (overlay_rep_get g ind ta Hov Hta) as (stl & Hstl & Ltl & Htl).
  assert (Eh : label sh = labelOf ind hb) by (unfold labelOf; by rewrite Hsh).
  assert (Et : label st = labelOf ind ta) by (unfold labelOf; by rewrite Hst).
  set (hl := labelOf ind hb) in *. set (tl := labelOf ind ta) in *.
  assert (Lh : labelOf ind hl = hl) by (unfold labelOf; by rewrite Hshl).
  assert (Lt : labelOf ind tl = tl) by (unfold labelOf; by rewrite Hstl).
  assert (Hinh : hl ∈ labelSet g ind) by (apply elem_of_labelSet; by exists hb).
  assert (Hint : tl ∈ labelSet g ind) by (apply elem_of_labelSet; by exists ta).
  unfold merge, HeadID, TailID. fold ind. rewrite Hu, Hv, !bind_Done.
  rewrite (atZ_Some _ _ _ Hsh), bind_Done.
  rewrite (atZ_Some _ _ _ Hst), bind_Done.
  rewrite Eh, Et.
  rewrite (atZ_Some _ _ _ Hshl), bind_Done.
  rewrite (atZ_Some _ _ _ Hstl), bind_Done.
  rewrite (lenNodes_nodesAt ind hl shl Hshl), (lenNodes_nodesAt ind tl stl Hstl).
  destruct (Nat.ltb_spec (length (default [] (nodesAt ind hl)))
              (length (default [] (nodesAt ind tl)))) as [Hlt|Hge].
  - destruct (absorb_spec g ind ta hb tl hl Hov Hta Hhb eq_refl eq_refl)
      as (ind' & M & -> & HND & HM & Hsome & Hlab & Hnh & Hno);
      [congruence|lia|].
    assert (Hne' : tl <> hl) by congruence.
    destruct (overlay_after g ind ind' tl hl M Hov Htl Hhl Lt Lh Hne'
                HND HM Hsome Hlab Hnh Hno) as (Hov' & Hset & Hl').
    rewrite bind_Done. eexists _, tl, hl. split; [reflexivity|]. simpl.
    split_and!; try done. by right.
  - destruct (absorb_spec g ind hb ta hl tl Hov Hhb Hta eq_refl eq_refl)
      as (ind' & M & -> & HND & HM & Hsome & Hlab & Hnh & Hno);
      [congruence|lia|].
    destruct (overlay_after g ind ind' hl tl M Hov Hhl Htl Lh Lt Hdiff
                HND HM Hsome Hlab Hnh Hno) as (Hov' & Hset & Hl').
    rewrite bind_Done. eexists _, hl, tl. split; [reflexivity|]. simpl.
    split_and!; try done. by left.
Qed.

(** *** [init] establishes the invariant *)

Lemma labelNodes_spec ns ind :
  (forall n, n ∈ ns -> is_Some (get ind (nodeID n))) ->
  exists ind', labelNodes ns ind = Done ind' /\
    forall j, get ind' j =
      if decide (j ∈ nodeID <$> ns)
      then (fun s => mkSuper j (nodes s)) <$> get ind j
      else get ind j.
Proof.
  revert ind. induction ns as [|n ns IH]; intros ind Hr.
  - exists ind. split; [done|]. intros j.
    rewrite decide_False; [done|]. simpl. apply not_elem_of_nil.
  - cbn [labelNodes].
    destruct (Hr n) as [s Hs]; [apply elem_of_cons; by left|].
    destruct (setLabel_spec ind (nodeID n) (nodeID n) s Hs) as (ind1 & -> & H1).
    rewrite bind_Done.
    destruct (IH ind1) as (ind' & -> & H').
    { intros m Hm. rewrite H1. destruct (decide (nodeID m = nodeID n)); [eauto|].
      apply Hr, elem_of_cons. by right. }
    exists ind'. split; [done|]. intros j. rewrite H', H1, fmap_cons.
    destruct (decide (j = nodeID n)) as [->|Hne].
    + rewrite (decide_True (P := nodeID n ∈ nodeID n :: _))
        by (apply elem_of_cons; by left).
      rewrite Hs. simpl. destruct (decide (nodeID n ∈ nodeID <$> ns)); done.
    + destruct (decide (j ∈ nodeID <$> ns)) as [Hin|Hnin].
      * rewrite decide_True by (apply elem_of_cons; by right). done.
      * rewrite decide_False; [done|].
        rewrite elem_of_cons. intros [?|?]; done.
Qed.

Lemma get_replicate n (x : super) j :
  get (replicate n x) j =
  if decide (0 <= j < Z.of_nat n) then Some x else None.
Proof.
  unfold get. destruct (Z.ltb_spec j 0).
  - rewrite decide_False by lia. done.
  - destruct (decide (0 <= j < Z.of_nat n)).
    + apply lookup_replicate_2. lia.
    + apply lookup_replicate_None. lia.
Qed.

(** The context after [newKargerR] and [init]: the label of every id of
    [g] is the id itself and no member list is allocated. *)
Lemma init_spec g :
  wfGraph g = true -> 0 <= nextNodeID g ->
  exists ka0 ka,
    newKargerR g = Done ka0 /\ init ka0 = Done ka /\
    ka_g ka = g /\ ka_order ka = Order g /\
    ka_sel ka = Init (map (fun e => mkItem (eid e) (eweight e) 0) (Edges g)) /\
    ka_c ka = [] /\
    forall j, get (ka_ind ka) j =
      if decide (j ∈ ids g) then Some (mkSuper j None)
      else if decide (0 <= j < nextNodeID g) then Some (mkSuper (-1) None)
      else None.
Proof.
  intros Hwf Hn.
  destruct (wfGraph_spec g Hwf) as (HND & Hrange & _ & _).
  unfold newKargerR, make, NextNodeID.
  destruct (Z.ltb_spec (nextNodeID g) 0) as [?|_]; [lia|].
  rewrite bind_Done. eexists.
  cut (exists ka,
    init (mkKargerR g 0 (replicate (Z.to_nat (nextNodeID g)) (mkSuper 0 None))
            (replicate (Size g) (mkItem 0 0 0)) [] 0) = Done ka /\
    ka_g ka = g /\ ka_order ka = Order g /\
    ka_sel ka = Init (map (fun e => mkItem (eid e) (eweight e) 0) (Edges g)) /\
    ka_c ka = [] /\
    forall j, get (ka_ind ka) j =
      if decide (j ∈ ids g) then Some (mkSuper j None)
      else if decide (0 <= j < nextNodeID g) then Some (mkSuper (-1) None)
      else None).
  { intros (ka & H). exists ka. split; [reflexivity|]. exact H. }
  unfold init. cbn [ka_g ka_ind ka_sel ka_c ka_w].
  set (base := map (fun _ : super => mkSuper (-1) None)
                 (replicate (Z.to_nat (nextNodeID g)) (mkSuper 0 None))).
  assert (Hbase : base = replicate (Z.to_nat (nextNodeID g)) (mkSuper (-1) None)).
  { unfold base. generalize (Z.to_nat (nextNodeID g)) as n.
    induction n as [|n IHn]; simpl; [done|]. by rewrite IHn. }
  destruct (labelNodes_spec (Nodes g) base) as (ind' & -> & H').
  { intros n Hn'. rewrite Hbase, get_replicate.
    rewrite decide_True; [eauto|].
    assert (nodeID n ∈ ids g).
    { unfold ids. apply list_elem_of_fmap. by exists n. }
    apply Hrange in H. lia. }
  rewrite bind_Done.
  rewrite length_map. unfold Edges, Size.
  rewrite length_replicate.
  destruct (Nat.leb_spec (length (compEdges g)) (length (compEdges g)));
    [|lia].
  cbn [negb]. eexists. split; [reflexivity|]. cbn.
  split; [done|]. split; [done|].
  split.
  { rewrite drop_replicate, Nat.sub_diag. simpl. by rewrite app_nil_r. }
  split; [done|].
  intros j. rewrite H'. unfold Nodes. fold (ids g).
  change (nodeID <$> compNodes g) with (ids g).
  rewrite Hbase, get_replicate.
  destruct (decide (j ∈ ids g)) as [Hj|Hj].
  - apply Hrange in Hj. rewrite decide_True by lia. done.
  - destruct (decide (0 <= j < nextNodeID g));
      [rewrite decide_True by lia|rewrite decide_False by lia]; done.
Qed.

Lemma init_overlay g ind :
  wfGraph g = true ->
  (forall j, get ind j =
      if decide (j ∈ ids g) then Some (mkSuper j None)
      else if decide (0 <= j < nextNodeID g) then Some (mkSuper (-1) None)
      else None) ->
  overlay g ind /\ Order g = Z.of_nat (size (labelSet g ind)).
Proof.
  intros Hwf Hget.
  destruct (wfGraph_spec g Hwf) as (HND & Hrange & _ & _).
  assert (HL : forall i, i ∈ ids g -> labelOf ind i = i).
  { intros i Hi. unfold labelOf. rewrite Hget, decide_True by done. done. }
  split.
  - constructor.
    + intros i Hi. rewrite HL by done. split; [|done].
      rewrite Hget, decide_True by done. eauto.
    + intros i Hi. rewrite (HL i Hi). by apply HL.
    + intros r Hr _. unfold nodesAt. rewrite Hget, decide_True by done. simpl.
      intros i Hi. by rewrite HL.
  - unfold Order, labelSet.
    assert (E : labelOf ind <$> ids g = ids g).
    { rewrite <- (list_fmap_id (ids g)) at 2.
      apply list_fmap_ext. intros k i Hk. apply HL.
      by apply list_elem_of_lookup_2 in Hk. }
    rewrite E, size_list_to_set by done.
    unfold ids. by rewrite length_map.
Qed.

(** *** The invariant holds in every reachable context *)

Lemma EdgeByID_Some g id e :
  EdgeByID g id = Some e -> e ∈ compEdges g /\ eid e = id.
Proof.
  unfold EdgeByID. intros H. apply List.find_some in H as [Hin Heq].
  split; [by apply list_elem_of_In|]. lia.
Qed.

Lemma loop_false_labels g ka e :
  overlay g (ka_ind ka) -> wfGraph g = true -> e ∈ compEdges g ->
  loop ka e = Done false ->
  exists a b, eu e = Some a /\ ev e = Some b /\ a ∈ ids g /\ b ∈ ids g /\
    labelOf (ka_ind ka) b <> labelOf (ka_ind ka) a.
Proof.
  intros Hov Hwf He Hl.
  destruct (loop_spec g ka e Hov Hwf He) as (a & b & Hu & Hv & Ha & Hb & Hloop).
  exists a, b. split_and!; try done.
  rewrite Hloop in Hl. injection Hl as Hl. by apply Z.eqb_neq.
Qed.

Lemma merge_stateInv g ka e ka' :
  wfGraph g = true -> stateInv g ka -> e ∈ compEdges g ->
  loop ka e = Done false ->
  exists ka'', merge ka e = Done ka'' /\
    (merge ka e = Done ka' -> stateInv g ka') /\
    stateInv g ka'' /\
    ka_sel ka'' = ka_sel ka /\ ka_order ka'' = ka_order ka - 1 /\
    ka_c ka'' = ka_c ka /\ ka_w ka'' = ka_w ka /\
    (forall i j, i ∈ ids g -> j ∈ ids g ->
       labelOf (ka_ind ka) i = labelOf (ka_ind ka) j ->
       labelOf (ka_ind ka'') i = labelOf (ka_ind ka'') j) /\
    (exists a b, eu e = Some a /\ ev e = Some b /\
       labelOf (ka_ind ka'') a = labelOf (ka_ind ka'') b).
Proof.
  intros Hwf (Hg & Hov & Hord) He Hl.
  destruct (loop_false_labels g ka e Hov Hwf He Hl)
    as (ta & hb & Hu & Hv & Hta & Hhb & Hdiff).
  destruct (merge_spec g ka e ta hb Hov Hu Hv Hta Hhb Hdiff)
    as (ka'' & a & b & Hm & Hg' & Hs' & Hc' & Hw' & Ho' & Hov' & Ha & Hb & Hab
        & Hcases & Hset & Hlab).
  assert (Hinv : stateInv g ka'').
  { split; [congruence|]. split; [done|].
    rewrite Ho', Hord, Hset.
    rewrite size_difference by (by apply singleton_subseteq_l).
    rewrite size_singleton.
    assert (size (labelSet g (ka_ind ka)) <> 0%nat).
    { intros H0. apply size_empty_inv in H0.
      apply (not_elem_of_empty (C := gset Z) b). by rewrite <- H0. }
    lia. }
  exists ka''. split_and!; try done.
  - rewrite Hm. by intros [= <-].
  - intros i j Hi Hj E. rewrite !Hlab by done. by rewrite E.
  - exists ta, hb. split_and!; try done. rewrite !Hlab by done.
    destruct Hcases as [[E1 E2]|[E1 E2]]; rewrite <- E1, <- E2;
      repeat case_decide; congruence.
Qed.

Lemma reachable_stateInv g ka :
  wfGraph g = true -> reachable g ka -> stateInv g ka.
Proof.
  intros Hwf Hr. induction Hr as
    [ka0 ka Hnew Hinit
    |ka u s idx err Hr IH HS
    |ka id e ka' Hr IH He Hl Hm
    |ka Hr IH
    |ka c w Hr IH].
  - assert (Hn : 0 <= nextNodeID g).
    { unfold newKargerR, make, NextNodeID in Hnew.
      destruct (Z.ltb_spec (nextNodeID g) 0); [done|lia]. }
    destruct (init_spec g Hwf Hn)
      as (ka0' & ka1 & Hnew' & Hinit' & Hg & Ho & _ & _ & Hget).
    rewrite Hnew in Hnew'. injection Hnew' as <-.
    rewrite Hinit in Hinit'. injection Hinit' as <-.
    destruct (init_overlay g (ka_ind ka) Hwf Hget) as [Hov Hsz].
    split; [done|]. split; [done|]. congruence.
  - exact IH.
  - apply EdgeByID_Some in He as [He _].
    destruct (merge_stateInv g ka e ka' Hwf IH He Hl) as (_ & _ & H & _).
    by apply H.
  - exact IH.
  - exact IH.
Qed.

(** C3: in every context a run can reach, a merge of the contraction loop
    (an edge found by its id whose end labels differ) returns, and after it
    the labels of the nodes of [g] take exactly [order] distinct values and
    the label of a label is that label. *)
Theorem merge_keeps_order_and_labels (g : Undirected) (ka : kargerR)
    (id : Z) (e : edge) :
  wfGraph g = true ->
  reachable g ka ->
  EdgeByID g id = Some e ->
  loop ka e = Done false ->
  exists ka',
    merge ka e = Done ka' /\
    reachable g ka' /\
    ka_order ka' = ka_order ka - 1 /\
    Z.of_nat (distinctLabels g (ka_ind ka')) = ka_order ka' /\
    (forall i, i ∈ ids g ->
       labelOf (ka_ind ka') (labelOf (ka_ind ka') i) = labelOf (ka_ind ka') i).
Proof.
  intros Hwf Hr He Hl.
  pose proof (reachable_stateInv g ka Hwf Hr) as Hinv.
  destruct (EdgeByID_Some g id e He) as [Hin _].
  destruct (merge_stateInv g ka e ka Hwf Hinv Hin Hl)
    as (ka' & Hm & _ & (Hg & Hov & Hord) & _ & Ho & _).
  exists ka'. split_and!; try done.
  - by eapply reach_merge.
  - by rewrite distinctLabels_size.
  - intros i Hi. by apply (ov_rep _ _ Hov).
Qed.

Lemma triangleInit_reachable : reachable triangle triangleInit.
Proof. eapply reach_init; vm_compute; reflexivity. Qed.

Lemma merge_keeps_order_and_labels_witness :
  (wfGraph triangle = true /\
   reachable triangle triangleInit /\
   EdgeByID triangle 1 = Some (mkEdge 1 (Some 1) (Some 2) 1 0) /\
   loop triangleInit (mkEdge 1 (Some 1) (Some 2) 1 0) = Done false) /\
  exists ka',
    merge triangleInit (mkEdge 1 (Some 1) (Some 2) 1 0) = Done ka' /\
    reachable triangle ka' /\
    ka_order ka' = ka_order triangleInit - 1 /\
    Z.of_nat (distinctLabels triangle (ka_ind ka')) = ka_order ka' /\
    (forall i, i ∈ ids triangle ->
       labelOf (ka_ind ka') (labelOf (ka_ind ka') i) = labelOf (ka_ind ka') i).
Proof.
  assert (H1 : wfGraph triangle = true) by (vm_compute; reflexivity).
  assert (H3 : EdgeByID triangle 1 = Some (mkEdge 1 (Some 1) (Some 2) 1 0))
    by (vm_compute; reflexivity).
  assert (H4 : loop triangleInit (mkEdge 1 (Some 1) (Some 2) 1 0) = Done false)
    by (vm_compute; reflexivity).
  split; [exact (conj H1 (conj triangleInit_reachable (conj H3 H4)))|].
  exact (merge_keeps_order_and_labels triangle triangleInit 1
           (mkEdge 1 (Some 1) (Some 2) 1 0) H1 triangleInit_reachable H3 H4).
Defined.

(** ** The recursion-tree parallel driver *)

(** With [count] not negative and [split] not positive the spawn test
    fails at every call of the recursion. *)
Lemma fastRandMinCutP_never_spawns fuel ka rs ka' rs' log :
  0 <= rp_count ka <= maxInt - Z.of_nat fuel -> rp_split ka <= 0 ->
  fastRandMinCutP fuel ka rs = Done (ka', rs', log) ->
  (forall b, b ∈ log -> b = false) /\
  rp_count ka <= rp_count ka' <= rp_count ka + Z.of_nat fuel /\
  rp_split ka' <= 0.
Proof.
  revert ka rs ka' rs' log.
  induction fuel as [|f IH]; intros ka rs ka' rs' log Hc Hs; [done|].
  cbn [fastRandMinCutP].
  destruct (ka_order (rp_base ka) <=? 6).
  - destruct (randCompact _ _ _ _) as [[b rs1]| |]; [|done..].
    cbn. intros [= <- <- <-]. cbn. split; [|lia].
    intros b' Hb. by apply not_elem_of_nil in Hb.
  - destruct (randContract _ _ _ _) as [[b0 rs0]| |]; [|done..].
    rewrite bind_Done. cbn [rp_base rp_count rp_split cloneP].
    rewrite (wrap_small (rp_count ka + 1))
      by (unfold minInt, maxInt in *; lia).
    destruct (fastRandMinCutP f (mkKargerRP b0 _ _) rs0)
      as [[[sub0 rs1] log0]| |] eqn:E0; [|done..].
    rewrite bind_Done.
    destruct (randContract _ _ _ rs1) as [[b1 rs2]| |]; [|done..].
    rewrite bind_Done.
    destruct (fastRandMinCutP f (mkKargerRP b1 _ _) rs2)
      as [[[sub1 rs3] log1]| |] eqn:E1; [|done..].
    rewrite bind_Done.
    apply IH in E0 as (H0 & Hc0 & Hs0); cbn; [|lia|lia].
    apply IH in E1 as (H1 & Hc1 & Hs1); cbn; [|lia|lia].
    cbn in Hc0, Hc1.
    assert (Hsp : spawns ka = false) by (unfold spawns; lia).
    assert (Hlog : forall b, b ∈ spawns ka :: log0 ++ log1 -> b = false).
    { intros b. rewrite elem_of_cons, elem_of_app.
      intros [->|[?|?]]; auto. }
    destruct (Qlt_le_dec _ _); intros [= <- <- <-];
      (split; [done|lia]).
Qed.

Lemma driverLoopP_never_spawns fuel n ka c w rs log c' w' log' :
  0 <= rp_count ka -> rp_count ka + Z.of_nat (n * fuel) + Z.of_nat fuel <= maxInt ->
  rp_split ka <= 0 ->
  (forall b, b ∈ log -> b = false) ->
  driverLoopP fuel n ka c w rs log = Done (c', w', log') ->
  forall b, b ∈ log' -> b = false.
Proof.
  revert ka c w rs log.
  induction n as [|n IH]; intros ka c w rs log Hc Hm Hs Hlog; cbn [driverLoopP].
  - by intros [= <- <- <-].
  - destruct (fastRandMinCutP fuel ka rs) as [[[ka1 rs1] l]| |] eqn:E; [|done..].
    rewrite bind_Done.
    apply fastRandMinCutP_never_spawns in E as (Hl & Hc1 & Hs1); [|lia|done].
    assert (Hlog' : forall b, b ∈ log ++ l -> b = false).
    { intros b [?|?]%elem_of_app; auto. }
    destruct (ltFloat _ _); apply IH; try done; lia.
Qed.

(** ** The sequential driver does not reset its context *)

(** C1, on the triangle with two iterations: [init] gives the fresh
    context ([order] 3, every label its own id, no member list, totals
    rebuilt), but the second iteration starts from the context the first
    one left: [order] is 2, node 1 carries the label 2, a member list is
    allocated and the weight of the selected edge is still zeroed; the
    second iteration contracts nothing and returns the same cut. *)
Theorem FastRandMinCut_second_iteration_not_reset :
  (ka ← newKargerR triangle; init ka) = Done triangleInit /\
  contextAfter 10 0 triangleInit half = Done (triangleInit, half) /\
  contextAfter 10 1 triangleInit half = Done (triangleAfterOne, nextDraws half) /\
  ka_order triangleAfterOne = 2 /\ Order triangle = 3 /\
  labelOf (ka_ind triangleAfterOne) 1 = 2 /\
  nodesAt (ka_ind triangleAfterOne) 2 = Some [2; 1] /\
  ka_sel triangleAfterOne <> ka_sel triangleInit /\
  triangleAfterOne <> triangleInit /\
  fastRandMinCut 10 triangleAfterOne (nextDraws half)
    = Done (triangleAfterOne, nextDraws half) /\
  FastRandMinCut 10 triangle 2 half
    = Done (ka_c triangleAfterOne, Fin 2).
Proof.
  split_and!; try (vm_compute; reflexivity); try discriminate.
Qed.

(** ** [ParFastRandMinCut] with a split budget of 0 *)

(** With [threads = 0] the spawn test fails throughout a run. *)
Lemma ParFastRandMinCut_zero_never_spawns fuel g iter rs c w log :
  Z.of_nat (Z.to_nat iter * fuel) + Z.of_nat fuel <= maxInt ->
  ParFastRandMinCut fuel g iter 0 rs = Done (c, w, log) ->
  forall b, b ∈ log -> b = false.
Proof.
  intros Hm. unfold ParFastRandMinCut, newKargerRP.
  destruct (newKargerR g) as [ka0| |]; [|done..].
  rewrite !bind_Done. cbn [rp_base rp_count].
  destruct (init ka0) as [b0| |]; [|done..].
  rewrite bind_Done. change (0 =? 0) with true. cbn iota.
  apply driverLoopP_never_spawns; cbn; try lia.
  intros b Hb. by apply not_elem_of_nil in Hb.
Qed.

(** C2, on a cycle of seven nodes: with a split budget of 0 the driver
    sets [split] to -1, the call of [fastRandMinCut] with [order = 7 > 6]
    finds [count < split] false (as it is for every count that is not
    negative), and nothing is spawned. *)
Theorem ParFastRandMinCut_zero_budget_runs_sequentially :
  Order cycle7 = 7 /\
  (forall (count : nat) b, spawns (mkKargerRP b (Z.of_nat count) (-1)) = false) /\
  exists c, ParFastRandMinCut 20 cycle7 1 0 ninths = Done (c, Fin 2, [false]).
Proof.
  split; [reflexivity|]. split.
  - intros count b. unfold spawns. cbn. apply Z.ltb_ge. lia.
  - eexists. vm_compute. reflexivity.
Qed.

(** ** [BuildUndirected] *)

Lemma nodeByID_is_Some g id : is_Some (nodeByID g id) <-> id ∈ ids g.
Proof.
  unfold nodeByID, ids. split.
  - intros [n Hn]. apply List.find_some in Hn as [Hin Heq].
    apply list_elem_of_fmap. exists n. split; [lia|by apply list_elem_of_In].
  - intros (n & -> & Hin)%list_elem_of_fmap.
    destruct (List.find _ _) as [m|] eqn:E; [eauto|].
    apply list_elem_of_In in Hin.
    pose proof (List.find_none _ _ E n Hin) as H. simpl in H. lia.
Qed.

Lemma ids_AddID id g j : j ∈ ids g -> j ∈ ids (AddID id g).
Proof.
  unfold AddID. destruct (nodeByID g id); [done|].
  unfold ids. cbn. rewrite map_app. intros H. apply elem_of_app. by left.
Qed.

Lemma ids_AddID_self id g : id ∈ ids (AddID id g).
Proof.
  unfold AddID. destruct (nodeByID g id) eqn:E.
  - apply nodeByID_is_Some. by rewrite E.
  - unfold ids. cbn. rewrite map_app. apply elem_of_app. right.
    apply list_elem_of_singleton. done.
Qed.

Lemma addIncident_ok id r g :
  id ∈ ids g ->
  exists g', addIncident id r g = Done g' /\ ids g' = ids g.
Proof.
  intros H. apply nodeByID_is_Some in H as [n Hn].
  unfold addIncident. rewrite Hn. eexists. split; [reflexivity|].
  unfold ids. cbn. rewrite map_map. apply map_ext.
  intros m. by destruct (nodeID m =? id).
Qed.

Lemma newEdgeKeepID_ok id uid vid w f g :
  uid ∈ ids g -> vid ∈ ids g ->
  exists r g', newEdgeKeepID id uid vid w f g = Done (r, g') /\ ids g' = ids g.
Proof.
  intros Hu Hv. unfold newEdgeKeepID.
  set (g0 := mkUndirected _ _ _).
  assert (E0 : ids g0 = ids g) by done.
  destruct (addIncident_ok uid (length (compEdges g)) g0) as (g1 & -> & E1);
    [by rewrite E0|].
  rewrite bind_Done.
  destruct (vid =? uid).
  - rewrite bind_Done. eexists _, _. split; [reflexivity|]. congruence.
  - destruct (addIncident_ok vid (length (compEdges g)) g1) as (g2 & -> & E2);
      [by rewrite E1, E0|].
    rewrite bind_Done. eexists _, _. split; [reflexivity|]. congruence.
Qed.

Lemma buildEdge_ok heap compact r seen g :
  (exists e a b, heap !! r = Some e /\ eu e = Some a /\ ev e = Some b /\
                 0 <= a /\ 0 <= b) ->
  exists st', buildEdge heap compact r (seen, g) = Done (inr st').
Proof.
  intros (e & a & b & He & Hu & Hv & Ha & Hb).
  unfold buildEdge. destruct (decide (r ∈ seen)); [eauto|].
  unfold at_. rewrite He, bind_Done.
  unfold TailID, HeadID. rewrite Hu, Hv, !bind_Done.
  destruct (Z.ltb_spec a 0); [lia|]. destruct (Z.ltb_spec b 0); [lia|].
  cbn [orb].
  set (g2 := AddID b (AddID a g)).
  assert (Ha2 : a ∈ ids g2) by apply ids_AddID, ids_AddID_self.
  assert (Hb2 : b ∈ ids g2) by apply ids_AddID_self.
  assert (Hne : exists ne g3,
    (if compact then newEdge a b (eweight e) (eflags e) g2
     else newEdgeKeepID (eid e) a b (eweight e) (eflags e) g2) = Done (ne, g3)
    /\ ids g3 = ids g2).
  { destruct compact; [unfold newEdge|]; by apply newEdgeKeepID_ok. }
  destruct Hne as (ne & g3 & -> & E3). rewrite bind_Done.
  destruct (addIncident_ok a ne g3) as (g4 & -> & E4); [by rewrite E3|].
  rewrite bind_Done.
  destruct (negb (b =? a)).
  - destruct (addIncident_ok b ne g4) as (g5 & -> & E5); [by rewrite E4, E3|].
    rewrite bind_Done. eauto.
  - rewrite bind_Done. eauto.
Qed.

Lemma buildEdges_ok heap compact rs st :
  (forall r, r ∈ rs ->
     exists e a b, heap !! r = Some e /\ eu e = Some a /\ ev e = Some b /\
                   0 <= a /\ 0 <= b) ->
  exists st', buildEdges heap compact rs st = Done (inr st').
Proof.
  revert st. induction rs as [|r rs IH]; intros [seen g] H; cbn [buildEdges]; [eauto|].
  destruct (buildEdge_ok heap compact r seen g) as (st1 & ->).
  { apply H, elem_of_cons. by left. }
  rewrite bind_Done. apply IH. intros r' Hr'. apply H, elem_of_cons. by right.
Qed.

(** The half of the claim that holds: when the edges of the node set have
    no negative endpoint id, [BuildUndirected] returns a graph and no
    error, whatever the ids of the source nodes. *)
Lemma BuildUndirected_returns_graph heap ns compact :
  edgesNonNegative heap ns ->
  exists g, BuildUndirected heap ns compact = Done (Some g, None).
Proof.
  intros H. unfold BuildUndirected.
  cut (forall st, exists st', buildNodes heap compact ns st = Done (inr st')).
  { intros Hc. destruct (Hc (∅, NewUndirected)) as ([seen g] & ->).
    rewrite bind_Done. eauto. }
  induction ns as [|n ns IH]; intros [seen g]; cbn [buildNodes]; [eauto|].
  destruct (buildEdges_ok heap compact (nodeEdges n) (seen, AddID (nodeID n) g))
    as (st1 & ->).
  { intros r Hr. apply (H n r); [apply elem_of_cons; by left|done]. }
  rewrite bind_Done. apply IH.
  intros m r Hm Hr. apply (H m r); [apply elem_of_cons; by right|done].
Qed.

(** The error is returned when an edge that is read has a negative
    endpoint id. *)
Lemma buildEdge_negative heap compact r seen g e a b :
  r ∉ seen -> heap !! r = Some e -> eu e = Some a -> ev e = Some b ->
  (a < 0 \/ b < 0) ->
  buildEdge heap compact r (seen, g) = Done (inl NodeIDOutOfRange).
Proof.
  intros Hr He Hu Hv Hneg. unfold buildEdge.
  rewrite decide_False by done.
  unfold at_. rewrite He, bind_Done.
  unfold TailID, HeadID. rewrite Hu, Hv, !bind_Done.
  destruct (Z.ltb_spec a 0); [done|]. destruct (Z.ltb_spec b 0); [done|]. lia.
Qed.

(** C9, on a node set of one node with id -1 and no edge: the id of the
    source node goes to [AddID] unchecked, the test on [uid] and [vid] is
    never reached, and a graph is returned with no error.  A second node
    set shows the same next to a node with a valid id. *)
Theorem BuildUndirected_negative_isolated_node :
  BuildUndirected [] [mkNode (-1) []] true
    = Done (Some (mkUndirected [mkNode (-1) []] [] 0), None) /\
  BuildUndirected [] [mkNode (-1) []] false
    = Done (Some (mkUndirected [mkNode (-1) []] [] 0), None) /\
  BuildUndirected [] [mkNode 0 []; mkNode (-5) []] false
    = Done (Some (mkUndirected [mkNode 0 []; mkNode (-5) []] [] 1), None) /\
  BuildUndirected [mkEdge 0 (Some 0) (Some (-1)) 1 0]
      [mkNode 0 [0%nat]; mkNode (-1) [0%nat]] false
    = Done (None, Some NodeIDOutOfRange).
Proof.
  split_and!; vm_compute; reflexivity.
Qed.

(** ** The cut that [FastRandMinCut] returns *)


Lemma SelectFrom_Done s rs s' idx err rs' :
  SelectFrom s rs = Done (s', idx, err, rs') ->
  Select s (rs 0%nat) = Done (s', idx, err) /\
  rs' = match err with Some _ => rs | None => nextDraws rs end.
Proof.
  unfold SelectFrom.
  destruct (Select s (rs 0%nat)) as [[[s1 i1] e1]| |]; [|done..].
  rewrite bind_Done. by intros [= <- <- <- <-].
Qed.

Lemma contractTarget_bounds k : 6 < k -> 6 <= contractTarget k <= k - 1.
Proof.
  intros Hk. unfold contractTarget.
  assert (Hq : 0 <= k * k / 2) by (apply Z.div_pos; nia).
  pose proof (Z.sqrt_spec (k * k / 2) Hq) as [Hlo Hhi].
  set (m := Z.sqrt (k * k / 2)) in *.
  assert (Hm : 0 <= m) by apply Z.sqrt_nonneg.
  assert (Hd : 2 * (k * k / 2) <= k * k < 2 * (k * k / 2) + 2).
  { pose proof (Z.div_mod (k * k) 2 ltac:(lia)).
    pose proof (Z.mod_pos_bound (k * k) 2 ltac:(lia)). lia. }
  split.
  - assert (4 <= m); [|lia].
    destruct (Z.le_gt_cases 4 m); [done|].
    assert (Z.succ m * Z.succ m <= 16) by nia. nia.
  - assert (m <= k - 3); [|lia].
    destruct (Z.le_gt_cases m (k - 3)); [done|].
    assert ((k - 2) * (k - 2) <= m * m) by nia. nia.
Qed.

(** The contexts that the loop, [randCompact] and [fastRandMinCut] return
    are reachable in the sense of [reachable]: the relation covers the
    code. *)
Lemma contractLoop_reachable g fuel k ka rs ka' rs' :
  wfGraph g = true -> reachable g ka ->
  contractLoop fuel k ka rs = Done (ka', rs') -> reachable g ka'.
Proof.
  intros Hwf. revert ka rs.
  induction fuel as [|f IH]; intros ka rs Hr; cbn [contractLoop].
  - destruct (negb _); [by intros [= <- <-]|done].
  - destruct (negb _); [by intros [= <- <-]|].
    destruct (SelectFrom (ka_sel ka) rs) as [[[[s idx] err] rs1]| |] eqn:ES;
      [|done..].
    rewrite bind_Done.
    apply SelectFrom_Done in ES as [ES _].
    assert (Hr1 : reachable g (withSel ka s)) by (by eapply reach_select).
    destruct err as [err|]; [by intros [= <- <-]|].
    pose proof (reachable_stateInv g _ Hwf Hr1) as (Hg & _).
    rewrite Hg.
    destruct (EdgeByID g idx) as [e|] eqn:He; [|done].
    destruct (loop (withSel ka s) e) as [[|]| |] eqn:El; [| |done..];
      rewrite bind_Done.
    + by apply IH.
    + destruct (merge (withSel ka s) e) as [ka1| |] eqn:Em; [|done..].
      rewrite bind_Done. apply IH. by eapply reach_merge.
Qed.

Lemma randCompact_reachable g fuel k ka rs ka' rs' :
  wfGraph g = true -> reachable g ka ->
  randCompact fuel k ka rs = Done (ka', rs') -> reachable g ka'.
Proof.
  intros Hwf Hr. unfold randCompact.
  destruct (contractLoop fuel k ka rs) as [[ka1 rs1]| |] eqn:EL; [|done..].
  rewrite bind_Done.
  destruct (cutEdges _ _ _ _) as [[c w]| |]; [|done..].
  rewrite bind_Done. intros [= <- <-].
  apply reach_cut. by eapply contractLoop_reachable.
Qed.

Lemma fastRandMinCut_reachable g fuel ka rs ka' rs' :
  wfGraph g = true -> reachable g ka ->
  fastRandMinCut fuel ka rs = Done (ka', rs') -> reachable g ka'.
Proof.
  intros Hwf. revert ka rs ka' rs'.
  induction fuel as [|f IH]; intros ka rs ka' rs' Hr; [done|].
  cbn [fastRandMinCut].
  destruct (ka_order ka <=? 6); [by apply randCompact_reachable|].
  unfold randContract.
  destruct (contractLoop (S f) _ ka rs) as [[s0 rs0]| |] eqn:E0; [|done..].
  rewrite bind_Done.
  destruct (fastRandMinCut f s0 rs0) as [[s0' rs0']| |] eqn:F0; [|done..].
  rewrite bind_Done.
  destruct (contractLoop (S f) _ (clone ka) rs0') as [[s1 rs1]| |] eqn:E1;
    [|done..].
  rewrite bind_Done.
  destruct (fastRandMinCut f s1 rs1) as [[s1' rs1']| |] eqn:F1; [|done..].
  rewrite bind_Done.
  apply contractLoop_reachable with (g := g) in E0; [|done..].
  apply contractLoop_reachable with (g := g) in E1; [|done|by apply reach_clone].
  destruct (Qlt_le_dec _ _); intros [= <- <-];
    [exact (IH _ _ _ _ E0 F0)|exact (IH _ _ _ _ E1 F1)].
Qed.






(** ** The totals of the selector form a tree of sums *)

Lemma parent_child i :
  (S i = 2 * parent (S i) + 1 \/ S i = 2 * parent (S i) + 2)%nat.
Proof.
  rewrite parent_half.
  pose proof (Nat.div_mod_eq (S i + 1) 2) as H.
  pose proof (Nat.mod_upper_bound (S i + 1) 2 ltac:(lia)) as H2.
  lia.
Qed.

Lemma totalAt_addTotal p d (s : Selector) j :
  (p < length s)%nat ->
  totalAt (addTotal p d s) j =
  if decide (j = p) then (totalAt s j + d)%Q else totalAt s j.
Proof.
  intros Hp. unfold addTotal, totalAt.
  destruct (lookup_lt_is_Some_2 s p Hp) as [it Hit]. rewrite Hit.
  destruct (decide (j = p)) as [->|Hne].
  - rewrite list_lookup_insert_eq by done. by rewrite Hit.
  - by rewrite list_lookup_insert_ne.
Qed.

Lemma weightAt_addTotal p d (s : Selector) j :
  weightAt (addTotal p d s) j = weightAt s j.
Proof.
  unfold addTotal, weightAt.
  destruct (s !! p) as [it|] eqn:Hit; [|done].
  destruct (decide (j = p)) as [->|Hne].
  - rewrite list_lookup_insert_eq by (by eapply lookup_lt_Some). by rewrite Hit.
  - by rewrite list_lookup_insert_ne.
Qed.

Lemma accumulate_treeInv i (s : Selector) :
  (i < length s)%nat -> partInv i s -> treeInv (accumulate i s).
Proof.
  revert s. induction i as [|k IH]; intros s Hlt Hp.
  - intros j. specialize (Hp j). simpl accumulate.
    rewrite !decide_True in Hp by lia. exact Hp.
  - simpl accumulate.
    destruct (lookup_lt_is_Some_2 s (S k) Hlt) as [it Hit]. rewrite Hit.
    apply IH; [rewrite length_addTotal; lia|].
    pose proof (parent_lt k) as Hpl.
    pose proof (parent_child k) as Hpc.
    set (p := parent (S k)) in *.
    assert (Hti : totalAt s (S k) = total it) by (unfold totalAt; by rewrite Hit).
    intros j. rewrite !totalAt_addTotal, weightAt_addTotal by lia.
    specialize (Hp j). rewrite <- Hti.
    destruct (decide (j = p)) as [->|Hne].
    + destruct Hpc as [Hc|Hc].
      * assert (E : (2 * p + 1)%nat = S k) by lia. rewrite E in Hp |- *.
        repeat case_decide; try lia. rewrite Hp. lra.
      * assert (E : (2 * p + 2)%nat = S k) by lia. rewrite E in Hp |- *.
        repeat case_decide; try lia. rewrite Hp. lra.
    + rewrite Hp.
      destruct (decide (S k < 2 * j + 1)%nat);
        destruct (decide (S k < 2 * j + 2)%nat);
        repeat case_decide; try lia; lra.
Qed.

Lemma totalAt_resetTotals s j : totalAt (resetTotals s) j = weightAt s j.
Proof.
  unfold totalAt, weightAt, resetTotals.
  rewrite list_lookup_fmap. by destruct (s !! j).
Qed.

Lemma weightAt_resetTotals s j : weightAt (resetTotals s) j = weightAt s j.
Proof.
  unfold weightAt, resetTotals.
  rewrite list_lookup_fmap. by destruct (s !! j).
Qed.

Lemma weightAt_ge (s : Selector) j : (length s <= j)%nat -> weightAt s j = 0%Q.
Proof. intros H. unfold weightAt. by rewrite lookup_ge_None_2. Qed.

Lemma totalAt_ge (s : Selector) j : (length s <= j)%nat -> totalAt s j = 0%Q.
Proof. intros H. unfold totalAt. by rewrite lookup_ge_None_2. Qed.

(** After [Init] the tree of sums is in place. *)
Lemma Init_treeInv s : treeInv (Init s).
Proof.
  unfold Init. destruct s as [|x s'] eqn:Es.
  - intros j. unfold totalAt, weightAt. simpl. lra.
  - rewrite <- Es. apply accumulate_treeInv.
    + rewrite length_resetTotals. subst. simpl. lia.
    + intros j. rewrite !totalAt_resetTotals, weightAt_resetTotals.
      assert (Hl : length s = S (length s')) by (by subst).
      destruct (decide (length s - 1 < 2 * j + 1)%nat);
        [rewrite (weightAt_ge s (2 * j + 1)) by lia|];
        (destruct (decide (length s - 1 < 2 * j + 2)%nat);
         [rewrite (weightAt_ge s (2 * j + 2)) by lia|]); lra.
Qed.

Lemma totalAt_nonneg (s : Selector) :
  treeInv s -> nonneg s -> forall j, (0 <= totalAt s j)%Q.
Proof.
  intros Ht Hn.
  assert (H : forall n j, (length s - j <= n)%nat -> (0 <= totalAt s j)%Q).
  { induction n as [|n IH]; intros j Hj.
    - rewrite totalAt_ge by lia. lra.
    - destruct (decide (length s <= j)%nat); [rewrite totalAt_ge by lia; lra|].
      rewrite (Ht j).
      pose proof (Hn j). pose proof (IH (2 * j + 1)%nat ltac:(lia)).
      pose proof (IH (2 * j + 2)%nat ltac:(lia)). lra. }
  intros j. by apply (H (length s)); lia.
Qed.

Lemma totalAt_le_root (s : Selector) :
  treeInv s -> nonneg s -> forall j, (totalAt s j <= totalAt s 0)%Q.
Proof.
  intros Ht Hn j. induction j as [j IH] using lt_wf_ind.
  destruct j as [|i]; [lra|].
  pose proof (parent_lt i) as Hp. pose proof (parent_child i) as Hc.
  pose proof (IH (parent (S i)) ltac:(lia)) as Hroot.
  pose proof (Ht (parent (S i))) as Heq.
  pose proof (Hn (parent (S i))).
  pose proof (totalAt_nonneg s Ht Hn (2 * parent (S i) + 1)).
  pose proof (totalAt_nonneg s Ht Hn (2 * parent (S i) + 2)).
  destruct Hc as [E|E]; rewrite <- E in *; lra.
Qed.

Lemma weightAt_le_root (s : Selector) :
  treeInv s -> nonneg s -> forall j, (weightAt s j <= totalAt s 0)%Q.
Proof.
  intros Ht Hn j.
  pose proof (totalAt_le_root s Ht Hn j).
  pose proof (Ht j).
  pose proof (totalAt_nonneg s Ht Hn (2 * j + 1)).
  pose proof (totalAt_nonneg s Ht Hn (2 * j + 2)). lra.
Qed.

Lemma rootTotal_totalAt s : rootTotal s = totalAt s 0.
Proof. done. Qed.

(** When the root total is zero [Select] reports the empty selector. *)
Lemma Select_empty (s : Selector) (u : Q) :
  s <> [] -> (rootTotal s == 0)%Q ->
  Select s u = Done (s, -1, Some SelectorEmpty).
Proof.
  intros Hne Hz. destruct s as [|root rest]; [done|].
  unfold rootTotal in Hz. simpl in Hz.
  apply Qeq_bool_iff in Hz.
  unfold Select, at_, mbind, outcome_bind, obind.
  change ((root :: rest) !! 0%nat) with (Some root).
  cbv beta iota. by rewrite Hz.
Qed.

(** ** The items of an initialised selector *)

Lemma Init_lookup (s : Selector) j x :
  s !! j = Some x ->
  exists x', Init s !! j = Some x' /\ Index x' = Index x /\ Weight x' = Weight x.
Proof.
  intros Hj. pose proof (skeleton_Init s) as Hsk.
  assert (H : skeleton (Init s) !! j = skeleton s !! j) by (by rewrite Hsk).
  unfold skeleton in H. rewrite !list_lookup_fmap, Hj in H. simpl in H.
  destruct (Init s !! j) as [x'|]; [|done].
  injection H as H1 H2. eauto.
Qed.

(** ** More on the selector: the tree of sums *)

Lemma pos0_to_pos i : 0 <= i -> pos0 (Z.to_pos (i + 1)) = Z.to_nat i.
Proof.
  intros Hi. unfold pos0. lia.
Qed.

(** With a tree of sums over weights that are all zero, every total is
    zero. *)
Lemma totalAt_zero (s : Selector) :
  treeInv s -> (forall j, weightAt s j == 0)%Q ->
  forall j, (totalAt s j == 0)%Q.
Proof.
  intros Ht Hz.
  assert (H : forall n j, (length s - j <= n)%nat -> (totalAt s j == 0)%Q).
  { induction n as [|n IH]; intros j Hj.
    - rewrite totalAt_ge by lia. lra.
    - destruct (decide (length s <= j)%nat); [rewrite totalAt_ge by lia; lra|].
      rewrite (Ht j).
      pose proof (Hz j). pose proof (IH (2 * j + 1)%nat ltac:(lia)).
      pose proof (IH (2 * j + 2)%nat ltac:(lia)). lra. }
  intros j. by apply (H (length s)); lia.
Qed.

(** X4: on a non-empty selector that holds the tree of sums and has no
    negative weight, [Select] reports [SelectorEmpty] exactly when every
    weight is zero, that is, when every item has been selected or was
    given no weight. *)
Theorem Select_empty_iff_no_weight_left (s : Selector) (u : Q) :
  s <> [] -> treeInv s -> nonneg s ->
  ((forall j, weightAt s j == 0)%Q <->
   Select s u = Done (s, -1, Some SelectorEmpty)).
Proof.
  intros Hne Ht Hn. split.
  - intros Hz. apply Select_empty; [done|].
    rewrite rootTotal_totalAt. by apply totalAt_zero.
  - intros HS j.
    assert (Hr : (totalAt s 0 == 0)%Q).
    { destruct s as [|root rest] eqn:Es; [done|]. rewrite <- Es in *.
      assert (Hroot : s !! 0%nat = Some root) by (by subst).
      destruct (Qeq_bool (total root) 0) eqn:Hz.
      - apply Qeq_bool_iff in Hz. unfold totalAt. by rewrite Hroot.
      - rewrite (Select_unfold_ok s u root Hroot Hz) in HS.
        destruct (descend _ _ _ _) as [k| |]; [|done..].
        destruct (s !! pos0 k); done. }
    pose proof (weightAt_le_root s Ht Hn j). pose proof (Hn j). lra.
Qed.

Lemma Select_empty_iff_no_weight_left_witness :
  ([mkItem 7 0 0; mkItem 8 0 0] <> [] /\
   treeInv [mkItem 7 0 0; mkItem 8 0 0] /\
   nonneg [mkItem 7 0 0; mkItem 8 0 0]) /\
  ((forall j, weightAt [mkItem 7 0 0; mkItem 8 0 0] j == 0)%Q <->
   Select [mkItem 7 0 0; mkItem 8 0 0] (1 # 2)
     = Done ([mkItem 7 0 0; mkItem 8 0 0], -1, Some SelectorEmpty)).
Proof.
  assert (Hne : [mkItem 7 0 0; mkItem 8 0 0] <> []) by discriminate.
  assert (Ht : treeInv [mkItem 7 0 0; mkItem 8 0 0]).
  { intros j. do 2 (destruct j as [|j]; [vm_compute; reflexivity|]).
    unfold totalAt, weightAt.
    rewrite !lookup_ge_None_2 by (simpl; lia). reflexivity. }
  assert (Hn : nonneg [mkItem 7 0 0; mkItem 8 0 0]).
  { intros j. do 2 (destruct j as [|j]; [vm_compute; discriminate|]).
    vm_compute; discriminate. }
  split; [done|].
  exact (Select_empty_iff_no_weight_left _ (1 # 2) Hne Ht Hn).
Defined.

(** ** The visited list of the searchers *)

Lemma Visited_lookup (j : Z) (v : list bool) :
  0 <= j -> Visited j v = default false (v !! Z.to_nat j).
Proof.
  intros Hj. unfold Visited.
  rewrite (proj2 (Z.ltb_ge j 0)) by done. simpl.
  destruct (Z.leb_spec (Z.of_nat (length v)) j) as [Hge|Hlt]; [|done].
  rewrite lookup_ge_None_2 by lia. done.
Qed.

Lemma Visited_negative (j : Z) (v : list bool) : j < 0 -> Visited j v = false.
Proof.
  intros Hj. unfold Visited. by rewrite (proj2 (Z.ltb_lt j 0)) by done.
Qed.

(** [mark] on a node with a non-negative id below the largest [int]: the
    list is extended with [false] up to the id where needed and the entry
    of the id is set. *)
Lemma mark_Done (id : Z) (v : list bool) :
  0 <= id < maxInt ->
  mark id v =
  Done (<[Z.to_nat id := true]>
          (v ++ replicate (Z.to_nat (id + 1) - length v) false)).
Proof.
  intros Hid. unfold mark.
  destruct (Z.eqb_spec id (Z.of_nat (length v))) as [E|Hne].
  - replace (Z.to_nat (id + 1) - length v)%nat with 1%nat by lia.
    replace (Z.to_nat id) with (length v + 0)%nat by lia.
    rewrite insert_app_r. done.
  - destruct (Z.ltb_spec (Z.of_nat (length v)) id) as [Hgt|Hle].
    + rewrite wrap_small by (unfold minInt, maxInt in *; lia).
      unfold make. rewrite (proj2 (Z.ltb_ge (id + 1) 0)) by lia.
      unfold mbind, outcome_bind, obind. rewrite drop_replicate. done.
    + unfold atZ, at_. rewrite (proj2 (Z.ltb_ge id 0)) by lia.
      destruct (lookup_lt_is_Some_2 v (Z.to_nat id) ltac:(lia)) as [b ->].
      unfold mbind, outcome_bind, obind.
      replace (Z.to_nat (id + 1) - length v)%nat with 0%nat by lia.
      simpl. by rewrite app_nil_r.
Qed.

(** The largest [int] as an id beyond the list: [id+1] wraps around to the
    smallest [int] and [make] panics. *)
Lemma mark_maxInt (v : list bool) :
  Z.of_nat (length v) < maxInt -> mark maxInt v = Panicked.
Proof.
  intros Hlen. unfold mark.
  rewrite (proj2 (Z.eqb_neq maxInt (Z.of_nat (length v)))) by lia.
  rewrite (proj2 (Z.ltb_lt (Z.of_nat (length v)) maxInt)) by lia.
  done.
Qed.

(** X8: on a list shorter than the largest [int], [mark] panics on a node
    with a negative id and on the id [MaxInt64], whose successor wraps
    around, and returns for every other id.  The list it returns has the
    node visited, reports every other node as the list before did, and is
    the old list extended just far enough to hold the id. *)
Theorem mark_then_Visited (id : Z) (v : list bool) :
  minInt <= id <= maxInt -> Z.of_nat (length v) < maxInt ->
  match mark id v with
  | Done v' =>
      0 <= id < maxInt /\
      Visited id v' = true /\
      (forall j, j <> id -> Visited j v' = Visited j v) /\
      Z.of_nat (length v') = Z.max (Z.of_nat (length v)) (id + 1)
  | Panicked => id < 0 \/ id = maxInt
  | Timeout => False
  end.
Proof.
  intros Hrange Hlen.
  destruct (decide (id < 0)) as [Hneg|Hid].
  { unfold mark.
    rewrite (proj2 (Z.eqb_neq id (Z.of_nat (length v)))) by lia.
    rewrite (proj2 (Z.ltb_ge (Z.of_nat (length v)) id)) by lia.
    unfold atZ. rewrite (proj2 (Z.ltb_lt id 0)) by done. by left. }
  destruct (decide (id = maxInt)) as [->|Hmax].
  { rewrite mark_maxInt by done. by right. }
  rewrite mark_Done by lia.
  set (t := v ++ replicate (Z.to_nat (id + 1) - length v) false).
  assert (Hlt : length t = Nat.max (length v) (Z.to_nat (id + 1))).
  { unfold t. rewrite length_app, length_replicate. lia. }
  split_and!.
  - lia.
  - lia.
  - rewrite Visited_lookup by lia.
    rewrite list_lookup_insert_eq by lia. done.
  - intros j Hj. destruct (decide (j < 0)) as [Hn|Hn].
    { by rewrite !Visited_negative. }
    rewrite !Visited_lookup by lia.
    rewrite list_lookup_insert_ne by lia. unfold t.
    destruct (decide (Z.to_nat j < length v)%nat) as [Hl|Hge].
    + by rewrite lookup_app_l.
    + rewrite lookup_app_r by lia.
      rewrite (lookup_ge_None_2 v) by lia.
      destruct (replicate _ _ !! _) as [b|] eqn:E; [|done].
      apply lookup_replicate in E as [-> _]. done.
  - rewrite length_insert, Hlt. lia.
Qed.

Lemma mark_then_Visited_witness :
  (minInt <= 3 <= maxInt /\ Z.of_nat (length [true; false]) < maxInt) /\
  mark 3 [true; false] = Done [true; false; false; true] /\
  match mark 3 [true; false] with
  | Done v' =>
      0 <= 3 < maxInt /\
      Visited 3 v' = true /\
      (forall j, j <> 3 -> Visited j v' = Visited j [true; false]) /\
      Z.of_nat (length v') = Z.max (Z.of_nat (length [true; false])) (3 + 1)
  | Panicked => 3 < 0 \/ 3 = maxInt
  | Timeout => False
  end.
Proof.
  assert (H1 : minInt <= 3 <= maxInt) by (unfold minInt, maxInt; lia).
  assert (H2 : Z.of_nat (length [true; false]) < maxInt)
    by (unfold maxInt; simpl; lia).
  split; [done|]. split; [vm_compute; reflexivity|].
  exact (mark_then_Visited 3 [true; false] H1 H2).
Defined.

(** X9: after [Reset] no node is visited, and the first [mark] on the
    reset list, for an id that is not negative and below the largest
    [int], makes exactly the marked node visited, whatever the list held
    before the reset. *)
Theorem mark_after_Reset (id : Z) (v : list bool) :
  0 <= id < maxInt ->
  (forall j, Visited j (resetVisits v) = false) /\
  exists v', mark id (resetVisits v) = Done v' /\
    forall j, Visited j v' = bool_decide (j = id).
Proof.
  intros Hid. split.
  - intros j. unfold Visited, resetVisits. rewrite take_0.
    by destruct (j <? 0), (Z.of_nat (length []) <=? j).
  - rewrite mark_Done by done. eexists. split; [done|].
    intros j. unfold resetVisits. simpl take. simpl app. simpl length.
    destruct (decide (j < 0)) as [Hn|Hn].
    { rewrite Visited_negative by done. rewrite bool_decide_eq_false_2; [done|lia]. }
    rewrite Visited_lookup by lia.
    destruct (decide (j = id)) as [->|Hne].
    + rewrite list_lookup_insert_eq by (rewrite length_replicate; lia).
      by rewrite bool_decide_eq_true_2.
    + rewrite list_lookup_insert_ne by lia.
      rewrite bool_decide_eq_false_2 by done.
      destruct (replicate _ _ !! _) as [b|] eqn:E; [|done].
      apply lookup_replicate in E as [-> _]. done.
Qed.

Lemma mark_after_Reset_witness :
  0 <= 2 < maxInt /\
  (forall j, Visited j (resetVisits [true; true; false; true]) = false) /\
  exists v', mark 2 (resetVisits [true; true; false; true]) = Done v' /\
    forall j, Visited j v' = bool_decide (j = 2).
Proof.
  assert (H : 0 <= 2 < maxInt) by (unfold maxInt; lia).
  split; [exact H|].
  apply (mark_after_Reset 2 [true; true; false; true]). exact H.
Defined.

(** ** Incidence lists: delFromNode, add and drop *)

Lemma atZ_Done {A} (l : list A) (i : Z) x :
  0 <= i -> l !! Z.to_nat i = Some x -> atZ l i = Done x.
Proof.
  intros Hi Hx. unfold atZ, at_.
  rewrite (proj2 (Z.ltb_ge i 0)) by done. by rewrite Hx.
Qed.

Lemma atZ_Panicked {A} (l : list A) (i : Z) :
  i < 0 \/ Z.of_nat (length l) <= i -> atZ l i = Panicked.
Proof.
  intros Hi. unfold atZ, at_.
  destruct (Z.ltb_spec i 0) as [|Hge]; [done|].
  rewrite lookup_ge_None_2 by lia. done.
Qed.

Lemma atZ_cases {A} (l : list A) (i : Z) :
  (exists x, 0 <= i < Z.of_nat (length l) /\ l !! Z.to_nat i = Some x /\
             atZ l i = Done x) \/
  ((i < 0 \/ Z.of_nat (length l) <= i) /\ atZ l i = Panicked).
Proof.
  destruct (decide (0 <= i < Z.of_nat (length l))) as [Hin|Hout].
  - destruct (lookup_lt_is_Some_2 l (Z.to_nat i) ltac:(lia)) as [x Hx].
    left. exists x. split_and!; [lia|lia|done|]. apply atZ_Done; [lia|done].
  - right. split; [lia|]. apply atZ_Panicked. lia.
Qed.

Lemma swapLast_Done {A} (e : list A) (i : Z) x last :
  0 <= i -> e !! Z.to_nat i = Some x ->
  e !! (length e - 1)%nat = Some last ->
  swapLast e i =
  Done (<[(length e - 1)%nat := x]> (<[Z.to_nat i := last]> e)).
Proof.
  intros Hi Hx Hl. unfold swapLast.
  assert (Hlen : (0 < length e)%nat) by (apply lookup_lt_Some in Hx; lia).
  replace (Z.to_nat (Z.of_nat (length e) - 1)) with (length e - 1)%nat by lia.
  rewrite (atZ_Done e (Z.of_nat (length e) - 1) last); [|lia|].
  2:{ by replace (Z.to_nat (Z.of_nat (length e) - 1))
        with (length e - 1)%nat by lia. }
  rewrite (atZ_Done e i x) by done. done.
Qed.

Lemma swapLast_Panicked {A} (e : list A) (i : Z) :
  i < 0 \/ Z.of_nat (length e) <= i -> swapLast e i = Panicked.
Proof.
  intros Hi. unfold swapLast.
  destruct (atZ_cases e (Z.of_nat (length e) - 1))
    as [(x & _ & _ & ->)|[_ ->]]; [|done].
  unfold mbind, outcome_bind, obind. by rewrite atZ_Panicked.
Qed.

Lemma last_lookup_Some {A} (e : list A) (j : nat) :
  (j < length e)%nat -> is_Some (e !! (length e - 1)%nat).
Proof. intros Hj. apply lookup_lt_is_Some_2. lia. Qed.

Lemma delFromNode_Done {A} (e : list A) (i : Z) x last :
  0 <= i -> e !! Z.to_nat i = Some x ->
  e !! (length e - 1)%nat = Some last ->
  delFromNode e i =
  Done (take (length e - 1) (<[Z.to_nat i := last]> e)).
Proof.
  intros Hi Hx Hl. unfold delFromNode.
  rewrite (swapLast_Done e i x last) by done.
  unfold mbind, outcome_bind, obind.
  rewrite !length_insert. by rewrite take_insert_ge by lia.
Qed.

Lemma insert_Permutation_swap {A} (l : list A) i x y :
  l !! i = Some x -> x :: <[i := y]> l ≡ₚ y :: l.
Proof.
  revert i. induction l as [|a l IH]; intros i Hi; [done|].
  destruct i as [|i]; simpl in *.
  - injection Hi as ->. apply perm_swap.
  - rewrite (perm_swap a x), (IH i Hi). apply perm_swap.
Qed.

Lemma take_init_snoc {A} (e : list A) last :
  e !! (length e - 1)%nat = Some last ->
  e = take (length e - 1) e ++ [last].
Proof.
  intros Hl.
  assert (Hlen : (0 < length e)%nat) by (apply lookup_lt_Some in Hl; lia).
  rewrite <- (take_drop (length e - 1) e) at 1. f_equal.
  apply list_eq. intros [|j].
  - rewrite lookup_drop. simpl. rewrite Nat.add_0_r. done.
  - rewrite lookup_drop. simpl. apply lookup_ge_None_2. lia.
Qed.

(** Deleting position [i] the way [delFromNode] does removes one copy of
    the entry at [i]. *)
Lemma delFromNode_Permutation {A} (e : list A) (i : nat) x last :
  e !! i = Some x -> e !! (length e - 1)%nat = Some last ->
  x :: take (length e - 1) (<[i := last]> e) ≡ₚ e.
Proof.
  intros Hx Hl.
  pose proof (lookup_lt_Some _ _ _ Hx) as Hlt.
  destruct (decide (i = length e - 1)%nat) as [->|Hne].
  - rewrite list_insert_id by done.
    assert (x = last) as -> by congruence.
    rewrite (take_init_snoc e last Hl) at 3.
    by rewrite Permutation_app_comm.
  - rewrite take_insert_lt by lia.
    rewrite insert_Permutation_swap.
    2:{ rewrite lookup_take_lt by lia. done. }
    rewrite (take_init_snoc e last Hl) at 3.
    by rewrite (Permutation_app_comm _ [last]).
Qed.

(** X10: [delFromNode(i)] panics when [i] is not a position of the slice,
    in particular on the empty slice.  Otherwise it returns the slice with
    the last entry moved to position [i] and the last position cut off:
    one copy of the entry at [i] is gone, every other entry is kept, and
    the order of the remaining entries changes unless [i] was the last
    position. *)
Theorem delFromNode_removes_entry {A} (e : list A) (i : Z) :
  match delFromNode e i with
  | Done e' =>
      0 <= i < Z.of_nat (length e) /\
      exists x last,
        e !! Z.to_nat i = Some x /\
        e !! (length e - 1)%nat = Some last /\
        e' = take (length e - 1) (<[Z.to_nat i := last]> e) /\
        S (length e') = length e /\
        x :: e' ≡ₚ e
  | Panicked => i < 0 \/ Z.of_nat (length e) <= i
  | Timeout => False
  end.
Proof.
  destruct (atZ_cases e i) as [(x & Hi & Hx & _)|[Hout _]].
  - destruct (last_lookup_Some e (Z.to_nat i) ltac:(lia)) as [last Hl].
    rewrite (delFromNode_Done e i x last) by (lia || done).
    split; [done|]. exists x, last. split_and!; try done.
    + rewrite length_take, length_insert. lia.
    + by apply delFromNode_Permutation.
  - unfold delFromNode. by rewrite swapLast_Panicked.
Qed.

(** The loop of [drop] from index [i], when no entry before [i] is [r]. *)
Lemma dropLoop_spec (r : nat) (es : list nat) fuel i :
  (length es <= i + fuel)%nat ->
  (forall j, (j < i)%nat -> es !! j <> Some r) ->
  ((r ∉ es) /\ dropLoop fuel r i es = Done es) \/
  (exists k last,
     es !! k = Some r /\ (forall j, (j < k)%nat -> es !! j <> Some r) /\
     es !! (length es - 1)%nat = Some last /\
     dropLoop fuel r i es = Done (take (length es - 1) (<[k := last]> es))).
Proof.
  revert i. induction fuel as [|f IH]; intros i Hf Hbefore.
  - left. assert (Hnone : es !! i = None) by (apply lookup_ge_None_2; lia).
    simpl. rewrite Hnone. split; [|done].
    intros (j & Hj)%list_elem_of_lookup.
    apply (Hbefore j); [|done]. apply lookup_lt_Some in Hj. lia.
  - cbn [dropLoop]. destruct (es !! i) as [x|] eqn:Ei.
    + destruct (decide (x = r)) as [->|Hne].
      * right.
        destruct (last_lookup_Some es i) as [last Hl];
          [by eapply lookup_lt_Some|].
        exists i, last. split_and!; try done.
        rewrite (delFromNode_Done es (Z.of_nat i) r last);
          rewrite ?Nat2Z.id; (done || lia).
      * apply IH; [lia|]. intros j Hj.
        destruct (decide (j = i)) as [->|]; [congruence|].
        apply Hbefore. lia.
    + left. split; [|done].
      intros (j & Hj)%list_elem_of_lookup.
      apply (Hbefore j); [|done].
      apply lookup_lt_Some in Hj. apply lookup_ge_None_1 in Ei. lia.
Qed.

(** X11: [n.drop(e)] always returns.  A node that does not list [e] is
    left as it is; otherwise the first entry that is [e] is removed and
    nothing else, so that the incidence list before the call is, up to
    order, [e] and the list after it.  An edge listed once is no longer
    listed, an edge listed twice still is. *)
Theorem node_drop_removes_one (r : nat) (n : node) :
  exists n',
    node_drop r n = Done n' /\
    nodeID n' = nodeID n /\
    (r ∉ nodeEdges n -> n' = n) /\
    (r ∈ nodeEdges n -> nodeEdges n ≡ₚ r :: nodeEdges n') /\
    (NoDup (nodeEdges n) -> r ∉ nodeEdges n').
Proof.
  unfold node_drop.
  destruct (dropLoop_spec r (nodeEdges n) (length (nodeEdges n)) 0
              ltac:(lia) ltac:(lia))
    as [[Hnot ->]|(k & last & Hk & _ & Hl & ->)].
  - exists n. unfold mbind, outcome_bind, obind. destruct n; simpl in *.
    split_and!; done.
  - eexists. split; [done|]. simpl.
    pose proof (delFromNode_Permutation _ _ _ _ Hk Hl) as HP.
    split_and!; [done| | |].
    + intros Hnot. exfalso. apply Hnot. by eapply list_elem_of_lookup_2.
    + intros _. by symmetry.
    + intros Hnd. rewrite <- HP in Hnd. by apply NoDup_cons in Hnd as [? _].
Qed.

Lemma node_drop_after_add (r : nat) (n : node) :
  r ∉ nodeEdges n -> node_drop r (node_add r n) = Done n.
Proof.
  intros Hnot. unfold node_drop, node_add. simpl.
  set (es := nodeEdges n ++ [r]).
  assert (Hlen : length es = S (length (nodeEdges n)))
    by (unfold es; rewrite length_app; simpl; lia).
  destruct (dropLoop_spec r es (length es) 0 ltac:(lia) ltac:(lia))
    as [[Hno _]|(k & last & Hk & Hfirst & Hl & ->)].
  - exfalso. apply Hno. unfold es. apply elem_of_app. right.
    by apply list_elem_of_singleton.
  - assert (k = length (nodeEdges n)) as ->.
    { destruct (decide (k < length (nodeEdges n))%nat) as [Hlt|Hge].
      - exfalso. apply Hnot. unfold es in Hk.
        rewrite lookup_app_l in Hk by done. by eapply list_elem_of_lookup_2.
      - apply lookup_lt_Some in Hk. lia. }
    unfold mbind, outcome_bind, obind. rewrite Hlen.
    replace (S (length (nodeEdges n)) - 1)%nat
      with (length (nodeEdges n)) by lia.
    rewrite take_insert_ge by lia. unfold es.
    rewrite take_app_length. by destruct n.
Qed.

Lemma node_drop_Done (r : nat) (n : node) :
  exists n', node_drop r n = Done n' /\ nodeID n' = nodeID n.
Proof.
  unfold node_drop.
  destruct (dropLoop_spec r (nodeEdges n) (length (nodeEdges n)) 0
              ltac:(lia) ltac:(lia))
    as [[_ ->]|(k & last & _ & _ & _ & ->)]; eexists; split; done.
Qed.

(** X12: dropping an edge right after adding it gives the node back as it
    was, order of the incidence list included, provided the node did not
    list the edge before. *)
Theorem node_add_then_drop (r : nat) (n : node) :
  r ∉ nodeEdges n -> node_drop r (node_add r n) = Done n.
Proof. apply node_drop_after_add. Qed.

Lemma node_add_then_drop_witness :
  (2%nat ∉ nodeEdges (mkNode 4 [0; 1]%nat)) /\
  node_drop 2 (node_add 2 (mkNode 4 [0; 1]%nat)) = Done (mkNode 4 [0; 1]%nat).
Proof.
  assert (H : 2%nat ∉ nodeEdges (mkNode 4 [0; 1]%nat)).
  { simpl. intros H. by repeat (apply elem_of_cons in H as [H|H]; [lia|]);
      inversion H. }
  split; [exact H|]. exact (node_add_then_drop 2 (mkNode 4 [0; 1]%nat) H).
Defined.

(** ** Degrees *)

Lemma sumOver_Permutation {A} (f : A -> Z) l k :
  l ≡ₚ k -> sumOver f l = sumOver f k.
Proof. induction 1; simpl; lia. Qed.

Lemma sumOver_ext_in {A} (f g : A -> Z) l :
  (forall x, x ∈ l -> f x = g x) -> sumOver f l = sumOver g l.
Proof.
  induction l as [|x l IH]; intros H; simpl; [done|].
  rewrite H by (apply elem_of_cons; by left).
  rewrite IH; [done|]. intros y Hy. apply H, elem_of_cons. by right.
Qed.

Lemma sumOver_plus {A} (f g : A -> Z) l :
  sumOver (fun x => f x + g x) l = sumOver f l + sumOver g l.
Proof. induction l as [|x l IH]; simpl; lia. Qed.

Lemma sumOver_const {A} (c : Z) (l : list A) :
  sumOver (fun _ => c) l = c * Z.of_nat (length l).
Proof. induction l as [|x l IH]; simpl length; simpl sumOver; lia. Qed.

Lemma sumOver_filter {A} (f : A -> Z) (P : A -> bool) l :
  sumOver f (List.filter P l) = sumOver (fun x => if P x then f x else 0) l.
Proof.
  induction l as [|x l IH]; simpl; [done|].
  destruct (P x); simpl; lia.
Qed.

Lemma sumOver_exchange {A B} (f : A -> B -> Z) l k :
  sumOver (fun x => sumOver (f x) k) l =
  sumOver (fun y => sumOver (fun x => f x y) l) k.
Proof.
  induction l as [|x l IH]; simpl.
  - by rewrite sumOver_const.
  - by rewrite IH, sumOver_plus.
Qed.

Lemma sumOver_fmap {A B} (g : A -> B) (f : B -> Z) l :
  sumOver f (g <$> l) = sumOver (fun x => f (g x)) l.
Proof. induction l as [|x l IH]; simpl; [done|]. by rewrite <- IH. Qed.

Lemma sumOver_lookup_seq {A} (F : option A -> Z) (l : list A) :
  sumOver (fun r => F (l !! r)) (seq 0 (length l)) =
  sumOver (fun e => F (Some e)) l.
Proof.
  induction l as [|x l IH]; [done|].
  simpl length. rewrite <- cons_seq, <- fmap_S_seq. simpl.
  rewrite sumOver_fmap. simpl. by rewrite IH.
Qed.

(** One id among distinct ids is met once. *)
Lemma sumOver_unique (ns : list node) (o : option Z) a :
  o = Some a -> NoDup (nodeID <$> ns) -> a ∈ nodeID <$> ns ->
  sumOver (fun n => if decide (o = Some (nodeID n)) then 1 else 0) ns = 1.
Proof.
  intros ->. induction ns as [|n ns IH]; intros Hnd Hin.
  - inversion Hin.
  - rewrite fmap_cons in Hnd, Hin. apply NoDup_cons in Hnd as [Hn Hnd].
    simpl. destruct (decide (Some a = Some (nodeID n))) as [[= ->]|Hne].
    + rewrite (sumOver_ext_in _ (fun _ => 0)).
      * rewrite sumOver_const. lia.
      * intros m Hm. rewrite decide_False; [done|].
        intros [= E]. apply Hn. rewrite E.
        apply list_elem_of_fmap. eauto.
    + apply elem_of_cons in Hin as [->|Hin]; [done|].
      rewrite IH by done. lia.
Qed.

Lemma degreeLoop_Done (heap : list edge) rs l :
  (forall r, r ∈ rs -> is_Some (heap !! r)) ->
  degreeLoop heap rs l = Done (l + sumOver (loopAt heap) rs).
Proof.
  revert l. induction rs as [|r rs IH]; intros l Hv; simpl.
  - f_equal. lia.
  - destruct (Hv r) as [e He]; [apply elem_of_cons; by left|].
    unfold at_. rewrite He. unfold mbind, outcome_bind, obind.
    rewrite IH by (intros r' Hr'; apply Hv, elem_of_cons; by right).
    unfold loopAt at 2. rewrite He. unfold sameEnds.
    destruct (decide (ev e = eu e)).
    + rewrite bool_decide_eq_true_2 by done. f_equal; lia.
    + rewrite bool_decide_eq_false_2 by done. f_equal; lia.
Qed.

(** The degree of a node whose entries are all edges of the store: one
    for each entry and one more for each entry that is a loop. *)
Lemma Degree_Done (heap : list edge) (n : node) :
  (forall r, r ∈ nodeEdges n -> is_Some (heap !! r)) ->
  Degree heap n = Done (sumOver (fun r => 1 + loopAt heap r) (nodeEdges n)).
Proof.
  intros Hv. unfold Degree. rewrite degreeLoop_Done by done.
  unfold mbind, outcome_bind, obind. f_equal.
  rewrite sumOver_plus, sumOver_const. lia.
Qed.

Lemma listsItsEdges_Permutation (heap : list edge) (n : node) :
  listsItsEdges heap n ->
  nodeEdges n ≡ₚ
  List.filter (fun r => match heap !! r with
                        | Some e => endOf (nodeID n) e
                        | None => false
                        end) (seq 0 (length heap)).
Proof.
  intros [Hnd Hiff]. apply NoDup_Permutation; [done| |].
  - apply NoDup_ListNoDup, List.NoDup_filter, NoDup_ListNoDup, NoDup_seq.
  - intros r. rewrite Hiff, list_elem_of_In, List.filter_In.
    rewrite <- list_elem_of_In, elem_of_seq. split.
    + intros (e & He & Hend). rewrite He. split; [|done].
      apply lookup_lt_Some in He. lia.
    + intros [_ H]. destruct (heap !! r) as [e|]; [eauto|done].
Qed.

Lemma Degree_endsAt (heap : list edge) (n : node) :
  listsItsEdges heap n ->
  Degree heap n = Done (sumOver (endsAt (nodeID n)) heap).
Proof.
  intros Hl. rewrite Degree_Done.
  2:{ intros r Hr. apply Hl in Hr as (e & -> & _). eauto. }
  f_equal.
  rewrite (sumOver_Permutation _ _ _ (listsItsEdges_Permutation heap n Hl)).
  rewrite sumOver_filter.
  rewrite <- (sumOver_lookup_seq
    (fun o => match o with Some e => endsAt (nodeID n) e | None => 0 end)).
  apply sumOver_ext_in. intros r _. unfold loopAt.
  destruct (heap !! r) as [e|]; [|done].
  unfold endOf, endsAt, sameEnds.
  destruct (decide (eu e = Some (nodeID n))) as [Eu|Eu];
    destruct (decide (ev e = Some (nodeID n))) as [Ev|Ev];
    rewrite ?(bool_decide_eq_true_2 _ Eu), ?(bool_decide_eq_false_2 _ Eu),
            ?(bool_decide_eq_true_2 _ Ev), ?(bool_decide_eq_false_2 _ Ev);
    simpl; [| | |done];
    [rewrite bool_decide_eq_true_2 by congruence
    |rewrite bool_decide_eq_false_2 by congruence
    |rewrite bool_decide_eq_false_2 by congruence]; lia.
Qed.

Lemma sumDegrees_Done (heap : list edge) (ns : list node) :
  (forall n, n ∈ ns -> listsItsEdges heap n) ->
  sumDegrees heap ns =
  Done (sumOver (fun n => sumOver (endsAt (nodeID n)) heap) ns).
Proof.
  induction ns as [|n ns IH]; intros H; simpl; [done|].
  rewrite Degree_endsAt by (apply H, elem_of_cons; by left).
  rewrite IH by (intros m Hm; apply H, elem_of_cons; by right). done.
Qed.

(** X13: [Degree] counts one for every entry of the incidence list and one
    more for every entry that is a loop; it panics only on an entry that
    is no edge.  So the degree lies between the number of entries and
    twice that number, and equals the number of entries when the node has
    no loop. *)
Theorem Degree_counts_loops_twice (heap : list edge) (n : node) :
  (forall r, r ∈ nodeEdges n -> is_Some (heap !! r)) ->
  exists d,
    Degree heap n = Done d /\
    d = Z.of_nat (length (nodeEdges n)) + sumOver (loopAt heap) (nodeEdges n) /\
    Z.of_nat (length (nodeEdges n)) <= d <= 2 * Z.of_nat (length (nodeEdges n)) /\
    ((forall r e, r ∈ nodeEdges n -> heap !! r = Some e -> ev e <> eu e) ->
     d = Z.of_nat (length (nodeEdges n))).
Proof.
  intros Hv. eexists. split; [by apply Degree_Done|].
  rewrite sumOver_plus, sumOver_const.
  assert (Hb : forall rs, 0 <= sumOver (loopAt heap) rs <= Z.of_nat (length rs)).
  { induction rs as [|r rs IH]; simpl length; simpl sumOver; [lia|].
    unfold loopAt at 1 3. destruct (heap !! r) as [e|]; [|lia].
    destruct (sameEnds e); lia. }
  pose proof (Hb (nodeEdges n)).
  split_and!; [lia|lia|lia|].
  intros Hno. rewrite (sumOver_ext_in _ (fun _ => 0)).
  - rewrite sumOver_const. lia.
  - intros r Hr. unfold loopAt. destruct (heap !! r) as [e|] eqn:E; [|done].
    unfold sameEnds. rewrite bool_decide_eq_false_2; [done|]. by eapply Hno.
Qed.

Lemma Degree_counts_loops_twice_witness :
  (forall r, r ∈ nodeEdges (mkNode 0 [0; 1]%nat) ->
     is_Some ([mkEdge 0 (Some 0) (Some 0) 1 0; mkEdge 1 (Some 0) (Some 1) 1 0]
                !! r)) /\
  exists d,
    Degree [mkEdge 0 (Some 0) (Some 0) 1 0; mkEdge 1 (Some 0) (Some 1) 1 0]
      (mkNode 0 [0; 1]%nat) = Done d /\
    d = Z.of_nat (length (nodeEdges (mkNode 0 [0; 1]%nat)))
        + sumOver
            (loopAt [mkEdge 0 (Some 0) (Some 0) 1 0;
                     mkEdge 1 (Some 0) (Some 1) 1 0])
            (nodeEdges (mkNode 0 [0; 1]%nat)) /\
    Z.of_nat (length (nodeEdges (mkNode 0 [0; 1]%nat))) <= d
      <= 2 * Z.of_nat (length (nodeEdges (mkNode 0 [0; 1]%nat))) /\
    ((forall r e, r ∈ nodeEdges (mkNode 0 [0; 1]%nat) ->
        [mkEdge 0 (Some 0) (Some 0) 1 0; mkEdge 1 (Some 0) (Some 1) 1 0] !! r
          = Some e -> ev e <> eu e) ->
     d = Z.of_nat (length (nodeEdges (mkNode 0 [0; 1]%nat)))).
Proof.
  assert (H : forall r, r ∈ nodeEdges (mkNode 0 [0; 1]%nat) ->
     is_Some ([mkEdge 0 (Some 0) (Some 0) 1 0; mkEdge 1 (Some 0) (Some 1) 1 0]
                !! r)).
  { intros r Hr. simpl in Hr.
    apply elem_of_cons in Hr as [->|Hr]; [by eexists|].
    apply elem_of_cons in Hr as [->|Hr]; [by eexists|]. inversion Hr. }
  split; [exact H|].
  exact (Degree_counts_loops_twice _ (mkNode 0 [0; 1]%nat) H).
Defined.

(** X14: the degrees add up to twice the number of edges.  When the ids
    of the nodes are distinct, every node lists once each the edges it is
    an end of, and both ends of every edge are among the nodes, every
    [Degree] returns and their sum is two for each edge, a loop counting
    two at its one node. *)
Theorem sumDegrees_twice_the_edges (heap : list edge) (ns : list node) :
  incidenceOK ns heap ->
  sumDegrees heap ns = Done (2 * Z.of_nat (length heap)).
Proof.
  intros (Hnd & Hl & Hends).
  rewrite sumDegrees_Done by done. f_equal.
  rewrite sumOver_exchange.
  rewrite (sumOver_ext_in _ (fun _ => 2)); [by rewrite sumOver_const|].
  intros e He. destruct (Hends e He) as (a & b & Ha & Hb & Hain & Hbin).
  unfold endsAt. rewrite sumOver_plus.
  rewrite (sumOver_unique ns (eu e) a Ha Hnd Hain).
  rewrite (sumOver_unique ns (ev e) b Hb Hnd Hbin). done.
Qed.

Lemma loopAndEdge_incidenceOK : incidenceOK loopAndEdgeNodes loopAndEdge.
Proof.
  split_and!.
  - compute_done.
  - intros n Hn. unfold loopAndEdgeNodes in Hn.
    apply elem_of_cons in Hn as [->|Hn];
      [|apply elem_of_cons in Hn as [->|Hn]; [|inversion Hn]].
    + split; [compute_done|].
      intros r. simpl. split.
      * intros Hr. apply elem_of_cons in Hr as [->|Hr]; [by eexists|].
        apply elem_of_cons in Hr as [->|Hr]; [by eexists|]. inversion Hr.
      * intros (e & He & _). destruct r as [|[|r]].
        -- apply elem_of_cons; by left.
        -- apply elem_of_cons; right. apply elem_of_cons; by left.
        -- discriminate He.
    + split; [compute_done|].
      intros r. simpl. split.
      * intros Hr. apply elem_of_cons in Hr as [->|Hr]; [by eexists|].
        inversion Hr.
      * intros (e & He & Hend). destruct r as [|[|r]].
        -- injection He as <-. discriminate Hend.
        -- apply elem_of_cons; by left.
        -- discriminate He.
  - intros e He. unfold loopAndEdge in He.
    apply elem_of_cons in He as [->|He];
      [|apply elem_of_cons in He as [->|He]; [|inversion He]].
    + exists 0, 0. split_and!; try done;
        compute_done.
    + exists 0, 1. split_and!; try done;
        compute_done.
Qed.

Lemma sumDegrees_twice_the_edges_witness :
  incidenceOK loopAndEdgeNodes loopAndEdge /\
  sumDegrees loopAndEdge loopAndEdgeNodes
    = Done (2 * Z.of_nat (length loopAndEdge)).
Proof.
  split; [exact loopAndEdge_incidenceOK|].
  exact (sumDegrees_twice_the_edges _ _ loopAndEdge_incidenceOK).
Defined.

(** ** Neighbours and hops *)

(** The hops a list of entries gives: every entry the filter accepts,
    with the end the walk arrives at. *)
Lemma hopsLoop_Done heap id ef rs h :
  (forall r, r ∈ rs -> is_Some (heap !! r)) ->
  exists hs,
    hopsLoop heap id ef rs h = Done (h ++ hs) /\
    neighborsLoop heap id ef rs (hopNode <$> h) = Done (hopNode <$> h ++ hs) /\
    hopEdge <$> hs =
      List.filter (fun r => match heap !! r with
                            | Some e => ef e
                            | None => false
                            end) rs /\
    (forall x, x ∈ hs ->
       exists e, heap !! hopEdge x = Some e /\ ef e = true /\
                 hopNode x = otherEnd id e).
Proof.
  revert h. induction rs as [|r rs IH]; intros h Hv.
  - exists []. rewrite app_nil_r. split_and!; try done.
    intros x Hx. inversion Hx.
  - destruct (Hv r) as [e He]; [apply elem_of_cons; by left|].
    assert (Hv' : forall r', r' ∈ rs -> is_Some (heap !! r'))
      by (intros r' Hr'; apply Hv, elem_of_cons; by right).
    cbn [hopsLoop neighborsLoop List.filter]. unfold at_. rewrite He.
    unfold mbind, outcome_bind, obind.
    destruct (ef e) eqn:Ef.
    + destruct (decide (eu e = Some id)) as [Eu|Eu].
      * destruct (IH (h ++ [mkHop r (ev e)]) Hv') as (hs & H1 & H2 & H3 & H4).
        exists (mkHop r (ev e) :: hs).
        rewrite fmap_app in H2.
        rewrite <- !app_assoc in H1, H2.
        split_and!; [done|done|by rewrite fmap_cons, H3|].
        intros y [->|Hy]%elem_of_cons; [|by apply H4].
        exists e. unfold otherEnd. rewrite decide_True by done. done.
      * destruct (IH (h ++ [mkHop r (eu e)]) Hv') as (hs & H1 & H2 & H3 & H4).
        exists (mkHop r (eu e) :: hs).
        rewrite fmap_app in H2.
        rewrite <- !app_assoc in H1, H2.
        split_and!; [done|done|by rewrite fmap_cons, H3|].
        intros y [->|Hy]%elem_of_cons; [|by apply H4].
        exists e. unfold otherEnd. rewrite decide_False by done. done.
    + by apply IH.
Qed.

(** X15: on a node whose entries are all edges of the store, [Hops] and
    [Neighbors] return, and they agree: the nodes of the hops are the
    neighbours, in the same order.  There is one hop for each entry the
    filter accepts, in the order of the incidence list, a multiple edge
    giving its node again; and the node of a hop is the head of its edge
    when the tail is the node itself and the tail otherwise, so that on an
    edge the node is an end of, it is the other end, and the node itself
    for a loop. *)
Theorem Hops_agree_with_Neighbors (heap : list edge) (n : node)
    (ef : edge -> bool) :
  (forall r, r ∈ nodeEdges n -> is_Some (heap !! r)) ->
  exists hs,
    Hops heap n ef = Done hs /\
    Neighbors heap n ef = Done (hopNode <$> hs) /\
    hopEdge <$> hs =
      List.filter (fun r => match heap !! r with
                            | Some e => ef e
                            | None => false
                            end) (nodeEdges n) /\
    (forall x, x ∈ hs ->
       exists e, heap !! hopEdge x = Some e /\ ef e = true /\
         hopNode x = otherEnd (nodeID n) e /\
         (endOf (nodeID n) e = true ->
            (eu e = Some (nodeID n) /\ ev e = hopNode x) \/
            (ev e = Some (nodeID n) /\ eu e = hopNode x))).
Proof.
  intros Hv.
  destruct (hopsLoop_Done heap (nodeID n) ef (nodeEdges n) [] Hv)
    as (hs & H1 & H2 & H3 & H4).
  exists hs. split_and!; try done.
  intros x Hx. destruct (H4 x Hx) as (e & He & Hef & Hn).
  exists e. split_and!; try done.
  intros Hend. rewrite Hn. unfold otherEnd, endOf in *.
  destruct (decide (eu e = Some (nodeID n))) as [Eu|Eu]; [by left|].
  right. rewrite bool_decide_eq_false_2 in Hend by done. simpl in Hend.
  by apply bool_decide_eq_true in Hend.
Qed.

Lemma Hops_agree_with_Neighbors_witness :
  (forall r, r ∈ nodeEdges (mkNode 0 [0; 1]%nat) ->
     is_Some (loopAndEdge !! r)) /\
  exists hs,
    Hops loopAndEdge (mkNode 0 [0; 1]%nat) (fun _ => true) = Done hs /\
    Neighbors loopAndEdge (mkNode 0 [0; 1]%nat) (fun _ => true)
      = Done (hopNode <$> hs) /\
    hopEdge <$> hs =
      List.filter (fun r => match loopAndEdge !! r with
                            | Some e => true
                            | None => false
                            end) (nodeEdges (mkNode 0 [0; 1]%nat)) /\
    (forall x, x ∈ hs ->
       exists e, loopAndEdge !! hopEdge x = Some e /\ true = true /\
         hopNode x = otherEnd (nodeID (mkNode 0 [0; 1]%nat)) e /\
         (endOf (nodeID (mkNode 0 [0; 1]%nat)) e = true ->
            (eu e = Some (nodeID (mkNode 0 [0; 1]%nat)) /\ ev e = hopNode x) \/
            (ev e = Some (nodeID (mkNode 0 [0; 1]%nat)) /\ eu e = hopNode x))).
Proof.
  assert (H : forall r, r ∈ nodeEdges (mkNode 0 [0; 1]%nat) ->
     is_Some (loopAndEdge !! r)).
  { intros r Hr. simpl in Hr.
    apply elem_of_cons in Hr as [->|Hr]; [by eexists|].
    apply elem_of_cons in Hr as [->|Hr]; [by eexists|]. inversion Hr. }
  split; [exact H|].
  exact (Hops_agree_with_Neighbors loopAndEdge (mkNode 0 [0; 1]%nat)
           (fun _ => true) H).
Defined.

(** ** Deleting from the compact lists of the graph *)

Lemma delFromGraphArray_Done {A} (s : list (indexed A)) (i : Z) x last :
  0 <= i -> s !! Z.to_nat i = Some x ->
  s !! (length s - 1)%nat = Some last ->
  delFromGraphArray s i =
  Done (<[(length s - 1)%nat := setIndex (-1) x]>
          (<[Z.to_nat i := setIndex i last]> s)).
Proof.
  intros Hi Hx Hl.
  pose proof (lookup_lt_Some _ _ _ Hx) as Hlt.
  unfold delFromGraphArray. rewrite (swapLast_Done s i x last) by done.
  unfold mbind, outcome_bind, obind.
  replace (Z.to_nat (Z.of_nat (length s) - 1)) with (length s - 1)%nat by lia.
  destruct (decide (Z.to_nat i = length s - 1)%nat) as [E|Hne].
  - rewrite E in *. assert (x = last) as -> by congruence.
    rewrite (atZ_Done _ i last); [|lia|].
    2:{ rewrite E. rewrite list_lookup_insert_eq; [done|].
        rewrite length_insert. lia. }
    rewrite !list_insert_insert_eq.
    rewrite (atZ_Done _ (Z.of_nat (length s) - 1) (setIndex i last)); [|lia|].
    2:{ replace (Z.to_nat (Z.of_nat (length s) - 1))
          with (length s - 1)%nat by lia.
        rewrite list_lookup_insert_eq; [done|lia]. }
    by rewrite !list_insert_insert_eq.
  - rewrite (atZ_Done _ i last); [|lia|].
    2:{ rewrite list_lookup_insert_ne by lia.
        rewrite list_lookup_insert_eq; [done|lia]. }
    rewrite (atZ_Done _ (Z.of_nat (length s) - 1) x); [|lia|].
    2:{ replace (Z.to_nat (Z.of_nat (length s) - 1))
          with (length s - 1)%nat by lia.
        rewrite list_lookup_insert_ne by lia.
        rewrite list_lookup_insert_eq; [done|].
        rewrite !length_insert. lia. }
    rewrite (list_insert_insert_ne _ (length s - 1)%nat (Z.to_nat i)) by lia.
    rewrite list_insert_insert_eq.
    rewrite (list_insert_insert_ne _ (Z.to_nat i) (length s - 1)%nat) by lia.
    rewrite list_insert_insert_eq.
    rewrite (list_insert_insert_ne _ (length s - 1)%nat (Z.to_nat i)) by lia.
    done.
Qed.

(** X16: [delFromGraph(i)], of [Nodes] and of [Edges] alike, panics when
    [i] is not a position of the list.  Otherwise, in the array, the last
    element takes the position [i] with the index [i] and the element
    that was at [i] takes the last position with the index -1; the
    returned list is the array without its last position, so it is one
    shorter, holds the former last element at [i] (when [i] was not the
    last position) and every other element where it was, and its elements
    are those of the list without the deleted one.  If every element
    carried its own position as its index before the call, every element
    of the returned list does so again. *)
Theorem delFromGraph_keeps_indices {A} (s : list (indexed A)) (i : Z) :
  match delFromGraphArray s i, delFromGraph s i with
  | Done a, Done s' =>
      0 <= i < Z.of_nat (length s) /\
      exists x last,
        s !! Z.to_nat i = Some x /\
        s !! (length s - 1)%nat = Some last /\
        a = <[(length s - 1)%nat := setIndex (-1) x]>
              (<[Z.to_nat i := setIndex i last]> s) /\
        s' = take (length s - 1) a /\
        S (length s') = length s /\
        ((Z.to_nat i < length s - 1)%nat ->
           s' !! Z.to_nat i = Some (setIndex i last)) /\
        (forall j, (j < length s - 1)%nat -> j <> Z.to_nat i ->
           s' !! j = s !! j) /\
        obj x :: (obj <$> s') ≡ₚ obj <$> s /\
        (indexInv s -> indexInv s')
  | Panicked, Panicked => i < 0 \/ Z.of_nat (length s) <= i
  | _, _ => False
  end.
Proof.
  unfold delFromGraph.
  destruct (atZ_cases s i) as [(x & Hi & Hx & _)|[Hout _]].
  2:{ unfold delFromGraphArray. rewrite swapLast_Panicked by done. done. }
  destruct (last_lookup_Some s (Z.to_nat i) ltac:(lia)) as [last Hl].
  rewrite (delFromGraphArray_Done s i x last) by (lia || done).
  unfold mbind, outcome_bind, obind.
  rewrite !length_insert.
  split; [done|]. exists x, last.
  assert (Hlook : forall j, (j < length s - 1)%nat ->
            take (length s - 1)
              (<[(length s - 1)%nat := setIndex (-1) x]>
                 (<[Z.to_nat i := setIndex i last]> s)) !! j
            = if decide (j = Z.to_nat i) then Some (setIndex i last)
              else s !! j).
  { intros j Hj. rewrite lookup_take_lt by done.
    rewrite list_lookup_insert_ne by lia.
    destruct (decide (j = Z.to_nat i)) as [->|Hne].
    - by rewrite list_lookup_insert_eq by lia.
    - by rewrite list_lookup_insert_ne by done. }
  split_and!; try done.
  - rewrite length_take, !length_insert. lia.
  - intros Hlt. rewrite Hlook by done. by rewrite decide_True.
  - intros j Hj Hne. rewrite Hlook by done. by rewrite decide_False.
  - rewrite take_insert_ge by lia.
    assert (E : obj <$> take (length s - 1)
                  (<[Z.to_nat i := setIndex i last]> s)
                = take (length (obj <$> s) - 1)
                    (<[Z.to_nat i := obj last]> (obj <$> s))).
    { change (obj last) with (obj (setIndex i last)).
      by rewrite length_fmap, <- list_fmap_insert, fmap_take. }
    rewrite E. apply delFromNode_Permutation.
    + by rewrite list_lookup_fmap, Hx.
    + by rewrite length_fmap, list_lookup_fmap, Hl.
  - intros Hinv j y Hy.
    assert (Hj : (j < length s - 1)%nat).
    { apply lookup_lt_Some in Hy.
      rewrite length_take, !length_insert in Hy. lia. }
    rewrite Hlook in Hy by done.
    destruct (decide (j = Z.to_nat i)) as [->|Hne].
    + injection Hy as <-. simpl. lia.
    + by apply Hinv.
Qed.

(** ** Connecting and disconnecting an edge *)

(** X17: [reconnect(u, v)] never touches the id, the weight or the flags
    of the edge, and leaves an edge that [u] is no end of as it is.
    Otherwise it moves exactly one end from [u] to [v]: for distinct
    nodes [u] and [v] the edge has one end less at [u] and one more at
    [v], and every other node has as many ends as before, so that a loop
    at [u] is left with one end at [u]. *)
Theorem reconnect_moves_one_end (a b : Z) (e : edge) :
  let e' := reconnect (Some a) (Some b) e in
  eid e' = eid e /\ eweight e' = eweight e /\ eflags e' = eflags e /\
  (endsAt a e = 0 -> e' = e) /\
  (a <> b -> 0 < endsAt a e ->
     endsAt a e' = endsAt a e - 1 /\
     endsAt b e' = endsAt b e + 1 /\
     forall c, c <> a -> c <> b -> endsAt c e' = endsAt c e).
Proof.
  unfold reconnect.
  destruct (decide (Some a = eu e)) as [Eu|Eu];
    [|destruct (decide (Some a = ev e)) as [Ev|Ev]];
    (split_and!; [done|done|done| |]);
    try (intros H0; unfold endsAt in H0; repeat case_decide;
         (done || congruence || lia));
    (intros Hab Hpos; split_and!; [| |intros c Hca Hcb]);
    unfold endsAt, setU, setV in *; simpl in *;
    repeat case_decide; congruence || lia.
Qed.

(** X18: an edge takes two nodes.  On an edge with both ends nil the
    first [connect] sets the tail and the second sets the head, each
    adding the edge to the incidence list of the node it is given and
    leaving id, weight and flags alone; a third [connect] returns
    [alreadyConnected] and changes neither the edge nor the node, nil or
    not, it is given. *)
Theorem connect_takes_two_nodes (r : nat) (m1 m2 : node) (n3 : option node)
    (e : edge) :
  eu e = None -> ev e = None ->
  exists e1 e2,
    connect r (Some m1) e = Done (e1, Some (node_add r m1), None) /\
    connect r (Some m2) e1 = Done (e2, Some (node_add r m2), None) /\
    eu e2 = Some (nodeID m1) /\ ev e2 = Some (nodeID m2) /\
    eid e2 = eid e /\ eweight e2 = eweight e /\ eflags e2 = eflags e /\
    connect r n3 e2 = Done (e2, n3, Some alreadyConnected).
Proof.
  intros Hu Hv. unfold connect. rewrite decide_True by done.
  eexists _, _. split; [reflexivity|]. simpl.
  rewrite decide_True by done. done.
Qed.

Lemma connect_takes_two_nodes_witness :
  (eu (mkEdge 9 None None 1 0) = None /\ ev (mkEdge 9 None None 1 0) = None) /\
  exists e1 e2,
    connect 3 (Some (mkNode 4 [])) (mkEdge 9 None None 1 0)
      = Done (e1, Some (node_add 3 (mkNode 4 [])), None) /\
    connect 3 (Some (mkNode 5 [1]%nat)) e1
      = Done (e2, Some (node_add 3 (mkNode 5 [1]%nat)), None) /\
    eu e2 = Some (nodeID (mkNode 4 [])) /\
    ev e2 = Some (nodeID (mkNode 5 [1]%nat)) /\
    eid e2 = eid (mkEdge 9 None None 1 0) /\
    eweight e2 = eweight (mkEdge 9 None None 1 0) /\
    eflags e2 = eflags (mkEdge 9 None None 1 0) /\
    connect 3 None e2 = Done (e2, None, Some alreadyConnected).
Proof.
  split; [split; reflexivity|].
  exact (connect_takes_two_nodes 3 (mkNode 4 []) (mkNode 5 [1]%nat) None
           (mkEdge 9 None None 1 0) eq_refl eq_refl).
Defined.

(** X19: disconnecting a node right after connecting it gives the edge
    and the node back as they were, provided the node did not list the
    edge and was not already the tail of the edge.  When it was the tail,
    [connect] makes the edge a loop and [disconnect] then clears the tail,
    not the head, so the edge is left with the node as its head and
    differs from the edge before the two calls. *)
Theorem connect_then_disconnect (r : nat) (m : node) (e : edge) e' n' :
  connect r (Some m) e = Done (e', n', None) ->
  (r ∉ nodeEdges m -> eu e <> Some (nodeID m) ->
   disconnect r n' e' = Done (e, Some m)) /\
  (eu e = Some (nodeID m) ->
   exists e'' m', disconnect r n' e' = Done (e'', Some m') /\
     eu e'' = None /\ ev e'' = Some (nodeID m) /\ e'' <> e).
Proof.
  intros Hc. unfold connect in Hc.
  destruct (decide (eu e = None)) as [Eu|Eu].
  - injection Hc as <- <-. split; [|congruence].
    intros Hr _. unfold disconnect. simpl.
    rewrite decide_True by done.
    rewrite node_drop_after_add by done.
    unfold mbind, outcome_bind, obind. f_equal. f_equal.
    destruct e; simpl in *. by subst.
  - destruct (decide (ev e = None)) as [Ev|Ev]; [|done].
    injection Hc as <- <-. split.
    + intros Hr Hne. unfold disconnect. simpl.
      rewrite decide_False by congruence.
      rewrite decide_True by done.
      rewrite node_drop_after_add by done.
      unfold mbind, outcome_bind, obind. f_equal. f_equal.
      destruct e; simpl in *. by subst.
    + intros Heq. unfold disconnect. simpl.
      rewrite decide_True by done.
      destruct (node_drop_Done r (node_add r m)) as (m' & -> & _).
      unfold mbind, outcome_bind, obind.
      eexists _, m'. split_and!; [done|done|done|].
      intros E. rewrite <- E in Eu. simpl in Eu. done.
Qed.

Lemma connect_then_disconnect_witness :
  connect 3 (Some (mkNode 5 [1]%nat)) (mkEdge 9 (Some 4) None 1 0)
    = Done (mkEdge 9 (Some 4) (Some 5) 1 0, Some (mkNode 5 [1; 3]%nat), None) /\
  (3%nat ∉ nodeEdges (mkNode 5 [1]%nat) ->
   eu (mkEdge 9 (Some 4) None 1 0) <> Some (nodeID (mkNode 5 [1]%nat)) ->
   disconnect 3 (Some (mkNode 5 [1; 3]%nat)) (mkEdge 9 (Some 4) (Some 5) 1 0)
     = Done (mkEdge 9 (Some 4) None 1 0, Some (mkNode 5 [1]%nat))) /\
  (eu (mkEdge 9 (Some 4) None 1 0) = Some (nodeID (mkNode 5 [1]%nat)) ->
   exists e'' m',
     disconnect 3 (Some (mkNode 5 [1; 3]%nat)) (mkEdge 9 (Some 4) (Some 5) 1 0)
       = Done (e'', Some m') /\
     eu e'' = None /\ ev e'' = Some (nodeID (mkNode 5 [1]%nat)) /\
     e'' <> mkEdge 9 (Some 4) None 1 0).
Proof.
  split; [reflexivity|].
  apply (connect_then_disconnect 3 (mkNode 5 [1]%nat)
           (mkEdge 9 (Some 4) None 1 0)).
  reflexivity.
Defined.

(** ** Graphs on which the contraction cannot go on *)

Lemma withSel_same ka : withSel ka (ka_sel ka) = ka.
Proof. by destruct ka. Qed.

(** With nothing left to select the contraction loop stops at once. *)
Lemma contractLoop_exhausted f k ka rs :
  k < ka_order ka -> ka_sel ka <> [] -> (rootTotal (ka_sel ka) == 0)%Q ->
  contractLoop (S f) k ka rs = Done (ka, rs).
Proof.
  intros Hk Hne Hz. cbn [contractLoop].
  rewrite (proj2 (Z.ltb_lt k (ka_order ka))) by lia.
  simpl negb. cbv iota. unfold SelectFrom.
  rewrite (Select_empty (ka_sel ka) (rs 0%nat) Hne Hz), !bind_Done.
  by rewrite withSel_same.
Qed.

(** On the empty selector the contraction loop panics. *)
Lemma contractLoop_no_item f k ka rs :
  k < ka_order ka -> ka_sel ka = [] ->
  contractLoop (S f) k ka rs = Panicked.
Proof.
  intros Hk Hs. cbn [contractLoop].
  rewrite (proj2 (Z.ltb_lt k (ka_order ka))) by lia.
  simpl negb. cbv iota. by rewrite Hs.
Qed.

(** With more than six supernodes left and nothing left to select, every
    level of [fastRandMinCut] calls the next on the same context. *)
Lemma fastRandMinCut_exhausted fuel ka rs :
  6 < ka_order ka -> ka_sel ka <> [] -> (rootTotal (ka_sel ka) == 0)%Q ->
  fastRandMinCut fuel ka rs = Timeout.
Proof.
  intros Ho Hne Hz. induction fuel as [|f IH]; [done|].
  cbn [fastRandMinCut].
  rewrite (proj2 (Z.leb_gt (ka_order ka) 6)) by lia.
  pose proof (contractTarget_bounds (ka_order ka) Ho) as Ht.
  unfold randContract.
  rewrite (contractLoop_exhausted f _ ka rs) by (done || lia).
  by rewrite bind_Done, IH.
Qed.

Lemma nextNodeID_nonneg g :
  wfGraph g = true -> 0 < Order g -> 0 <= nextNodeID g.
Proof.
  intros Hwf Ho. destruct (wfGraph_spec g Hwf) as (_ & Hrange & _ & _).
  unfold Order in Ho. destruct (compNodes g) as [|n ns] eqn:E;
    [simpl in Ho; lia|].
  assert (nodeID n ∈ ids g).
  { unfold ids. rewrite E. simpl. apply elem_of_cons. by left. }
  apply Hrange in H. lia.
Qed.

Lemma weightAt_Init s j : weightAt (Init s) j = weightAt s j.
Proof.
  unfold weightAt. destruct (s !! j) as [x|] eqn:E.
  - destruct (Init_lookup s j x E) as (x' & -> & _ & ->). done.
  - rewrite lookup_ge_None_2; [done|].
    rewrite length_Init. by apply lookup_ge_None_1.
Qed.

(** X21: on a graph with more than six nodes and at least one edge, all
    of weight zero, [FastRandMinCut] returns no result for any
    [iter >= 1]: the selector reports [SelectorEmpty] at once, the order
    stays above six, and [fastRandMinCut] calls itself on the same
    context without end, so the run uses up every amount of fuel. *)
Theorem FastRandMinCut_weightless_never_returns (g : Undirected)
    (iter : Z) (rs : draws) (fuel : nat) :
  wfGraph g = true -> 6 < Order g -> compEdges g <> [] -> weightless g ->
  1 <= iter ->
  FastRandMinCut fuel g iter rs = Timeout.
Proof.
  intros Hwf Ho Hne Hz Hi.
  destruct (init_spec g Hwf (nextNodeID_nonneg g Hwf ltac:(lia)))
    as (ka0 & ka & Hnew & Hinit & Hg & Hord & Hsel & _).
  unfold FastRandMinCut. rewrite Hnew, bind_Done, Hinit, bind_Done.
  destruct (Z.to_nat iter) as [|n] eqn:En; [lia|].
  cbn [driverLoop]. rewrite fastRandMinCut_exhausted; [done|lia| |].
  - rewrite Hsel. intros E. apply (f_equal length) in E.
    rewrite length_Init, length_map in E. unfold Edges in E.
    destruct (compEdges g); [done|simpl in E; lia].
  - rewrite Hsel, rootTotal_totalAt. apply totalAt_zero; [apply Init_treeInv|].
    intros j. rewrite weightAt_Init. unfold weightAt, Edges.
    change map with (@fmap list _). rewrite list_lookup_fmap.
    destruct (compEdges g !! j) as [e|] eqn:E; simpl; [|lra].
    apply Hz. by eapply list_elem_of_lookup_2.
Qed.

Lemma FastRandMinCut_weightless_never_returns_witness :
  (wfGraph sevenWeightless = true /\ 6 < Order sevenWeightless /\
   compEdges sevenWeightless <> [] /\ weightless sevenWeightless /\ 1 <= 1) /\
  FastRandMinCut 5 sevenWeightless 1 half = Timeout.
Proof.
  assert (H1 : wfGraph sevenWeightless = true) by (vm_compute; reflexivity).
  assert (H2 : 6 < Order sevenWeightless) by (vm_compute; reflexivity).
  assert (H3 : compEdges sevenWeightless <> []) by discriminate.
  assert (H4 : weightless sevenWeightless).
  { intros e He. cbn in He. apply elem_of_cons in He as [->|He];
      [reflexivity|inversion He]. }
  assert (H5 : 1 <= 1) by lia.
  split; [done|].
  exact (FastRandMinCut_weightless_never_returns sevenWeightless 1 half 5
           H1 H2 H3 H4 H5).
Defined.

(** X22: on a graph with more than two nodes and no edge at all,
    [FastRandMinCut] panics for every [iter >= 1]: the selector is empty
    and the first [Select] reads [s[0]]. *)
Theorem FastRandMinCut_no_edge_panics (g : Undirected) (iter : Z)
    (rs : draws) (fuel : nat) :
  wfGraph g = true -> 2 < Order g -> compEdges g = [] -> 1 <= iter ->
  FastRandMinCut (S fuel) g iter rs = Panicked.
Proof.
  intros Hwf Ho Hnil Hi.
  destruct (init_spec g Hwf (nextNodeID_nonneg g Hwf ltac:(lia)))
    as (ka0 & ka & Hnew & Hinit & Hg & Hord & Hsel & _).
  unfold FastRandMinCut. rewrite Hnew, bind_Done, Hinit, bind_Done.
  destruct (Z.to_nat iter) as [|n] eqn:En; [lia|].
  assert (Hs : ka_sel ka = []).
  { rewrite Hsel. unfold Edges. by rewrite Hnil. }
  cbn [driverLoop fastRandMinCut].
  destruct (Z.leb_spec (ka_order ka) 6) as [Hle|Hgt].
  - unfold randCompact. by rewrite contractLoop_no_item by (done || lia).
  - pose proof (contractTarget_bounds (ka_order ka) Hgt) as Ht.
    unfold randContract.
    by rewrite (contractLoop_no_item fuel _ ka rs) by (done || lia).
Qed.

Lemma FastRandMinCut_no_edge_panics_witness :
  (wfGraph threeIsolated = true /\ 2 < Order threeIsolated /\
   compEdges threeIsolated = [] /\ 1 <= 1) /\
  FastRandMinCut 5 threeIsolated 1 half = Panicked.
Proof.
  assert (H1 : wfGraph threeIsolated = true) by (vm_compute; reflexivity).
  assert (H2 : 2 < Order threeIsolated) by (vm_compute; reflexivity).
  assert (H3 : compEdges threeIsolated = []) by reflexivity.
  assert (H4 : 1 <= 1) by lia.
  split; [done|].
  exact (FastRandMinCut_no_edge_panics threeIsolated 1 half 4 H1 H2 H3 H4).
Defined.

(** ** The recursion-tree driver against the sequential one *)

Lemma fastRandMinCutP_base fuel ka rs :
  fastRandMinCut fuel (rp_base ka) rs =
  match fastRandMinCutP fuel ka rs with
  | Done (ka', rs', _) => Done (rp_base ka', rs')
  | Panicked => Panicked
  | Timeout => Timeout
  end.
Proof.
  revert ka rs. induction fuel as [|f IH]; intros ka rs; [done|].
  cbn [fastRandMinCut fastRandMinCutP].
  destruct (ka_order (rp_base ka) <=? 6).
  - destruct (randCompact _ _ _ _) as [[b rs1]| |]; done.
  - cbn [rp_base rp_count rp_split cloneP].
    destruct (randContract _ _ (rp_base ka) rs) as [[b0 rs0]| |]; [|done..].
    rewrite !bind_Done.
    rewrite (IH (mkKargerRP b0 (wrap (rp_count ka + 1)) (rp_split ka)) rs0
             : fastRandMinCut f b0 rs0 = _).
    destruct (fastRandMinCutP f (mkKargerRP b0 _ _) rs0)
      as [[[sub0 rs1] log0]| |]; [|done..].
    rewrite !bind_Done.
    destruct (randContract _ _ _ rs1) as [[b1 rs2]| |]; [|done..].
    rewrite !bind_Done.
    rewrite (IH (mkKargerRP b1 (wrap (rp_count ka + 1)) 0) rs2
             : fastRandMinCut f b1 rs2 = _).
    destruct (fastRandMinCutP f (mkKargerRP b1 _ _) rs2)
      as [[[sub1 rs3] log1]| |]; [|done..].
    rewrite !bind_Done.
    by destruct (Qlt_le_dec _ _).
Qed.

Lemma driverLoopP_base fuel n ka c w rs log :
  match driverLoopP fuel n ka c w rs log with
  | Done (c', w', _) =>
      exists ka' rs',
        driverLoop fuel n (rp_base ka) c w rs = Done (ka', c', w', rs')
  | Panicked => driverLoop fuel n (rp_base ka) c w rs = Panicked
  | Timeout => driverLoop fuel n (rp_base ka) c w rs = Timeout
  end.
Proof.
  revert ka c w rs log. induction n as [|n IH]; intros ka c w rs log;
    cbn [driverLoop driverLoopP]; [eauto|].
  rewrite fastRandMinCutP_base.
  destruct (fastRandMinCutP fuel ka rs) as [[[ka1 rs1] l]| |]; [|done..].
  rewrite !bind_Done.
  destruct (ltFloat _ _); apply IH.
Qed.

(** X23: with [threads = 0], [ParFastRandMinCut] does what
    [FastRandMinCut] does on the same draws: it returns the same cut and
    the same weight, panics when [FastRandMinCut] panics and runs on when
    it runs on; and as long as the counter of calls cannot overflow, no
    call of the recursion starts a goroutine. *)
Theorem ParFastRandMinCut_zero_threads_is_FastRandMinCut (fuel : nat)
    (g : Undirected) (iter : Z) (rs : draws) :
  Z.of_nat (Z.to_nat iter * fuel) + Z.of_nat fuel <= maxInt ->
  match ParFastRandMinCut fuel g iter 0 rs with
  | Done (c, w, log) =>
      FastRandMinCut fuel g iter rs = Done (c, w) /\
      forall b, b ∈ log -> b = false
  | Panicked => FastRandMinCut fuel g iter rs = Panicked
  | Timeout => FastRandMinCut fuel g iter rs = Timeout
  end.
Proof.
  intros Hb.
  pose proof (fun c w log =>
    ParFastRandMinCut_zero_never_spawns fuel g iter rs c w log Hb) as Hns.
  unfold ParFastRandMinCut, FastRandMinCut, newKargerRP in *.
  destruct (newKargerR g) as [k| |]; [|done..].
  rewrite !bind_Done in *. cbn [rp_base rp_count] in *.
  destruct (init k) as [b| |]; [|done..].
  rewrite !bind_Done in *.
  pose proof (driverLoopP_base fuel (Z.to_nat iter)
                (mkKargerRP b 0 (if 0 =? 0 then -1 else 0)) [] PosInf rs [])
    as H.
  cbn [rp_base] in H.
  destruct (driverLoopP _ _ _ _ _ _ _) as [[[c w] log]| |].
  - destruct H as (ka' & rs' & ->). rewrite bind_Done.
    split; [done|]. by apply (Hns c w log).
  - by rewrite H.
  - by rewrite H.
Qed.

Lemma ParFastRandMinCut_zero_threads_is_FastRandMinCut_witness :
  Z.of_nat (Z.to_nat 1 * 20) + Z.of_nat 20 <= maxInt /\
  match ParFastRandMinCut 20 cycle7 1 0 ninths with
  | Done (c, w, log) =>
      FastRandMinCut 20 cycle7 1 ninths = Done (c, w) /\
      forall b, b ∈ log -> b = false
  | Panicked => FastRandMinCut 20 cycle7 1 ninths = Panicked
  | Timeout => FastRandMinCut 20 cycle7 1 ninths = Timeout
  end.
Proof.
  assert (H : Z.of_nat (Z.to_nat 1 * 20) + Z.of_nat 20 <= maxInt)
    by (vm_compute; discriminate).
  split; [exact H|].
  exact (ParFastRandMinCut_zero_threads_is_FastRandMinCut 20 cycle7 1 ninths H).
Defined.

(** ** More on BuildUndirected: the error and the edges of the result *)

Lemma compEdges_AddID id g : compEdges (AddID id g) = compEdges g.
Proof. unfold AddID. by destruct (nodeByID g id). Qed.

Lemma NoDup_ids_AddID id g : NoDup (ids g) -> NoDup (ids (AddID id g)).
Proof.
  intros Hnd. unfold AddID. destruct (nodeByID g id) eqn:E; [done|].
  unfold ids. cbn. change map with (@fmap list _). rewrite fmap_app.
  apply NoDup_app. split; [done|]. split.
  - intros j Hj [->|H]%elem_of_cons; [|inversion H].
    assert (Hs : is_Some (nodeByID g id)) by (by apply nodeByID_is_Some).
    rewrite E in Hs. by destruct Hs.
  - apply NoDup_singleton.
Qed.

Lemma addIncident_edges id r g :
  id ∈ ids g ->
  exists g', addIncident id r g = Done g' /\ ids g' = ids g /\
             compEdges g' = compEdges g.
Proof.
  intros H. apply nodeByID_is_Some in H as [n Hn].
  unfold addIncident. rewrite Hn. eexists. split; [reflexivity|].
  split; [|done].
  unfold ids. cbn. rewrite map_map. apply map_ext.
  intros m. by destruct (nodeID m =? id).
Qed.

Lemma newEdgeKeepID_edges id uid vid w f g :
  uid ∈ ids g -> vid ∈ ids g ->
  exists r g', newEdgeKeepID id uid vid w f g = Done (r, g') /\
    ids g' = ids g /\
    compEdges g' = compEdges g ++ [mkEdge id (Some uid) (Some vid) w f].
Proof.
  intros Hu Hv. unfold newEdgeKeepID.
  set (g0 := mkUndirected _ _ _).
  assert (E0 : ids g0 = ids g) by done.
  destruct (addIncident_edges uid (length (compEdges g)) g0)
    as (g1 & -> & E1 & C1); [by rewrite E0|].
  rewrite bind_Done.
  destruct (vid =? uid).
  - rewrite bind_Done. eexists _, _. split; [reflexivity|].
    split; [congruence|]. by rewrite C1.
  - destruct (addIncident_edges vid (length (compEdges g)) g1)
      as (g2 & -> & E2 & C2); [by rewrite E1, E0|].
    rewrite bind_Done. eexists _, _. split; [reflexivity|].
    split; [congruence|]. by rewrite C2, C1.
Qed.

Lemma buildEdge_seen heap compact r seen g :
  r ∈ seen -> buildEdge heap compact r (seen, g) = Done (inr (seen, g)).
Proof. intros H. unfold buildEdge. by rewrite decide_True. Qed.

(** One round on an edge that is met for the first time and has no
    negative end: the edge is copied to the end of the edge array. *)
Lemma buildEdge_new heap compact r seen g e a b :
  r ∉ seen -> heap !! r = Some e -> eu e = Some a -> ev e = Some b ->
  0 <= a -> 0 <= b ->
  exists g',
    buildEdge heap compact r (seen, g) = Done (inr (seen ∪ {[r]}, g')) /\
    ids g' = ids (AddID b (AddID a g)) /\
    compEdges g' =
      compEdges g ++
      [mkEdge (if compact then Z.of_nat (length (compEdges g)) else eid e)
         (eu e) (ev e) (eweight e) (eflags e)].
Proof.
  intros Hr He Hu Hv Ha Hb.
  unfold buildEdge. rewrite decide_False by done.
  unfold at_. rewrite He, bind_Done.
  unfold TailID, HeadID. rewrite Hu, Hv, !bind_Done.
  destruct (Z.ltb_spec a 0); [lia|]. destruct (Z.ltb_spec b 0); [lia|].
  cbn [orb].
  set (g2 := AddID b (AddID a g)).
  assert (Ha2 : a ∈ ids g2) by apply ids_AddID, ids_AddID_self.
  assert (Hb2 : b ∈ ids g2) by apply ids_AddID_self.
  assert (C2 : compEdges g2 = compEdges g)
    by (unfold g2; by rewrite !compEdges_AddID).
  assert (Hne : exists ne g3,
    (if compact then newEdge a b (eweight e) (eflags e) g2
     else newEdgeKeepID (eid e) a b (eweight e) (eflags e) g2) = Done (ne, g3)
    /\ ids g3 = ids g2 /\
    compEdges g3 =
      compEdges g ++
      [mkEdge (if compact then Z.of_nat (length (compEdges g)) else eid e)
         (Some a) (Some b) (eweight e) (eflags e)]).
  { destruct compact; [unfold newEdge|].
    - destruct (newEdgeKeepID_edges (Z.of_nat (length (compEdges g2))) a b
                  (eweight e) (eflags e) g2 Ha2 Hb2)
        as (ne & g3 & -> & E3 & C3).
      exists ne, g3. split_and!; [done|done|]. by rewrite C3, C2.
    - destruct (newEdgeKeepID_edges (eid e) a b (eweight e) (eflags e) g2
                  Ha2 Hb2) as (ne & g3 & -> & E3 & C3).
      exists ne, g3. split_and!; [done|done|]. by rewrite C3, C2. }
  destruct Hne as (ne & g3 & -> & E3 & C3). rewrite bind_Done.
  destruct (addIncident_edges a ne g3) as (g4 & -> & E4 & C4);
    [by rewrite E3|].
  rewrite bind_Done. rewrite <- Hu, <- Hv in C3.
  destruct (negb (b =? a)).
  - destruct (addIncident_edges b ne g4) as (g5 & -> & E5 & C5);
      [by rewrite E4, E3|].
    rewrite bind_Done. exists g5. split_and!; [done|congruence|congruence].
  - rewrite bind_Done. exists g4. split_and!; [done|congruence|congruence].
Qed.

Lemma firstSeen_app seen l1 l2 :
  firstSeen seen (l1 ++ l2) =
  firstSeen seen l1 ++ firstSeen (seen ∪ list_to_set l1) l2.
Proof.
  revert seen. induction l1 as [|r l1 IH]; intros seen; simpl.
  - f_equal. set_solver.
  - destruct (decide (r ∈ seen)) as [Hin|Hnin].
    + rewrite IH. f_equal. f_equal. set_solver.
    + simpl. rewrite IH. f_equal. f_equal. f_equal. set_solver.
Qed.

Lemma length_copies heap compact k rs :
  (forall r, r ∈ rs -> is_Some (heap !! r)) ->
  length (copies heap compact k rs) = length rs.
Proof.
  revert k. induction rs as [|r rs IH]; intros k H; [done|].
  destruct (H r) as [e He]; [apply elem_of_cons; by left|].
  simpl. rewrite He. simpl. rewrite IH; [done|].
  intros r' Hr'. apply H, elem_of_cons. by right.
Qed.

Lemma copies_app heap compact k l1 l2 :
  copies heap compact k (l1 ++ l2) =
  copies heap compact k l1 ++
  copies heap compact (k + length (copies heap compact k l1)) l2.
Proof.
  revert k. induction l1 as [|r l1 IH]; intros k; simpl.
  - by rewrite Nat.add_0_r.
  - destruct (heap !! r) as [e|]; [|apply IH].
    simpl. rewrite IH. do 3 f_equal. lia.
Qed.

Lemma elem_of_firstSeen seen rs r :
  r ∈ firstSeen seen rs -> r ∈ rs.
Proof.
  revert seen. induction rs as [|x rs IH]; intros seen; simpl; [done|].
  destruct (decide (x ∈ seen)).
  - intros H. apply elem_of_cons. right. by eapply IH.
  - intros [->|H]%elem_of_cons; apply elem_of_cons; [by left|].
    right. by eapply IH.
Qed.

(** The references met for the first time are the new ones, once each. *)
Lemma firstSeen_spec seen rs :
  NoDup (firstSeen seen rs) /\
  forall r, r ∈ firstSeen seen rs <-> r ∈ rs /\ r ∉ seen.
Proof.
  revert seen. induction rs as [|x rs IH]; intros seen; simpl.
  - split; [apply NoDup_nil_2|]. intros r. split; [inversion 1|].
    intros [H _]. inversion H.
  - destruct (IH seen) as [Hnd Hiff].
    destruct (IH (seen ∪ {[x]})) as [Hnd' Hiff'].
    destruct (decide (x ∈ seen)) as [Hin|Hnin].
    + split; [done|]. intros r. rewrite Hiff, elem_of_cons. split.
      * intros [? ?]. auto.
      * intros [[->|?] ?]; [done|auto].
    + split.
      * apply NoDup_cons. split; [|done]. rewrite Hiff'. set_solver.
      * intros r. rewrite !elem_of_cons, Hiff'. split.
        -- intros [->|[? ?]]; [auto|]. split; [auto|set_solver].
        -- intros [[->|?] ?]; [auto|].
           destruct (decide (r = x)) as [->|]; [auto|]. right.
           split; [done|set_solver].
Qed.

Lemma firstSeen_size rs :
  length (firstSeen ∅ rs) = size (list_to_set (C := gset nat) rs).
Proof.
  destruct (firstSeen_spec ∅ rs) as [Hnd Hiff].
  rewrite <- (size_list_to_set (C := gset nat) (firstSeen ∅ rs)) by done.
  f_equal. apply set_eq. intros r.
  rewrite !elem_of_list_to_set, Hiff. set_solver.
Qed.

(** The inner loop over edges without a negative end. *)
Lemma buildEdges_spec heap compact rs seen g :
  (forall r, r ∈ rs ->
     exists e a b, heap !! r = Some e /\ eu e = Some a /\ ev e = Some b /\
                   0 <= a /\ 0 <= b) ->
  NoDup (ids g) -> endsIn g ->
  exists g',
    buildEdges heap compact rs (seen, g)
      = Done (inr (seen ∪ list_to_set rs, g')) /\
    compEdges g' =
      compEdges g ++
      copies heap compact (length (compEdges g)) (firstSeen seen rs) /\
    (forall j, j ∈ ids g -> j ∈ ids g') /\
    NoDup (ids g') /\ endsIn g'.
Proof.
  revert seen g. induction rs as [|r rs IH]; intros seen g H Hnd Hends.
  - exists g. simpl. rewrite app_nil_r. split_and!; try done.
    do 3 f_equal. set_solver.
  - assert (H' : forall r', r' ∈ rs ->
       exists e a b, heap !! r' = Some e /\ eu e = Some a /\ ev e = Some b /\
                     0 <= a /\ 0 <= b)
      by (intros r' Hr'; apply H, elem_of_cons; by right).
    cbn [buildEdges firstSeen].
    destruct (decide (r ∈ seen)) as [Hin|Hnin].
    + rewrite buildEdge_seen, bind_Done by done.
      destruct (IH seen g H' Hnd Hends) as (g' & -> & C & Hmono & Hnd' & He').
      exists g'. split_and!; try done. do 3 f_equal. set_solver.
    + destruct (H r) as (e & a & b & He & Hu & Hv & Ha & Hb);
        [apply elem_of_cons; by left|].
      destruct (buildEdge_new heap compact r seen g e a b Hnin He Hu Hv Ha Hb)
        as (g1 & -> & E1 & C1).
      rewrite bind_Done.
      assert (Hnd1 : NoDup (ids g1))
        by (rewrite E1; by do 2 apply NoDup_ids_AddID).
      assert (Hmono1 : forall j, j ∈ ids g -> j ∈ ids g1)
        by (intros j Hj; rewrite E1; by do 2 apply ids_AddID).
      assert (Hends1 : endsIn g1).
      { intros x. rewrite C1. intros [Hx|Hx]%elem_of_app.
        - destruct (Hends x Hx) as (p & q & ? & ? & ? & ?).
          exists p, q. split_and!; auto.
        - apply list_elem_of_singleton in Hx as ->. simpl.
          exists a, b. split_and!; [done|done| |]; rewrite E1.
          + apply ids_AddID, ids_AddID_self.
          + apply ids_AddID_self. }
      destruct (IH (seen ∪ {[r]}) g1 H' Hnd1 Hends1)
        as (g' & -> & C & Hmono & Hnd' & He').
      exists g'. split_and!; try done.
      * do 3 f_equal. set_solver.
      * rewrite C, C1. simpl. rewrite He, <- app_assoc. simpl.
        do 3 f_equal. rewrite length_app. simpl. lia.
      * auto.
Qed.

Lemma buildNodes_spec heap compact ns seen g :
  edgesNonNegative heap ns ->
  NoDup (ids g) -> endsIn g ->
  exists g',
    buildNodes heap compact ns (seen, g)
      = Done (inr (seen ∪ list_to_set (concat (nodeEdges <$> ns)), g')) /\
    compEdges g' =
      compEdges g ++
      copies heap compact (length (compEdges g))
        (firstSeen seen (concat (nodeEdges <$> ns))) /\
    (forall j, j ∈ ids g -> j ∈ ids g') /\
    (forall n, n ∈ ns -> nodeID n ∈ ids g') /\
    NoDup (ids g') /\ endsIn g'.
Proof.
  revert seen g. induction ns as [|n ns IH]; intros seen g H Hnd Hends.
  - exists g. simpl. rewrite app_nil_r. split_and!; try done.
    + do 3 f_equal. set_solver.
    + intros n Hn. inversion Hn.
  - cbn [buildNodes].
    assert (Hn : forall r, r ∈ nodeEdges n ->
       exists e a b, heap !! r = Some e /\ eu e = Some a /\ ev e = Some b /\
                     0 <= a /\ 0 <= b)
      by (intros r Hr; apply (H n r); [apply elem_of_cons; by left|done]).
    assert (H' : edgesNonNegative heap ns)
      by (intros m r Hm Hr; apply (H m r); [apply elem_of_cons; by right|done]).
    assert (Hends0 : endsIn (AddID (nodeID n) g)).
    { intros x. rewrite compEdges_AddID. intros Hx.
      destruct (Hends x Hx) as (p & q & ? & ? & ? & ?).
      exists p, q. split_and!; try done; by apply ids_AddID. }
    destruct (buildEdges_spec heap compact (nodeEdges n) seen
                (AddID (nodeID n) g) Hn (NoDup_ids_AddID _ _ Hnd) Hends0)
      as (g1 & -> & C1 & Hmono1 & Hnd1 & Hends1).
    rewrite bind_Done. rewrite compEdges_AddID in C1.
    destruct (IH (seen ∪ list_to_set (nodeEdges n)) g1 H' Hnd1 Hends1)
      as (g' & -> & C & Hmono & Hin & Hnd' & He').
    exists g'. split_and!; try done.
    + do 3 f_equal. rewrite fmap_cons. simpl. set_solver.
    + rewrite C, C1, <- app_assoc. f_equal.
      rewrite fmap_cons. simpl concat.
      rewrite firstSeen_app, copies_app. f_equal. f_equal.
      rewrite length_app. f_equal.
    + intros j Hj. apply Hmono, Hmono1. by apply ids_AddID.
    + intros m [->|Hm]%elem_of_cons; [|by apply Hin].
      apply Hmono, Hmono1, ids_AddID_self.
Qed.

Lemma elem_of_concat {A} (x : A) (ls : list (list A)) :
  x ∈ concat ls <-> exists l, x ∈ l /\ l ∈ ls.
Proof.
  rewrite list_elem_of_In, List.in_concat. split.
  - intros (l & Hl & Hx). exists l. by rewrite !list_elem_of_In.
  - intros (l & Hx & Hl). exists l. by rewrite <- !list_elem_of_In.
Qed.

(** An edge that is present has no negative end or has one. *)
Lemma present_split (heap : list edge) (rs : list nat) :
  (forall r, r ∈ rs ->
     exists e a b, heap !! r = Some e /\ eu e = Some a /\ ev e = Some b) ->
  (forall r, r ∈ rs ->
     exists e a b, heap !! r = Some e /\ eu e = Some a /\ ev e = Some b /\
                   0 <= a /\ 0 <= b) \/
  (exists r e a b, r ∈ rs /\ heap !! r = Some e /\ eu e = Some a /\
                   ev e = Some b /\ (a < 0 \/ b < 0)).
Proof.
  induction rs as [|r rs IH]; intros H.
  - left. intros r Hr. inversion Hr.
  - destruct (H r) as (e & a & b & He & Hu & Hv); [apply elem_of_cons; by left|].
    destruct (decide (0 <= a /\ 0 <= b)) as [[Ha Hb]|Hneg].
    + destruct IH as [Hall|(r' & e' & a' & b' & Hr' & Hrest)].
      * intros r' Hr'. apply H, elem_of_cons. by right.
      * left. intros r' [->|Hr']%elem_of_cons; [|by apply Hall].
        exists e, a, b. done.
      * right. exists r', e', a', b'. split; [|done].
        apply elem_of_cons. by right.
    + right. exists r, e, a, b. split_and!; try done; [|lia].
      apply elem_of_cons. by left.
Qed.

(** Every edge seen so far had no negative end. *)
Lemma buildEdges_negative heap compact rs seen g :
  (forall r, r ∈ seen ->
     exists e a b, heap !! r = Some e /\ eu e = Some a /\ ev e = Some b /\
                   0 <= a /\ 0 <= b) ->
  (forall r, r ∈ rs ->
     exists e a b, heap !! r = Some e /\ eu e = Some a /\ ev e = Some b) ->
  (exists r e a b, r ∈ rs /\ heap !! r = Some e /\ eu e = Some a /\
                   ev e = Some b /\ (a < 0 \/ b < 0)) ->
  buildEdges heap compact rs (seen, g) = Done (inl NodeIDOutOfRange).
Proof.
  revert seen g. induction rs as [|r rs IH];
    intros seen g Hseen Hpres (r0 & e0 & a0 & b0 & Hr0 & He0 & Hu0 & Hv0 & Hneg).
  - inversion Hr0.
  - assert (Hpres' : forall r', r' ∈ rs ->
       exists e a b, heap !! r' = Some e /\ eu e = Some a /\ ev e = Some b)
      by (intros r' Hr'; apply Hpres, elem_of_cons; by right).
    cbn [buildEdges].
    destruct (Hpres r) as (e & a & b & He & Hu & Hv);
      [apply elem_of_cons; by left|].
    destruct (decide (0 <= a /\ 0 <= b)) as [[Ha Hb]|Hbad].
    + assert (Hin : r0 ∈ rs).
      { apply elem_of_cons in Hr0 as [->|?]; [|done].
        exfalso. assert (e0 = e) as -> by congruence.
        assert (a0 = a) as -> by congruence.
        assert (b0 = b) as -> by congruence. lia. }
      destruct (decide (r ∈ seen)) as [Hs|Hs].
      * rewrite buildEdge_seen, bind_Done by done.
        apply IH; [done|done|]. exists r0, e0, a0, b0. done.
      * destruct (buildEdge_new heap compact r seen g e a b Hs He Hu Hv Ha Hb)
          as (g1 & -> & _).
        rewrite bind_Done. apply IH; [|done|].
        -- intros r' [Hr'|Hr']%elem_of_union; [by apply Hseen|].
           apply elem_of_singleton in Hr' as ->. exists e, a, b. done.
        -- exists r0, e0, a0, b0. done.
    + assert (Hs : r ∉ seen).
      { intros Hs. destruct (Hseen r Hs) as (e' & a' & b' & He' & Hu' & Hv' & ? & ?).
        assert (e' = e) as -> by congruence.
        assert (a' = a) as -> by congruence.
        assert (b' = b) as -> by congruence. lia. }
      rewrite (buildEdge_negative heap compact r seen g e a b) by (done || lia).
      done.
Qed.

Lemma buildNodes_negative heap compact ns seen g :
  (forall r, r ∈ seen ->
     exists e a b, heap !! r = Some e /\ eu e = Some a /\ ev e = Some b /\
                   0 <= a /\ 0 <= b) ->
  NoDup (ids g) -> endsIn g ->
  edgesPresent heap ns -> someNegativeEnd heap ns ->
  buildNodes heap compact ns (seen, g) = Done (inl NodeIDOutOfRange).
Proof.
  revert seen g. induction ns as [|n ns IH];
    intros seen g Hseen Hnd Hends Hpres
      (n0 & r0 & e0 & a0 & b0 & Hn0 & Hr0 & He0 & Hu0 & Hv0 & Hneg).
  - inversion Hn0.
  - cbn [buildNodes].
    assert (Hpn : forall r, r ∈ nodeEdges n ->
       exists e a b, heap !! r = Some e /\ eu e = Some a /\ ev e = Some b)
      by (intros r Hr; apply (Hpres n r); [apply elem_of_cons; by left|done]).
    destruct (present_split heap (nodeEdges n) Hpn) as [Hgood|Hbad].
    + assert (Hends0 : endsIn (AddID (nodeID n) g)).
      { intros x. rewrite compEdges_AddID. intros Hx.
        destruct (Hends x Hx) as (p & q & ? & ? & ? & ?).
        exists p, q. split_and!; try done; by apply ids_AddID. }
      destruct (buildEdges_spec heap compact (nodeEdges n) seen
                  (AddID (nodeID n) g) Hgood (NoDup_ids_AddID _ _ Hnd) Hends0)
        as (g1 & -> & _ & _ & Hnd1 & Hends1).
      rewrite bind_Done. apply IH; [|done|done| |].
      * intros r [Hr|Hr]%elem_of_union; [by apply Hseen|].
        apply elem_of_list_to_set in Hr. by apply Hgood.
      * intros m r Hm Hr. apply (Hpres m r); [apply elem_of_cons; by right|done].
      * assert (Hin : n0 ∈ ns).
        { apply elem_of_cons in Hn0 as [->|?]; [|done]. exfalso.
          destruct (Hgood r0 Hr0) as (e' & a' & b' & He' & Hu' & Hv' & ? & ?).
          assert (e' = e0) as -> by congruence.
          assert (a' = a0) as -> by congruence.
          assert (b' = b0) as -> by congruence. lia. }
        exists n0, r0, e0, a0, b0. done.
    + by rewrite (buildEdges_negative heap compact (nodeEdges n) seen
                    (AddID (nodeID n) g) Hseen Hpn Hbad).
Qed.

Lemma not_negative_nonNegative heap ns :
  edgesPresent heap ns -> ~ someNegativeEnd heap ns ->
  edgesNonNegative heap ns.
Proof.
  intros Hp Hn n r Hin Hr.
  destruct (Hp n r Hin Hr) as (e & a & b & He & Hu & Hv).
  exists e, a, b. split_and!; try done.
  - destruct (decide (0 <= a)); [done|]. exfalso. apply Hn.
    exists n, r, e, a, b. split_and!; try done. lia.
  - destruct (decide (0 <= b)); [done|]. exfalso. apply Hn.
    exists n, r, e, a, b. split_and!; try done. lia.
Qed.

Lemma NewUndirected_endsIn : endsIn NewUndirected.
Proof. intros e He. inversion He. Qed.

Lemma BuildUndirected_negative heap ns compact :
  edgesPresent heap ns -> someNegativeEnd heap ns ->
  BuildUndirected heap ns compact = Done (None, Some NodeIDOutOfRange).
Proof.
  intros Hp Hn. unfold BuildUndirected.
  rewrite (buildNodes_negative heap compact ns ∅ NewUndirected);
    [done| |apply NoDup_nil_2|apply NewUndirected_endsIn|done|done].
  intros r Hr. by apply not_elem_of_empty in Hr.
Qed.

(** X24: when every edge the nodes list is in the store and has both
    ends, [BuildUndirected] returns the error [NodeIDOutOfRange], and nil
    for the graph, exactly when one of these edges has an end with a
    negative id; otherwise it returns a graph and no error.  The ids of
    the nodes of the receiver themselves play no part in this. *)
Theorem BuildUndirected_error_iff_negative_end (heap : list edge)
    (ns : list node) (compact : bool) :
  edgesPresent heap ns ->
  (someNegativeEnd heap ns <->
   BuildUndirected heap ns compact = Done (None, Some NodeIDOutOfRange)) /\
  (~ someNegativeEnd heap ns <->
   exists g, BuildUndirected heap ns compact = Done (Some g, None)).
Proof.
  intros Hp.
  assert (H1 : someNegativeEnd heap ns ->
    BuildUndirected heap ns compact = Done (None, Some NodeIDOutOfRange))
    by (by apply BuildUndirected_negative).
  assert (H2 : ~ someNegativeEnd heap ns ->
    exists g, BuildUndirected heap ns compact = Done (Some g, None)).
  { intros Hn. apply BuildUndirected_returns_graph.
    by apply not_negative_nonNegative. }
  split; split; try done.
  - intros E.
    destruct (present_split heap (concat (nodeEdges <$> ns))) as [Hg|Hb].
    + intros r (l & Hr & Hl)%elem_of_concat.
      apply list_elem_of_fmap in Hl as (n & -> & Hn). by apply (Hp n r).
    + exfalso. destruct H2 as [g Hg'].
      * intros (n & r & e & a & b & Hn & Hr & He & Hu & Hv & Hneg).
        destruct (Hg r) as (e' & a' & b' & He' & Hu' & Hv' & ? & ?).
        { apply elem_of_concat. exists (nodeEdges n). split; [done|].
          apply list_elem_of_fmap. eauto. }
        assert (e' = e) as -> by congruence.
        assert (a' = a) as -> by congruence.
        assert (b' = b) as -> by congruence. lia.
      * congruence.
    + destruct Hb as (r & e & a & b & (l & Hr & Hl)%elem_of_concat & Hrest).
      apply list_elem_of_fmap in Hl as (n & -> & Hn).
      exists n, r, e, a, b. done.
  - intros [g Hg] Hn. rewrite (H1 Hn) in Hg. done.
Qed.

Lemma twoEdges_present : edgesPresent twoEdges twoEdgesNodes.
Proof.
  intros n r Hn Hr. unfold twoEdgesNodes in Hn.
  assert (Hr' : r = 0%nat \/ r = 1%nat).
  { repeat (apply elem_of_cons in Hn as [->|Hn]); [| |inversion Hn];
      simpl in Hr; repeat (apply elem_of_cons in Hr as [->|Hr]);
      auto; inversion Hr. }
  destruct Hr' as [->| ->]; eexists _, _, _; split_and!; reflexivity.
Qed.

Lemma BuildUndirected_error_iff_negative_end_witness :
  edgesPresent twoEdges twoEdgesNodes /\
  (someNegativeEnd twoEdges twoEdgesNodes <->
   BuildUndirected twoEdges twoEdgesNodes false
     = Done (None, Some NodeIDOutOfRange)) /\
  (~ someNegativeEnd twoEdges twoEdgesNodes <->
   exists g, BuildUndirected twoEdges twoEdgesNodes false = Done (Some g, None)).
Proof.
  split; [exact twoEdges_present|].
  exact (BuildUndirected_error_iff_negative_end twoEdges twoEdgesNodes false
           twoEdges_present).
Defined.

(** X25: when no edge the nodes list has a negative end,
    [BuildUndirected] copies every edge once, however many nodes list it
    and however often, in the order in which the nodes and their
    incidence lists reach it first.  A copy keeps the ends, the weight
    and the flags; it keeps the id without [compact] and gets its
    position in the edge array as id with [compact].  The graph has a
    node for every node of the receiver and for both ends of every edge,
    and no id twice. *)
Theorem BuildUndirected_copies_each_edge_once (heap : list edge)
    (ns : list node) (compact : bool) :
  edgesNonNegative heap ns ->
  exists g,
    BuildUndirected heap ns compact = Done (Some g, None) /\
    compEdges g =
      copies heap compact 0 (firstSeen ∅ (concat (nodeEdges <$> ns))) /\
    length (compEdges g)
      = size (list_to_set (C := gset nat) (concat (nodeEdges <$> ns))) /\
    (forall n, n ∈ ns -> nodeID n ∈ ids g) /\
    NoDup (ids g) /\ endsIn g.
Proof.
  intros H. unfold BuildUndirected.
  destruct (buildNodes_spec heap compact ns ∅ NewUndirected H
              (NoDup_nil_2 : NoDup (ids NewUndirected)) NewUndirected_endsIn)
    as (g & -> & C & _ & Hin & Hnd & Hends).
  rewrite bind_Done. exists g. simpl in C. split_and!; try done.
  rewrite C, length_copies.
  - apply firstSeen_size.
  - intros r Hr%elem_of_firstSeen.
    apply elem_of_concat in Hr as (l & Hr & Hl).
    apply list_elem_of_fmap in Hl as (n & -> & Hn).
    destruct (H n r Hn Hr) as (e & _ & _ & -> & _). eauto.
Qed.

Lemma twoEdges_nonNegative : edgesNonNegative twoEdges twoEdgesNodes.
Proof.
  intros n r Hn Hr. unfold twoEdgesNodes in Hn.
  assert (Hr' : r = 0%nat \/ r = 1%nat).
  { repeat (apply elem_of_cons in Hn as [->|Hn]); [| |inversion Hn];
      simpl in Hr; repeat (apply elem_of_cons in Hr as [->|Hr]);
      auto; inversion Hr. }
  destruct Hr' as [->| ->]; eexists _, _, _;
    (split_and!; [reflexivity|reflexivity|reflexivity|lia|lia]).
Qed.

Lemma BuildUndirected_copies_each_edge_once_witness :
  edgesNonNegative twoEdges twoEdgesNodes /\
  exists g,
    BuildUndirected twoEdges twoEdgesNodes true = Done (Some g, None) /\
    compEdges g =
      copies twoEdges true 0
        (firstSeen ∅ (concat (nodeEdges <$> twoEdgesNodes))) /\
    length (compEdges g)
      = size (list_to_set (C := gset nat)
                (concat (nodeEdges <$> twoEdgesNodes))) /\
    (forall n, n ∈ twoEdgesNodes -> nodeID n ∈ ids g) /\
    NoDup (ids g) /\ endsIn g.
Proof.
  split; [exact twoEdges_nonNegative|].
  exact (BuildUndirected_copies_each_edge_once twoEdges twoEdgesNodes true
           twoEdges_nonNegative).
Defined.

(** ** The merge as a union by size, and the context after init *)

(** [merge] with the label that is kept made explicit. *)
Lemma merge_union g ka e ta hb :
  overlay g (ka_ind ka) ->
  eu e = Some ta -> ev e = Some hb -> ta ∈ ids g -> hb ∈ ids g ->
  labelOf (ka_ind ka) hb <> labelOf (ka_ind ka) ta ->
  let hl := labelOf (ka_ind ka) hb in
  let tl := labelOf (ka_ind ka) ta in
  let small :=
    (length (default [] (nodesAt (ka_ind ka) hl))
     <? length (default [] (nodesAt (ka_ind ka) tl)))%nat in
  let a := if small then tl else hl in
  let b := if small then hl else tl in
  exists ka' M,
    merge ka e = Done ka' /\
    ka_g ka' = ka_g ka /\ ka_sel ka' = ka_sel ka /\
    ka_c ka' = ka_c ka /\ ka_w ka' = ka_w ka /\
    ka_order ka' = ka_order ka - 1 /\
    (forall j, j ∈ ids g ->
       labelOf (ka_ind ka') j =
       if decide (labelOf (ka_ind ka) j = b) then a else labelOf (ka_ind ka) j) /\
    nodesAt (ka_ind ka') a = Some M /\ NoDup M /\
    (forall i, i ∈ M <->
       i ∈ ids g /\ (labelOf (ka_ind ka) i = hl \/ labelOf (ka_ind ka) i = tl)).
Proof.
  intros Hov Hu Hv Hta Hhb Hdiff.
  set (ind := ka_ind ka) in *.
  destruct (ov_dom _ _ Hov ta Hta) as [[st Hst] _].
  destruct (ov_dom _ _ Hov hb Hhb) as [[sh Hsh] _].
  destruct (overlay_rep_get g ind hb Hov Hhb) as (shl & Hshl & Lhl & Hhl).
  destruct (overlay_rep_get g ind ta Hov Hta) as (stl & Hstl & Ltl & Htl).
  assert (Eh : label sh = labelOf ind hb) by (unfold labelOf; by rewrite Hsh).
  assert (Et : label st = labelOf ind ta) by (unfold labelOf; by rewrite Hst).
  intros hl tl. fold hl tl in Hshl, Lhl, Hhl, Hstl, Ltl, Htl, Eh, Et, Hdiff.
  assert (Lh : labelOf ind hl = hl) by (unfold labelOf; by rewrite Hshl).
  assert (Lt : labelOf ind tl = tl) by (unfold labelOf; by rewrite Hstl).
  cbv zeta.
  unfold merge, HeadID, TailID. fold ind. rewrite Hu, Hv, !bind_Done.
  rewrite (atZ_Some _ _ _ Hsh), bind_Done.
  rewrite (atZ_Some _ _ _ Hst), bind_Done.
  rewrite Eh, Et.
  rewrite (atZ_Some _ _ _ Hshl), bind_Done.
  rewrite (atZ_Some _ _ _ Hstl), bind_Done.
  rewrite (lenNodes_nodesAt ind hl shl Hshl), (lenNodes_nodesAt ind tl stl Hstl).
  destruct (Nat.ltb_spec (length (default [] (nodesAt ind hl)))
              (length (default [] (nodesAt ind tl)))) as [Hlt|Hge].
  - destruct (absorb_spec g ind ta hb tl hl Hov Hta Hhb eq_refl eq_refl)
      as (ind' & M & -> & HND & HM & Hsome & Hlab & Hnh & Hno);
      [congruence|lia|].
    assert (Hne' : tl <> hl) by congruence.
    destruct (overlay_after g ind ind' tl hl M Hov Htl Hhl Lt Lh Hne'
                HND HM Hsome Hlab Hnh Hno) as (Hov' & Hset & Hl').
    rewrite bind_Done. eexists _, M. split; [reflexivity|]. simpl.
    split_and!; try done. intros i. rewrite HM. fold tl hl. tauto.
  - destruct (absorb_spec g ind hb ta hl tl Hov Hhb Hta eq_refl eq_refl)
      as (ind' & M & -> & HND & HM & Hsome & Hlab & Hnh & Hno);
      [congruence|lia|].
    destruct (overlay_after g ind ind' hl tl M Hov Hhl Htl Lh Lt Hdiff
                HND HM Hsome Hlab Hnh Hno) as (Hov' & Hset & Hl').
    rewrite bind_Done. eexists _, M. split; [reflexivity|]. simpl.
    split_and!; try done.
Qed.

(** X26: the merge of the contraction loop is a union by size.  For an
    edge of the graph whose ends have different labels, [merge] gives the
    nodes of both supernodes one label and leaves the label of every
    other node alone; the label kept is that of the supernode with the
    longer member list, the one of the head of the edge when neither is
    longer; its member list afterwards holds, once each, exactly the
    nodes of the two supernodes.  The graph, the selector, the cut and
    the weight of the context are not touched. *)
Theorem merge_is_union_by_size (g : Undirected) (ka : kargerR) (e : edge) :
  wfGraph g = true -> stateInv g ka -> e ∈ compEdges g ->
  loop ka e = Done false ->
  exists ta hb ka' M,
    eu e = Some ta /\ ev e = Some hb /\
    merge ka e = Done ka' /\
    ka_g ka' = ka_g ka /\ ka_sel ka' = ka_sel ka /\
    ka_c ka' = ka_c ka /\ ka_w ka' = ka_w ka /\
    let hl := labelOf (ka_ind ka) hb in
    let tl := labelOf (ka_ind ka) ta in
    let small :=
      (length (default [] (nodesAt (ka_ind ka) hl))
       <? length (default [] (nodesAt (ka_ind ka) tl)))%nat in
    let a := if small then tl else hl in
    let b := if small then hl else tl in
    hl <> tl /\
    (forall j, j ∈ ids g ->
       labelOf (ka_ind ka') j =
       if decide (labelOf (ka_ind ka) j = b) then a else labelOf (ka_ind ka) j) /\
    nodesAt (ka_ind ka') a = Some M /\ NoDup M /\
    (forall i, i ∈ M <->
       i ∈ ids g /\ (labelOf (ka_ind ka) i = hl \/ labelOf (ka_ind ka) i = tl)).
Proof.
  intros Hwf (Hg & Hov & Hord) He Hl.
  destruct (loop_false_labels g ka e Hov Hwf He Hl)
    as (ta & hb & Hu & Hv & Hta & Hhb & Hdiff).
  destruct (merge_union g ka e ta hb Hov Hu Hv Hta Hhb Hdiff)
    as (ka' & M & Hm & Hg' & Hs' & Hc' & Hw' & _ & Hlab & Hn & Hnd & HM).
  exists ta, hb, ka', M. cbv zeta. split_and!; done.
Qed.

Lemma triangleInit_stateInv : stateInv triangle triangleInit.
Proof.
  apply reachable_stateInv; [vm_compute; reflexivity|].
  apply triangleInit_reachable.
Qed.

Lemma merge_is_union_by_size_witness :
  (wfGraph triangle = true /\ stateInv triangle triangleInit /\
   mkEdge 1 (Some 1) (Some 2) 1 0 ∈ compEdges triangle /\
   loop triangleInit (mkEdge 1 (Some 1) (Some 2) 1 0) = Done false) /\
  exists ta hb ka' M,
    eu (mkEdge 1 (Some 1) (Some 2) 1 0) = Some ta /\
    ev (mkEdge 1 (Some 1) (Some 2) 1 0) = Some hb /\
    merge triangleInit (mkEdge 1 (Some 1) (Some 2) 1 0) = Done ka' /\
    ka_g ka' = ka_g triangleInit /\ ka_sel ka' = ka_sel triangleInit /\
    ka_c ka' = ka_c triangleInit /\ ka_w ka' = ka_w triangleInit /\
    let hl := labelOf (ka_ind triangleInit) hb in
    let tl := labelOf (ka_ind triangleInit) ta in
    let small :=
      (length (default [] (nodesAt (ka_ind triangleInit) hl))
       <? length (default [] (nodesAt (ka_ind triangleInit) tl)))%nat in
    let a := if small then tl else hl in
    let b := if small then hl else tl in
    hl <> tl /\
    (forall j, j ∈ ids triangle ->
       labelOf (ka_ind ka') j =
       if decide (labelOf (ka_ind triangleInit) j = b) then a
       else labelOf (ka_ind triangleInit) j) /\
    nodesAt (ka_ind ka') a = Some M /\ NoDup M /\
    (forall i, i ∈ M <->
       i ∈ ids triangle /\
       (labelOf (ka_ind triangleInit) i = hl \/
        labelOf (ka_ind triangleInit) i = tl)).
Proof.
  assert (H1 : wfGraph triangle = true) by (vm_compute; reflexivity).
  assert (H3 : mkEdge 1 (Some 1) (Some 2) 1 0 ∈ compEdges triangle).
  { cbn. apply elem_of_cons. right. apply elem_of_cons. by left. }
  assert (H4 : loop triangleInit (mkEdge 1 (Some 1) (Some 2) 1 0) = Done false)
    by (vm_compute; reflexivity).
  split; [split_and!; [exact H1|exact triangleInit_stateInv|exact H3|exact H4]|].
  exact (merge_is_union_by_size triangle triangleInit _ H1
           triangleInit_stateInv H3 H4).
Defined.

(** * The selector in float64 arithmetic *)

(** ** What [Init] computes *)

Lemma f64_length_resetTotals s : length (F64.resetTotals s) = length s.
Proof. unfold F64.resetTotals. apply length_map. Qed.

Lemma f64_length_addTotal p d s : length (F64.addTotal p d s) = length s.
Proof. unfold F64.addTotal. destruct (s !! p); [apply length_insert | done]. Qed.

Lemma f64_length_accumulate i s : length (F64.accumulate i s) = length s.
Proof.
  revert s. induction i as [|j IH]; intros s; simpl; [done|].
  rewrite IH. destruct (s !! S j); [apply f64_length_addTotal | done].
Qed.

Lemma f64_length_Init s : length (F64.Init s) = length s.
Proof.
  unfold F64.Init. by rewrite f64_length_accumulate, f64_length_resetTotals.
Qed.

Lemma f64_skeleton_insert_setTotal (s : F64.Selector) p it t :
  s !! p = Some it ->
  F64.skeleton (<[p := F64.setTotal t it]> s) = F64.skeleton s.
Proof.
  intros H. unfold F64.skeleton.
  change map with (@fmap list _). rewrite list_fmap_insert. simpl.
  apply list_insert_id. by rewrite list_lookup_fmap, H.
Qed.

Lemma f64_skeleton_addTotal p d s :
  F64.skeleton (F64.addTotal p d s) = F64.skeleton s.
Proof.
  unfold F64.addTotal. destruct (s !! p) eqn:E; [|done].
  by apply f64_skeleton_insert_setTotal.
Qed.

Lemma f64_skeleton_accumulate i s :
  F64.skeleton (F64.accumulate i s) = F64.skeleton s.
Proof.
  revert s. induction i as [|j IH]; intros s; simpl; [done|].
  rewrite IH. destruct (s !! S j); [apply f64_skeleton_addTotal | done].
Qed.

Lemma f64_skeleton_resetTotals s :
  F64.skeleton (F64.resetTotals s) = F64.skeleton s.
Proof. unfold F64.skeleton, F64.resetTotals. rewrite map_map. done. Qed.

Lemma f64_resetTotals_skeleton s :
  F64.resetTotals s =
  map (fun p => F64.mkItem (fst p) (snd p) (snd p)) (F64.skeleton s).
Proof. unfold F64.resetTotals, F64.skeleton. rewrite map_map. done. Qed.

Lemma f64_skeleton_Init s : F64.skeleton (F64.Init s) = F64.skeleton s.
Proof.
  unfold F64.Init. by rewrite f64_skeleton_accumulate, f64_skeleton_resetTotals.
Qed.

(** [Init] reads the indices and the weights only. *)
Lemma f64_Init_skeleton s s' :
  F64.skeleton s = F64.skeleton s' -> F64.Init s = F64.Init s'.
Proof.
  intros H. unfold F64.Init.
  assert (Hl : length s = length s').
  { apply (f_equal length) in H. unfold F64.skeleton in H.
    by rewrite !length_map in H. }
  by rewrite Hl, !f64_resetTotals_skeleton, H.
Qed.

Lemma f64_Init_idempotent s : F64.Init (F64.Init s) = F64.Init s.
Proof. apply f64_Init_skeleton, f64_skeleton_Init. Qed.

Lemma f64_lookup_addTotal p d (s : F64.Selector) j :
  F64.addTotal p d s !! j =
  if decide (j = p)
  then (fun x => F64.setTotal (F64.total x + d)%float x) <$> s !! j
  else s !! j.
Proof.
  unfold F64.addTotal. destruct (s !! p) as [it|] eqn:E.
  - destruct (decide (j = p)) as [->|Hne].
    + rewrite list_lookup_insert_eq by (by eapply lookup_lt_Some). by rewrite E.
    + by rewrite list_lookup_insert_ne.
  - destruct (decide (j = p)) as [->|Hne]; [by rewrite E | done].
Qed.

Lemma f64_contrib_below i (s : F64.Selector) c t :
  (c <= i)%nat -> F64.contrib i s c t = t.
Proof.
  intros H. unfold F64.contrib. destruct (s !! c); [|done].
  by rewrite decide_False by lia.
Qed.

Lemma f64_contrib_other k p d (s : F64.Selector) c t :
  (p <= k)%nat -> c <> S k ->
  F64.contrib k (F64.addTotal p d s) c t = F64.contrib (S k) s c t.
Proof.
  intros Hp Hc. destruct (decide (c <= k)%nat) as [Hle|Hgt].
  - by rewrite !f64_contrib_below by lia.
  - unfold F64.contrib. rewrite f64_lookup_addTotal.
    rewrite decide_False by lia.
    destruct (s !! c); [|done].
    by rewrite !decide_True by lia.
Qed.

Lemma f64_contrib_here k p d (s : F64.Selector) it t :
  (p <= k)%nat -> s !! S k = Some it ->
  F64.contrib k (F64.addTotal p d s) (S k) t = (t + F64.total it)%float.
Proof.
  intros Hp Hit. unfold F64.contrib. rewrite f64_lookup_addTotal.
  rewrite decide_False by lia. rewrite Hit.
  by rewrite decide_True by lia.
Qed.

(** One round of the second loop of [Init]: the total at [S k] goes to
    its parent, which has received its right child already when [S k] is
    the left one. *)
Lemma f64_partOrder_step k (s : F64.Selector) it :
  s !! S k = Some it ->
  F64.partOrder (S k) s ->
  F64.partOrder k (F64.addTotal (parent (S k)) (F64.total it) s).
Proof.
  intros Hit Hp j x Hx.
  pose proof (parent_lt k) as Hpl.
  pose proof (parent_child k) as Hpc.
  set (p := parent (S k)) in *.
  rewrite f64_lookup_addTotal in Hx.
  unfold F64.sumAbove.
  destruct (decide (j = p)) as [->|Hne].
  - destruct (s !! p) as [y|] eqn:Ey; [|done].
    simpl in Hx. injection Hx as <-.
    pose proof (Hp p y Ey) as Hy. unfold F64.sumAbove in Hy.
    cbn [F64.setTotal F64.Weight F64.total].
    destruct Hpc as [E|E].
    + (* [S k] is the left child *)
      rewrite <- E in Hy |- *.
      rewrite (f64_contrib_here k p _ s it) by done.
      rewrite f64_contrib_other by lia.
      rewrite f64_contrib_below in Hy by lia.
      by rewrite Hy.
    + (* [S k] is the right child *)
      rewrite <- E in Hy |- *.
      rewrite (f64_contrib_here k p _ s it) by done.
      rewrite f64_contrib_below by lia.
      rewrite !f64_contrib_below in Hy by lia.
      by rewrite Hy.
  - pose proof (Hp j x Hx) as Hy. unfold F64.sumAbove in Hy.
    rewrite !f64_contrib_other by lia. done.
Qed.

Lemma f64_resetTotals_total (s : F64.Selector) j x :
  F64.resetTotals s !! j = Some x -> F64.total x = F64.Weight x.
Proof.
  unfold F64.resetTotals. change map with (@fmap list _).
  rewrite list_lookup_fmap. destruct (s !! j); [|done].
  simpl. by intros [= <-].
Qed.

Lemma f64_accumulate_treeOrder i (s : F64.Selector) :
  (i < length s)%nat -> F64.partOrder i s ->
  F64.treeOrder (F64.accumulate i s).
Proof.
  revert s. induction i as [|k IH]; intros s Hlt Hp; [exact Hp|].
  simpl F64.accumulate.
  destruct (lookup_lt_is_Some_2 s (S k) Hlt) as [it Hit]. rewrite Hit.
  apply IH; [rewrite f64_length_addTotal; lia|].
  by apply f64_partOrder_step.
Qed.

(** After [Init] the tree of sums is in place, in the order of the
    additions of the code. *)
Lemma f64_Init_treeOrder s : F64.treeOrder (F64.Init s).
Proof.
  unfold F64.Init. destruct (decide (s = [])) as [->|Hne].
  { intros j x Hx. done. }
  assert (Hlen : (0 < length s)%nat) by (destruct s; [done | simpl; lia]).
  pose proof (f64_length_resetTotals s) as Hl.
  apply f64_accumulate_treeOrder; [lia|].
  intros j x Hx. unfold F64.sumAbove, F64.contrib.
  destruct (F64.resetTotals s !! (2 * j + 2)%nat) as [r|] eqn:Er.
  - apply lookup_lt_Some in Er. rewrite decide_False by lia.
    destruct (F64.resetTotals s !! (2 * j + 1)%nat) as [l|] eqn:El.
    + apply lookup_lt_Some in El. rewrite decide_False by lia.
      revert Hx. apply f64_resetTotals_total.
    + revert Hx. apply f64_resetTotals_total.
  - destruct (F64.resetTotals s !! (2 * j + 1)%nat) as [l|] eqn:El.
    + apply lookup_lt_Some in El. rewrite decide_False by lia.
      revert Hx. apply f64_resetTotals_total.
    + revert Hx. apply f64_resetTotals_total.
Qed.

(** ** What [Select] changes *)

Lemma f64_length_subTotal p w s :
  length (F64.subTotal p w s) = length s.
Proof. unfold F64.subTotal. destruct (s !! p); [apply length_insert | done]. Qed.

Lemma f64_lookup_subTotal p w (s : F64.Selector) j :
  F64.subTotal p w s !! j =
  if decide (j = p)
  then (fun x => F64.setTotal (F64.total x - w)%float x) <$> s !! j
  else s !! j.
Proof.
  unfold F64.subTotal. destruct (s !! p) as [it|] eqn:E.
  - destruct (decide (j = p)) as [->|Hne].
    + rewrite list_lookup_insert_eq by (by eapply lookup_lt_Some). by rewrite E.
    + by rewrite list_lookup_insert_ne.
  - destruct (decide (j = p)) as [->|Hne]; [by rewrite E | done].
Qed.

Lemma f64_length_ascend i w s : length (F64.ascend i w s) = length s.
Proof.
  revert s. induction i as [p IH|p IH|]; intros s; simpl;
    rewrite ?IH; apply f64_length_subTotal.
Qed.

(** The last loop of [Select] subtracts [w] once from the total of every
    position on the path to the root and touches nothing else. *)
Lemma f64_lookup_ascend i w (s : F64.Selector) j :
  F64.ascend i w s !! j =
  if decide (j ∈ pos0 <$> ancestors i)
  then (fun x => F64.setTotal (F64.total x - w)%float x) <$> s !! j
  else s !! j.
Proof.
  revert s. induction i as [p IH|p IH|]; intros s.
  - change (F64.ascend p~1 w s)
      with (F64.ascend p w (F64.subTotal (pos0 p~1) w s)).
    rewrite IH, f64_lookup_subTotal.
    change (ancestors p~1) with (p~1 :: ancestors p)%positive.
    rewrite fmap_cons.
    destruct (decide (j = pos0 p~1)) as [->|Hne].
    + rewrite decide_False.
      2:{ intros (a & Ha & Hin)%list_elem_of_fmap. apply ancestors_le in Hin.
          rewrite <- Ha, pos0_xI in Hin. unfold pos0 in Hin.
          pose proof (Pos2Nat.is_pos p); lia. }
      rewrite decide_True by (apply elem_of_cons; by left). done.
    + destruct (decide (j ∈ pos0 <$> ancestors p)) as [Hin|Hnin].
      * rewrite decide_True by (apply elem_of_cons; by right). done.
      * rewrite decide_False; [done|].
        rewrite elem_of_cons. intros [?|?]; done.
  - change (F64.ascend p~0 w s)
      with (F64.ascend p w (F64.subTotal (pos0 p~0) w s)).
    rewrite IH, f64_lookup_subTotal.
    change (ancestors p~0) with (p~0 :: ancestors p)%positive.
    rewrite fmap_cons.
    destruct (decide (j = pos0 p~0)) as [->|Hne].
    + rewrite decide_False.
      2:{ intros (a & Ha & Hin)%list_elem_of_fmap. apply ancestors_le in Hin.
          rewrite <- Ha, pos0_xO in Hin. unfold pos0 in Hin.
          pose proof (Pos2Nat.is_pos p); lia. }
      rewrite decide_True by (apply elem_of_cons; by left). done.
    + destruct (decide (j ∈ pos0 <$> ancestors p)) as [Hin|Hnin].
      * rewrite decide_True by (apply elem_of_cons; by right). done.
      * rewrite decide_False; [done|].
        rewrite elem_of_cons. intros [?|?]; done.
  - simpl F64.ascend. rewrite f64_lookup_subTotal. simpl ancestors.
    rewrite fmap_cons. simpl fmap.
    destruct (decide (j = pos0 1)) as [->|Hne].
    + rewrite decide_True by (apply elem_of_cons; by left). done.
    + rewrite decide_False; [done|].
      rewrite elem_of_cons. intros [?|H]; [done|inversion H].
Qed.

Lemma f64_Select_unfold_ok (s : F64.Selector) u root :
  s !! 0%nat = Some root ->
  (F64.total root =? 0)%float = false ->
  F64.Select s u =
  match F64.descend (length s) s (F64.total root * u)%float 1%positive with
  | Done i =>
      match s !! pos0 i with
      | Some it =>
          Done (F64.ascend i (F64.Weight it)
                  (<[pos0 i := F64.setWeight 0%float it]> s),
                F64.Index it, None)
      | None => Panicked
      end
  | Panicked => Panicked
  | Timeout => Timeout
  end.
Proof.
  intros Hroot Hne. unfold F64.Select, at_. rewrite Hroot.
  unfold mbind, outcome_bind, obind. rewrite Hne.
  destruct (F64.descend _ _ _ _); [|done..].
  destruct (s !! pos0 a); done.
Qed.

(** The selector after the weight at [pos0 k] is set to [w] and the last
    loop of [Select] or [Weight] has subtracted [d] along the path. *)
Lemma f64_update_lookup (s : F64.Selector) k it w d j x :
  s !! pos0 k = Some it -> s !! j = Some x ->
  exists x',
    F64.ascend k d (<[pos0 k := F64.setWeight w it]> s) !! j = Some x' /\
    F64.Index x' = F64.Index x /\
    F64.Weight x' = (if decide (j = pos0 k) then w else F64.Weight x) /\
    (ancestorOrSelf j (pos0 k) -> F64.total x' = (F64.total x - d)%float) /\
    (~ ancestorOrSelf j (pos0 k) -> F64.total x' = F64.total x).
Proof.
  intros Hit Hj. rewrite f64_lookup_ascend.
  assert (Hins : (<[pos0 k := F64.setWeight w it]> s) !! j =
            Some (if decide (j = pos0 k) then F64.setWeight w x else x)).
  { destruct (decide (j = pos0 k)) as [->|Hne].
    - rewrite list_lookup_insert_eq by (by eapply lookup_lt_Some).
      congruence.
    - by rewrite list_lookup_insert_ne. }
  rewrite Hins. simpl.
  destruct (decide (j ∈ pos0 <$> ancestors k)) as [Hin|Hnin].
  - eexists; split; [reflexivity|]. simpl.
    apply elem_of_pos0_ancestors in Hin.
    destruct (decide (j = pos0 k)); simpl; repeat split; try done.
  - eexists; split; [reflexivity|].
    rewrite elem_of_pos0_ancestors in Hnin.
    destruct (decide (j = pos0 k)); simpl; repeat split; try done.
Qed.

(** ** Claims on the selector, in float64 *)

(** C5, as the code has it: [Init] keeps the length, every [Index] and
    every [Weight]; it leaves at every position the float64 value
    [(Weight + total of the right child) + total of the left child], each
    addition rounded, so that the root total is the sum of all the weights
    up to the rounding of these additions; and [Init] is idempotent: a
    second call leaves exactly the state of the first. *)
Theorem Init_float64_tree_and_idempotent (s : F64.Selector) :
  length (F64.Init s) = length s /\
  F64.skeleton (F64.Init s) = F64.skeleton s /\
  F64.treeOrder (F64.Init s) /\
  F64.Init (F64.Init s) = F64.Init s.
Proof.
  split_and!.
  - apply f64_length_Init.
  - apply f64_skeleton_Init.
  - apply f64_Init_treeOrder.
  - apply f64_Init_idempotent.
Qed.

(** C5 fails as stated: with the float64 weights nearest to 0.1, 0.2 and
    0.3, all positive, the root total after [Init] is
    0.60000000000000009, which is not the sum of the three weights. *)
Lemma Init_float64_root_is_not_the_sum :
  (1 <= length tenths)%nat /\
  (forall it, it ∈ tenths -> (0 <= toQ (F64.Weight it))%Q) /\
  F64.rootTotal (F64.Init tenths) = 0x1.3333333333334p-1%float /\
  ~ (toQ (F64.rootTotal (F64.Init tenths)) == exactSum tenths)%Q.
Proof.
  split_and!.
  - simpl. lia.
  - intros it Hin. unfold tenths in Hin.
    repeat (apply elem_of_cons in Hin as [->|Hin]; [vm_compute; discriminate|]).
    inversion Hin.
  - vm_compute. reflexivity.
  - vm_compute. discriminate.
Qed.

(** C6, as the code has it: whenever [Select] returns without an error,
    it has chosen a position [i] of the selector: the returned index is
    that item's [Index], its [Weight] is set to 0 and every other [Weight]
    and every [Index] is unchanged; the chosen weight is subtracted, in
    float64, from the total of [i] and of each of its ancestors and from
    no other total, so the new root total is the rounded difference of the
    old root total and the weight the item had before the call. *)
Theorem Select_float64_effects
  (s s' : F64.Selector) (u : float64) (idx : Z) :
  F64.Select s u = Done (s', idx, None) ->
  exists (i : nat) (it : F64.WeightedItem),
    s !! i = Some it /\
    idx = F64.Index it /\
    length s' = length s /\
    (forall j x, s !! j = Some x ->
       exists x', s' !! j = Some x' /\
         F64.Index x' = F64.Index x /\
         F64.Weight x' =
           (if decide (j = i) then 0%float else F64.Weight x) /\
         (ancestorOrSelf j i ->
            F64.total x' = (F64.total x - F64.Weight it)%float) /\
         (~ ancestorOrSelf j i -> F64.total x' = F64.total x)) /\
    F64.rootTotal s' = (F64.rootTotal s - F64.Weight it)%float.
Proof.
  intros HS.
  destruct (s !! 0%nat) as [root|] eqn:Hroot.
  2:{ unfold F64.Select, at_ in HS. rewrite Hroot in HS. done. }
  destruct (F64.total root =? 0)%float eqn:Hz.
  { unfold F64.Select, at_ in HS. rewrite Hroot in HS.
    unfold mbind, outcome_bind, obind in HS. rewrite Hz in HS. done. }
  rewrite (f64_Select_unfold_ok s u root Hroot Hz) in HS.
  destruct (F64.descend _ _ _ _) as [k| |] eqn:Hd; [|done..].
  destruct (s !! pos0 k) as [it|] eqn:Hit; [|done].
  injection HS as <- <-.
  exists (pos0 k), it.
  assert (Hlookup := fun j x =>
    f64_update_lookup s k it 0%float (F64.Weight it) j x Hit).
  repeat split; try done.
  - by rewrite f64_length_ascend, length_insert.
  - unfold F64.rootTotal. rewrite Hroot.
    destruct (Hlookup 0%nat root Hroot) as (x' & -> & _ & _ & Hanc & _).
    apply Hanc, root_is_ancestor.
Qed.

Lemma Select_float64_effects_witness :
  F64.Select (F64.Init tenths) 0x1p-3%float
    = Done ([ F64.mkItem 0 0 0x1.0000000000001p-1;
              F64.mkItem 1 0x1.999999999999ap-3 0x1.999999999999ap-3;
              F64.mkItem 2 0x1.3333333333333p-2 0x1.3333333333333p-2 ]%float,
            0, None) /\
  exists (i : nat) (it : F64.WeightedItem),
    F64.Init tenths !! i = Some it /\
    0 = F64.Index it /\
    length [ F64.mkItem 0 0 0x1.0000000000001p-1;
             F64.mkItem 1 0x1.999999999999ap-3 0x1.999999999999ap-3;
             F64.mkItem 2 0x1.3333333333333p-2 0x1.3333333333333p-2 ]%float
      = length (F64.Init tenths) /\
    (forall j x, F64.Init tenths !! j = Some x ->
       exists x',
         [ F64.mkItem 0 0 0x1.0000000000001p-1;
           F64.mkItem 1 0x1.999999999999ap-3 0x1.999999999999ap-3;
           F64.mkItem 2 0x1.3333333333333p-2 0x1.3333333333333p-2 ]%float
           !! j = Some x' /\
         F64.Index x' = F64.Index x /\
         F64.Weight x' =
           (if decide (j = i) then 0%float else F64.Weight x) /\
         (ancestorOrSelf j i ->
            F64.total x' = (F64.total x - F64.Weight it)%float) /\
         (~ ancestorOrSelf j i -> F64.total x' = F64.total x)) /\
    F64.rootTotal
      [ F64.mkItem 0 0 0x1.0000000000001p-1;
        F64.mkItem 1 0x1.999999999999ap-3 0x1.999999999999ap-3;
        F64.mkItem 2 0x1.3333333333333p-2 0x1.3333333333333p-2 ]%float
      = (F64.rootTotal (F64.Init tenths) - F64.Weight it)%float.
Proof.
  split; [vm_compute; reflexivity|].
  apply (Select_float64_effects (F64.Init tenths) _ 0x1p-3%float 0).
  vm_compute. reflexivity.
Defined.

(** C6 fails as stated: on the initialised selector of 0.1, 0.2 and 0.3 a
    draw of 1/8 selects item 0, of weight 0.1, and the root total goes
    from 0.60000000000000009 to 0.50000000000000011: the decrease is not
    the weight of the selected item. *)
Lemma Select_float64_root_decrease_is_rounded :
  exists s',
    F64.Select (F64.Init tenths) 0x1p-3%float = Done (s', 0, None) /\
    F64.Init tenths !! 0%nat
      = Some (F64.mkItem 0 0x1.999999999999ap-4 0x1.3333333333334p-1)%float /\
    F64.rootTotal s' = 0x1.0000000000001p-1%float /\
    ~ (toQ (F64.rootTotal (F64.Init tenths)) - toQ (F64.rootTotal s')
       == toQ 0x1.999999999999ap-4%float)%Q.
Proof.
  eexists. split_and!.
  - vm_compute. reflexivity.
  - vm_compute. reflexivity.
  - vm_compute. reflexivity.
  - vm_compute. discriminate.
Qed.

(** ** The method Weight of the selector, in float64 *)

Lemma f64_Selector_Weight_unfold (s : F64.Selector) i w it :
  0 <= i -> s !! Z.to_nat i = Some it ->
  F64.Selector_Weight s i w =
  Done (F64.ascend (Z.to_pos (i + 1)) (F64.Weight it - w)%float
          (<[Z.to_nat i := F64.setWeight w it]> s)).
Proof.
  intros Hi Hit. unfold F64.Selector_Weight, atZ, at_.
  rewrite (proj2 (Z.ltb_ge i 0)) by done. by rewrite Hit.
Qed.

Lemma f64_Selector_Weight_lookup (s : F64.Selector) i it w j x :
  0 <= i -> s !! Z.to_nat i = Some it -> s !! j = Some x ->
  exists x',
    F64.ascend (Z.to_pos (i + 1)) (F64.Weight it - w)%float
      (<[Z.to_nat i := F64.setWeight w it]> s) !! j = Some x' /\
    F64.Index x' = F64.Index x /\
    F64.Weight x' = (if decide (j = Z.to_nat i) then w else F64.Weight x) /\
    (ancestorOrSelf j (Z.to_nat i) ->
       F64.total x' = (F64.total x - (F64.Weight it - w))%float) /\
    (~ ancestorOrSelf j (Z.to_nat i) -> F64.total x' = F64.total x).
Proof.
  intros Hi Hit Hj.
  rewrite <- (pos0_to_pos i Hi) in Hit |- *.
  by apply f64_update_lookup.
Qed.

(** X5: [s.Weight(i, w)] panics when [i] is not a position of the
    selector and returns otherwise.  It then sets the weight of item [i]
    to [w], leaves every other weight and every [Index] as they were, and
    takes the float64 difference between the old weight and [w] off the
    total of [i] and of each of its ancestors and off no other total. *)
Theorem Selector_Weight_float64_effects
  (s : F64.Selector) (i : Z) (w : float64) :
  match F64.Selector_Weight s i w with
  | Done s' =>
      0 <= i < Z.of_nat (length s) /\
      length s' = length s /\
      exists it, s !! Z.to_nat i = Some it /\
      (forall j x, s !! j = Some x ->
         exists x', s' !! j = Some x' /\
           F64.Index x' = F64.Index x /\
           F64.Weight x' =
             (if decide (j = Z.to_nat i) then w else F64.Weight x) /\
           (ancestorOrSelf j (Z.to_nat i) ->
              F64.total x' = (F64.total x - (F64.Weight it - w))%float) /\
           (~ ancestorOrSelf j (Z.to_nat i) -> F64.total x' = F64.total x))
  | Panicked => i < 0 \/ Z.of_nat (length s) <= i
  | Timeout => False
  end.
Proof.
  destruct (decide (i < 0)) as [Hneg|Hi].
  { unfold F64.Selector_Weight, atZ. rewrite (proj2 (Z.ltb_lt i 0)) by done.
    by left. }
  destruct (s !! Z.to_nat i) as [it|] eqn:Hit.
  2:{ unfold F64.Selector_Weight, atZ, at_.
      rewrite (proj2 (Z.ltb_ge i 0)) by lia. rewrite Hit.
      right. apply lookup_ge_None_1 in Hit. lia. }
  rewrite (f64_Selector_Weight_unfold s i w it) by (done || lia).
  split_and!.
  - lia.
  - apply lookup_lt_Some in Hit. lia.
  - by rewrite f64_length_ascend, length_insert.
  - exists it. split; [done|]. intros j x Hj.
    apply f64_Selector_Weight_lookup; (done || lia).
Qed.

(** X6: after a successful [Select], giving the selected item its old
    weight [w] back with [Weight] restores every [Index] and every
    [Weight], so that [Init] then gives the state it gives before the
    [Select].  The totals off the path to the selected item are what they
    were; a total [t] on the path is now the float64 value
    [(t - w) - (0 - w)]. *)
Theorem Select_then_Weight_float64
  (s s' : F64.Selector) (u : float64) (idx : Z) :
  F64.Select s u = Done (s', idx, None) ->
  exists (k : nat) (it : F64.WeightedItem) (s'' : F64.Selector),
    s !! k = Some it /\ idx = F64.Index it /\
    F64.Selector_Weight s' (Z.of_nat k) (F64.Weight it) = Done s'' /\
    F64.skeleton s'' = F64.skeleton s /\
    F64.Init s'' = F64.Init s /\
    (forall j x, s !! j = Some x ->
       exists x'', s'' !! j = Some x'' /\
         (ancestorOrSelf j k ->
            F64.total x'' =
              (F64.total x - F64.Weight it - (0 - F64.Weight it))%float) /\
         (~ ancestorOrSelf j k -> F64.total x'' = F64.total x)).
Proof.
  intros HS.
  destruct (s !! 0%nat) as [root|] eqn:Hroot.
  2:{ unfold F64.Select, at_ in HS. rewrite Hroot in HS. done. }
  destruct (F64.total root =? 0)%float eqn:Hz.
  { unfold F64.Select, at_ in HS. rewrite Hroot in HS.
    unfold mbind, outcome_bind, obind in HS. rewrite Hz in HS. done. }
  rewrite (f64_Select_unfold_ok s u root Hroot Hz) in HS.
  destruct (F64.descend _ _ _ _) as [k| |] eqn:Hd; [|done..].
  destruct (s !! pos0 k) as [it|] eqn:Hit; [|done].
  injection HS as <- <-.
  set (s' := F64.ascend k (F64.Weight it)
               (<[pos0 k := F64.setWeight 0%float it]> s)).
  assert (Hlk := fun j x =>
    f64_update_lookup s k it 0%float (F64.Weight it) j x Hit).
  fold s' in Hlk.
  destruct (Hlk _ _ Hit) as (it' & Hit' & Hidx' & Hw' & Hanc' & _).
  rewrite decide_True in Hw' by done.
  assert (Hk : Z.to_nat (Z.of_nat (pos0 k)) = pos0 k) by lia.
  assert (Hit'' : s' !! Z.to_nat (Z.of_nat (pos0 k)) = Some it')
    by (by rewrite Hk).
  assert (Hsk : F64.skeleton
            (F64.ascend (Z.to_pos (Z.of_nat (pos0 k) + 1))
               (F64.Weight it' - F64.Weight it)%float
               (<[Z.to_nat (Z.of_nat (pos0 k)) :=
                    F64.setWeight (F64.Weight it) it']> s'))
          = F64.skeleton s).
  { apply list_eq. intros j. unfold F64.skeleton.
    change map with (@fmap list _). rewrite !list_lookup_fmap.
    destruct (s !! j) as [x|] eqn:Ej.
    + destruct (Hlk j x Ej) as (x1 & Hx1 & Hi1 & Hw1 & _).
      destruct (f64_Selector_Weight_lookup s' (Z.of_nat (pos0 k)) it'
                  (F64.Weight it) j x1 ltac:(lia) Hit'' Hx1)
        as (x2 & -> & Hi2 & Hw2 & _).
      simpl. rewrite Hi2, Hi1, Hw2, Hw1, Hk.
      destruct (decide (j = pos0 k)) as [->|]; [|done]. congruence.
    + rewrite lookup_ge_None_2; [done|].
      rewrite f64_length_ascend, length_insert.
      unfold s'. rewrite f64_length_ascend, length_insert.
      by apply lookup_ge_None_1. }
  exists (pos0 k), it. eexists. split_and!; [done|done| |exact Hsk| |].
  - apply (f64_Selector_Weight_unfold s' _ _ it'); [lia|done].
  - by apply f64_Init_skeleton.
  - intros j x Ej.
    destruct (Hlk j x Ej) as (x1 & Hx1 & _ & _ & Ha1 & Hn1).
    destruct (f64_Selector_Weight_lookup s' (Z.of_nat (pos0 k)) it'
                (F64.Weight it) j x1 ltac:(lia) Hit'' Hx1)
      as (x2 & Hx2 & _ & _ & Ha2 & Hn2).
    rewrite Hk in Ha2, Hn2.
    exists x2. split; [exact Hx2|]. split.
    + intros Ha. by rewrite (Ha2 Ha), (Ha1 Ha), Hw'.
    + intros Hna. by rewrite (Hn2 Hna), (Hn1 Hna).
Qed.

Lemma Select_then_Weight_float64_witness :
  F64.Select (F64.Init fifths) 0x1.8p-1%float
    = Done ([ F64.mkItem 0 0x1.999999999999ap-4 0x1p-1;
              F64.mkItem 1 0x1.999999999999ap-2 0x1.999999999999ap-2;
              F64.mkItem 2 0 0 ]%float, 2, None) /\
  exists (k : nat) (it : F64.WeightedItem) (s'' : F64.Selector),
    F64.Init fifths !! k = Some it /\ 2 = F64.Index it /\
    F64.Selector_Weight
      [ F64.mkItem 0 0x1.999999999999ap-4 0x1p-1;
        F64.mkItem 1 0x1.999999999999ap-2 0x1.999999999999ap-2;
        F64.mkItem 2 0 0 ]%float
      (Z.of_nat k) (F64.Weight it) = Done s'' /\
    F64.skeleton s'' = F64.skeleton (F64.Init fifths) /\
    F64.Init s'' = F64.Init (F64.Init fifths) /\
    (forall j x, F64.Init fifths !! j = Some x ->
       exists x'', s'' !! j = Some x'' /\
         (ancestorOrSelf j k ->
            F64.total x'' =
              (F64.total x - F64.Weight it - (0 - F64.Weight it))%float) /\
         (~ ancestorOrSelf j k -> F64.total x'' = F64.total x)).
Proof.
  split; [vm_compute; reflexivity|].
  apply (Select_then_Weight_float64 (F64.Init fifths) _ 0x1.8p-1%float 2).
  vm_compute. reflexivity.
Defined.

(** * The cut that [FastRandMinCut] returns, in float64 *)


Lemma f64_merge_labelPart ka e :
  F64.merge ka e =
  match merge (labelPart ka) e with
  | Done kq =>
      Done (F64.mkKargerR (F64.ka_g ka) (ka_order kq) (ka_ind kq)
              (F64.ka_sel ka) (F64.ka_c ka) (F64.ka_w ka))
  | Panicked => Panicked
  | Timeout => Timeout
  end.
Proof.
  unfold F64.merge, merge. cbn [labelPart ka_ind ka_g ka_order ka_sel ka_c ka_w].
  destruct (HeadID e) as [hid| |]; [|done..]. rewrite !bind_Done.
  destruct (TailID e) as [tid| |]; [|done..]. rewrite !bind_Done.
  destruct (atZ (F64.ka_ind ka) hid) as [sh| |]; [|done..]. rewrite !bind_Done.
  destruct (atZ (F64.ka_ind ka) tid) as [st| |]; [|done..]. rewrite !bind_Done.
  destruct (atZ (F64.ka_ind ka) (label sh)) as [shl| |]; [|done..].
  rewrite !bind_Done.
  destruct (atZ (F64.ka_ind ka) (label st)) as [stl| |]; [|done..].
  rewrite !bind_Done.
  destruct (lenNodes shl <? lenNodes stl)%nat.
  - destruct (absorb tid hid (label st) (label sh) (F64.ka_ind ka));
      [|done..]. by rewrite !bind_Done.
  - destruct (absorb hid tid (label sh) (label st) (F64.ka_ind ka));
      [|done..]. by rewrite !bind_Done.
Qed.



(** ** Comparisons with [+Inf] *)


(** ** The contraction loop and the cut *)






(** ** [newKargerR] and [init] *)


(** ** Claims on [FastRandMinCut], in float64 *)




(** ** The context that [init] leaves, in float64 *)

Lemma f64_Init_lookup (s : F64.Selector) j x :
  s !! j = Some x ->
  exists x', F64.Init s !! j = Some x' /\
    F64.Index x' = F64.Index x /\ F64.Weight x' = F64.Weight x.
Proof.
  intros Hj. pose proof (f64_skeleton_Init s) as Hsk.
  assert (H : F64.skeleton (F64.Init s) !! j = F64.skeleton s !! j)
    by (by rewrite Hsk).
  unfold F64.skeleton in H. change map with (@fmap list _) in H.
  rewrite !list_lookup_fmap, Hj in H. simpl in H.
  destruct (F64.Init s !! j) as [x'|]; [|done].
  injection H as H1 H2. eauto.
Qed.

Lemma f64_init_spec weight g :
  wfGraph g = true -> 0 <= nextNodeID g ->
  exists ka0 ka,
    F64.newKargerR g = Done ka0 /\ F64.init weight ka0 = Done ka /\
    F64.ka_g ka = g /\ F64.ka_order ka = Order g /\
    F64.ka_sel ka
      = F64.Init (map (fun e => F64.mkItem (eid e) (weight e) 0) (Edges g)) /\
    F64.ka_c ka = [] /\
    forall j, get (F64.ka_ind ka) j =
      if decide (j ∈ ids g) then Some (mkSuper j None)
      else if decide (0 <= j < nextNodeID g) then Some (mkSuper (-1) None)
      else None.
Proof.
  intros Hwf Hn.
  destruct (init_spec g Hwf Hn)
    as (kq0 & kq & Hnewq & Hinitq & _ & _ & _ & _ & Hget).
  unfold newKargerR in Hnewq.
  destruct (make (mkSuper 0 None) (NextNodeID g)) as [ind0| |] eqn:Hmk;
    [|done..].
  rewrite bind_Done in Hnewq. injection Hnewq as <-.
  unfold init in Hinitq. cbn [ka_g ka_ind ka_sel ka_c ka_w] in Hinitq.
  destruct (labelNodes (Nodes g) _) as [ind| |] eqn:Hlab; [|done..].
  rewrite bind_Done in Hinitq.
  destruct (negb _) in Hinitq; [done|]. injection Hinitq as <-.
  cbn [ka_ind] in Hget.
  exists (F64.mkKargerR g 0 ind0
            (replicate (Size g) (F64.mkItem 0 0 0)) [] 0).
  exists (F64.mkKargerR g (Order g) ind
            (F64.Init (map (fun e => F64.mkItem (eid e) (weight e) 0)
                         (Edges g))) [] 0).
  split. { unfold F64.newKargerR. by rewrite Hmk, bind_Done. }
  split; [|done].
  unfold F64.init. cbn [F64.ka_g F64.ka_ind F64.ka_sel F64.ka_c F64.ka_w].
  rewrite Hlab, bind_Done.
  rewrite length_map, length_replicate. unfold Edges, Size.
  rewrite Nat.leb_refl. cbn [negb].
  rewrite drop_replicate, Nat.sub_diag. simpl.
  by rewrite app_nil_r.
Qed.

(** X27: on a well-formed graph [newKargerR] and [init] return, and the
    context they leave has every node as a supernode of its own, with its
    id as label and no member list, an order equal to the number of
    nodes and to the number of distinct labels, no cut, and a selector
    whose item at each position carries the id and the float64 weight of
    the edge at that position and whose totals are the rounded sums that
    [Init] builds. *)
Theorem init_float64_makes_singletons
  (weight : edge -> float64) (g : Undirected) :
  wfGraph g = true -> 0 <= nextNodeID g ->
  exists ka0 ka,
    F64.newKargerR g = Done ka0 /\ F64.init weight ka0 = Done ka /\
    F64.ka_g ka = g /\ F64.ka_c ka = [] /\
    F64.ka_order ka = Order g /\
    Z.of_nat (distinctLabels g (F64.ka_ind ka)) = Order g /\
    (forall i, i ∈ ids g ->
       labelOf (F64.ka_ind ka) i = i /\ nodesAt (F64.ka_ind ka) i = None) /\
    length (F64.ka_sel ka) = Size g /\
    F64.treeOrder (F64.ka_sel ka) /\
    (forall j e, compEdges g !! j = Some e ->
       exists it, F64.ka_sel ka !! j = Some it /\
                  F64.Index it = eid e /\ F64.Weight it = weight e).
Proof.
  intros Hwf Hn.
  destruct (f64_init_spec weight g Hwf Hn)
    as (ka0 & ka & Hnew & Hinit & Hg & Hord & Hsel & Hc & Hget).
  destruct (init_overlay g (F64.ka_ind ka) Hwf Hget) as [Hov Hsz].
  assert (Hlab : forall i, i ∈ ids g -> labelOf (F64.ka_ind ka) i = i).
  { intros i Hi. unfold labelOf. by rewrite Hget, decide_True by done. }
  exists ka0, ka. split_and!; try done.
  - rewrite Hsz. f_equal. apply distinctLabels_size.
  - intros i Hi. split; [by apply Hlab|].
    unfold nodesAt. rewrite Hget, decide_True by done. done.
  - rewrite Hsel, f64_length_Init. unfold Edges, Size. by rewrite length_map.
  - rewrite Hsel. apply f64_Init_treeOrder.
  - intros j e Hj. rewrite Hsel.
    assert (Hs : map (fun e => F64.mkItem (eid e) (weight e) 0) (Edges g) !! j
                 = Some (F64.mkItem (eid e) (weight e) 0)).
    { unfold Edges. change map with (@fmap list _).
      by rewrite list_lookup_fmap, Hj. }
    destruct (f64_Init_lookup _ j _ Hs) as (x' & Hx' & Hi & Hw). eauto.
Qed.

Lemma init_float64_makes_singletons_witness :
  (wfGraph triangle = true /\ 0 <= nextNodeID triangle) /\
  exists ka0 ka,
    F64.newKargerR triangle = Done ka0 /\
    F64.init unitWeight ka0 = Done ka /\
    F64.ka_g ka = triangle /\ F64.ka_c ka = [] /\
    F64.ka_order ka = Order triangle /\
    Z.of_nat (distinctLabels triangle (F64.ka_ind ka)) = Order triangle /\
    (forall i, i ∈ ids triangle ->
       labelOf (F64.ka_ind ka) i = i /\ nodesAt (F64.ka_ind ka) i = None) /\
    length (F64.ka_sel ka) = Size triangle /\
    F64.treeOrder (F64.ka_sel ka) /\
    (forall j e, compEdges triangle !! j = Some e ->
       exists it, F64.ka_sel ka !! j = Some it /\
                  F64.Index it = eid e /\ F64.Weight it = unitWeight e).
Proof.
  assert (H1 : wfGraph triangle = true) by (vm_compute; reflexivity).
  assert (H2 : 0 <= nextNodeID triangle) by (vm_compute; discriminate).
  split; [done|]. exact (init_float64_makes_singletons unitWeight triangle H1 H2).
Defined.

(** * What further iterations of the float64 driver do *)

Lemma f64_Select_exhausted (s : F64.Selector) u :
  F64.exhausted s -> F64.Select s u = Done (s, -1, Some SelectorEmpty).
Proof.
  intros (root & Hroot & Hz). unfold F64.Select, at_. rewrite Hroot.
  unfold mbind, outcome_bind, obind. by rewrite Hz.
Qed.

Lemma f64_Select_error (s s' : F64.Selector) u idx e :
  F64.Select s u = Done (s', idx, Some e) -> s' = s /\ F64.exhausted s.
Proof.
  intros HS.
  destruct (s !! 0%nat) as [root|] eqn:Hroot.
  2:{ unfold F64.Select, at_ in HS. rewrite Hroot in HS. done. }
  destruct (F64.total root =? 0)%float eqn:Hz.
  - unfold F64.Select, at_ in HS. rewrite Hroot in HS.
    unfold mbind, outcome_bind, obind in HS. rewrite Hz in HS.
    injection HS as <- _ _. split; [done|]. by exists root.
  - rewrite (f64_Select_unfold_ok s u root Hroot Hz) in HS.
    destruct (F64.descend _ _ _ _) as [k| |]; [|done..].
    destruct (s !! pos0 k); done.
Qed.

Lemma f64_SelectFrom_Done s rs s' idx err rs' :
  F64.SelectFrom s rs = Done (s', idx, err, rs') ->
  F64.Select s (rs 0%nat) = Done (s', idx, err) /\
  rs' = match err with Some _ => rs | None => F64.nextDraws rs end.
Proof.
  unfold F64.SelectFrom.
  destruct (F64.Select s (rs 0%nat)) as [[[s1 i1] e1]| |]; [|done..].
  rewrite bind_Done. by intros [= <- <- <- <-].
Qed.

Lemma f64_withSel_same ka : F64.withSel ka (F64.ka_sel ka) = ka.
Proof. by destruct ka. Qed.

Lemma f64_merge_fields ka e ka' :
  F64.merge ka e = Done ka' ->
  F64.ka_order ka' = F64.ka_order ka - 1 /\
  F64.ka_sel ka' = F64.ka_sel ka /\ F64.ka_g ka' = F64.ka_g ka.
Proof.
  rewrite f64_merge_labelPart.
  destruct (merge (labelPart ka) e) as [kq| |] eqn:Hm; [|done..].
  intros [= <-]. cbn. split; [|done].
  unfold merge in Hm.
  repeat match type of Hm with
  | (?m ≫= _) = Done _ =>
      let x := fresh in destruct m as [x| |]; [rewrite bind_Done in Hm|done..]
  end.
  by injection Hm as <-.
Qed.

(** The contraction loop stops at the target or on an exhausted
    selector, and never raises the order. *)
Lemma f64_contractLoop_end fuel k ka rs ka' rs' :
  F64.contractLoop fuel k ka rs = Done (ka', rs') ->
  (F64.ka_order ka' <= k \/ F64.exhausted (F64.ka_sel ka')) /\
  F64.ka_order ka' <= F64.ka_order ka /\
  F64.ka_g ka' = F64.ka_g ka.
Proof.
  revert ka rs. induction fuel as [|f IH]; intros ka rs; cbn [F64.contractLoop].
  - destruct (Z.ltb_spec k (F64.ka_order ka)); cbn [negb]; [done|].
    intros [= <- <-]. split_and!; [by left|lia|done].
  - destruct (Z.ltb_spec k (F64.ka_order ka)); cbn [negb];
      [|intros [= <- <-]; split_and!; [by left|lia|done]].
    destruct (F64.SelectFrom (F64.ka_sel ka) rs)
      as [[[[s idx] err] rs1]| |] eqn:ES; [|done..].
    rewrite bind_Done.
    apply f64_SelectFrom_Done in ES as [ES _].
    destruct err as [err|].
    { intros [= <- <-]. apply f64_Select_error in ES as [-> Hex].
      rewrite f64_withSel_same. split_and!; [by right|lia|done]. }
    destruct (EdgeByID _ idx) as [e|]; [|done].
    destruct (F64.loop (F64.withSel ka s) e) as [[|]| |]; [| |done..];
      rewrite bind_Done.
    + intros H'. apply IH in H' as (? & ? & ?). done.
    + destruct (F64.merge (F64.withSel ka s) e) as [ka1| |] eqn:Em;
        [|done..].
      rewrite bind_Done. intros H'. apply IH in H' as (? & ? & Hg).
      apply f64_merge_fields in Em as (Ho & _ & Hg1). cbn in Ho, Hg1.
      split_and!; [done|lia|congruence].
Qed.

Lemma f64_loop_ind ka1 ka2 e :
  F64.ka_ind ka1 = F64.ka_ind ka2 -> F64.loop ka1 e = F64.loop ka2 e.
Proof. intros H. unfold F64.loop. by rewrite H. Qed.

Lemma f64_cutEdges_ind weight ka1 ka2 es c w :
  F64.ka_ind ka1 = F64.ka_ind ka2 ->
  F64.cutEdges weight ka1 es c w = F64.cutEdges weight ka2 es c w.
Proof.
  intros H. revert c w. induction es as [|e es IH]; intros c w; simpl; [done|].
  rewrite (f64_loop_ind ka1 ka2 e H).
  destruct (F64.loop ka2 e) as [[|]| |]; simpl;
    unfold mbind, outcome_bind, obind; by rewrite ?IH.
Qed.

Lemma f64_randCompact_quiet weight fuel ka rs ka' rs' :
  F64.ka_order ka <= 6 ->
  F64.randCompact weight fuel 2 ka rs = Done (ka', rs') ->
  F64.quiet weight ka'.
Proof.
  intros Ho. unfold F64.randCompact. intros H.
  destruct (F64.contractLoop fuel 2 ka rs) as [[ka1 rs1]| |] eqn:EL;
    [|done..].
  rewrite bind_Done in H.
  apply f64_contractLoop_end in EL as (Hend & Hle & _).
  destruct (F64.cutEdges weight ka1 (Edges (F64.ka_g ka1)) [] 0)
    as [[c w]| |] eqn:E; [|done..].
  rewrite bind_Done in H. injection H as <- <-.
  split_and!; cbn; [lia|done|].
  rewrite <- E. by apply f64_cutEdges_ind.
Qed.

(** Whatever [fastRandMinCut] returns is a quiet context. *)
Lemma f64_fastRandMinCut_quiet weight fuel ka rs ka' rs' :
  F64.fastRandMinCut weight fuel ka rs = Done (ka', rs') ->
  F64.quiet weight ka'.
Proof.
  revert ka rs ka' rs'. induction fuel as [|f IH]; intros ka rs ka' rs' H;
    [done|].
  cbn [F64.fastRandMinCut] in H.
  destruct (Z.leb_spec (F64.ka_order ka) 6);
    [by eapply f64_randCompact_quiet|].
  destruct (F64.randContract _ _ ka rs) as [[s0 rs0]| |]; [|done..].
  rewrite bind_Done in H.
  destruct (F64.fastRandMinCut weight f s0 rs0) as [[s0' rs0']| |] eqn:E0;
    [|done..].
  rewrite bind_Done in H.
  destruct (F64.randContract _ _ (F64.clone ka) rs0') as [[s1 rs1]| |];
    [|done..].
  rewrite bind_Done in H.
  destruct (F64.fastRandMinCut weight f s1 rs1) as [[s1' rs1']| |] eqn:E1;
    [|done..].
  rewrite bind_Done in H.
  destruct (_ <? _)%float; injection H as <- <-; by eapply IH.
Qed.

(** [fastRandMinCut] leaves a quiet context as it is and reads no draw. *)
Lemma f64_quiet_fixed weight f ka rs :
  F64.quiet weight ka ->
  F64.fastRandMinCut weight (S f) ka rs = Done (ka, rs).
Proof.
  intros (Ho & Hend & Hc). cbn [F64.fastRandMinCut].
  rewrite (proj2 (Z.leb_le (F64.ka_order ka) 6)) by lia.
  unfold F64.randCompact. cbn [F64.contractLoop].
  destruct (Z.ltb_spec 2 (F64.ka_order ka)) as [Hgt|Hle]; cbn [negb].
  - destruct Hend as [?|Hex]; [lia|].
    unfold F64.SelectFrom. rewrite (f64_Select_exhausted _ _ Hex).
    rewrite !bind_Done. rewrite f64_withSel_same.
    rewrite Hc, bind_Done. by destruct ka.
  - rewrite bind_Done, Hc, bind_Done. by destruct ka.
Qed.

Lemma f64_ltb_irrefl (x : float64) : (x <? x)%float = false.
Proof.
  rewrite ltb_spec. unfold SFltb, SFcompare.
  destruct (Prim2SF x) as [s|[|]| |s m e]; try done.
  rewrite Z.compare_refl, Pos.compare_cont_refl. by destruct s.
Qed.

(** Once the context is quiet and its weight does not improve on the best
    so far, further rounds of the driver change nothing. *)
Lemma f64_driverLoop_quiet weight f n ka c w rs :
  F64.quiet weight ka -> (F64.ka_w ka <? w)%float = false ->
  F64.driverLoop weight (S f) n ka c w rs = Done (ka, c, w, rs).
Proof.
  intros Hq Hlt. induction n as [|n IH]; cbn [F64.driverLoop]; [done|].
  rewrite (f64_quiet_fixed weight f ka rs Hq), bind_Done.
  by rewrite Hlt.
Qed.

(** X20: the argument [iter] has no effect beyond its first unit:
    whenever the single iteration [iter = 1] returns, the call with any
    [iter >= 1] returns the same cut and the same weight on the same
    draws, for every graph and every float64 weight of the edges. *)
Theorem FastRandMinCut_float64_iter_beyond_first
  (weight : edge -> float64) (g : Undirected) (rs : F64.draws)
  (fuel : nat) (iter : Z) (r : list edge * float64) :
  1 <= iter ->
  F64.FastRandMinCut weight fuel g 1 rs = Done r ->
  F64.FastRandMinCut weight fuel g iter rs = Done r.
Proof.
  intros Hi. unfold F64.FastRandMinCut.
  destruct (F64.newKargerR g) as [ka0| |]; [|done..].
  rewrite !bind_Done.
  destruct (F64.init weight ka0) as [ka| |]; [|done..].
  rewrite !bind_Done.
  replace (Z.to_nat iter) with (S (Z.to_nat iter - 1)) by lia.
  change (Z.to_nat 1) with 1%nat.
  cbn [F64.driverLoop].
  destruct (F64.fastRandMinCut weight fuel ka rs) as [[ka1 rs1]| |] eqn:EF;
    [|done..].
  rewrite !bind_Done.
  destruct fuel as [|f]; [done|].
  pose proof (f64_fastRandMinCut_quiet weight _ _ _ _ _ EF) as Hq.
  destruct (F64.ka_w ka1 <? infinity)%float eqn:Elt.
  - rewrite (f64_driverLoop_quiet weight f _ ka1 _ _ rs1 Hq
               (f64_ltb_irrefl _)).
    by rewrite !bind_Done.
  - rewrite (f64_driverLoop_quiet weight f _ ka1 _ _ rs1 Hq Elt).
    by rewrite !bind_Done.
Qed.

Lemma FastRandMinCut_float64_iter_beyond_first_witness :
  (1 <= 5 /\
   F64.FastRandMinCut unitWeight 10 triangle 1 halves
     = Done ([mkEdge 0 (Some 0) (Some 1) 1 0;
              mkEdge 2 (Some 0) (Some 2) 1 0], 2%float)) /\
  F64.FastRandMinCut unitWeight 10 triangle 5 halves
    = Done ([mkEdge 0 (Some 0) (Some 1) 1 0;
             mkEdge 2 (Some 0) (Some 2) 1 0], 2%float).
Proof.
  split; [split; [lia|vm_compute; reflexivity]|].
  apply (FastRandMinCut_float64_iter_beyond_first unitWeight triangle halves
           10%nat 5).
  - lia.
  - vm_compute. reflexivity.
Defined.

(** * A run of the float64 driver that does not return *)

(** More fuel does not change what the contraction loop returns. *)
Lemma f64_contractLoop_more_fuel f n k ka rs r :
  F64.contractLoop f k ka rs = Done r ->
  F64.contractLoop (f + n) k ka rs = Done r.
Proof.
  revert ka rs. induction f as [|f IH]; intros ka rs; cbn [F64.contractLoop].
  - destruct (negb (k <? F64.ka_order ka)) eqn:E; [|done].
    intros H. destruct n as [|n]; cbn [Nat.add F64.contractLoop];
      by rewrite E.
  - change (S f + n)%nat with (S (f + n)). cbn [F64.contractLoop].
    destruct (negb (k <? F64.ka_order ka)); [done|].
    destruct (F64.SelectFrom (F64.ka_sel ka) rs)
      as [[[[s idx] err] rs1]| |]; [|done..].
    rewrite !bind_Done.
    destruct err; [done|].
    destruct (EdgeByID _ idx) as [e|]; [|done].
    destruct (F64.loop (F64.withSel ka s) e) as [[|]| |]; [| |done..];
      rewrite !bind_Done.
    + apply IH.
    + destruct (F64.merge (F64.withSel ka s) e) as [ka1| |]; [|done..].
      rewrite !bind_Done. apply IH.
Qed.

(** On an exhausted selector the contraction loop stops at once. *)
Lemma f64_contractLoop_exhausted f k ka rs :
  F64.exhausted (F64.ka_sel ka) ->
  F64.contractLoop (S f) k ka rs = Done (ka, rs).
Proof.
  intros Hex. cbn [F64.contractLoop].
  destruct (negb (k <? F64.ka_order ka)); [done|].
  unfold F64.SelectFrom. rewrite (f64_Select_exhausted _ _ Hex).
  rewrite !bind_Done. by rewrite f64_withSel_same.
Qed.

(** With more than six supernodes and an exhausted selector
    [fastRandMinCut] calls itself on the same context for ever. *)
Lemma f64_fastRandMinCut_stuck weight fuel ka rs :
  F64.exhausted (F64.ka_sel ka) -> 6 < F64.ka_order ka ->
  F64.fastRandMinCut weight fuel ka rs = Timeout.
Proof.
  intros Hex Ho. induction fuel as [|f IH]; [done|].
  cbn [F64.fastRandMinCut].
  rewrite (proj2 (Z.leb_gt (F64.ka_order ka) 6)) by done.
  unfold F64.randContract. rewrite (f64_contractLoop_exhausted f _ ka rs Hex).
  rewrite bind_Done, IH. done.
Qed.

(** On the path with the weights 2^55, 1, ..., 1 the root total after
    [Init] is 2^55; the first draw selects edge 0, the subtraction leaves
    the root total 0 and the contraction stops at seven supernodes. *)
Lemma path8_first_contraction :
  exists ka0 ka ka7 rs',
    F64.newKargerR path8 = Done ka0 /\
    F64.init heavyFirst ka0 = Done ka /\
    F64.ka_order ka = 8 /\
    F64.rootTotal (F64.ka_sel ka) = 0x1p55%float /\
    F64.contractLoop 1 7 ka halves = Done (ka7, rs') /\
    F64.ka_order ka7 = 7 /\
    F64.exhausted (F64.ka_sel ka7).
Proof.
  do 4 eexists. split; [vm_compute; reflexivity|].
  split; [vm_compute; reflexivity|].
  split; [vm_compute; reflexivity|].
  split; [vm_compute; reflexivity|].
  split; [vm_compute; reflexivity|].
  split; [vm_compute; reflexivity|].
  eexists. split; vm_compute; reflexivity.
Qed.

Lemma adjacentWithout_sym g c a b :
  adjacentWithout g c a b -> adjacentWithout g c b a.
Proof.
  intros (e & He & Hc & Hends). exists e. split; [done|]. split; [done|].
  destruct Hends; [by right|by left].
Qed.

Lemma connectedWithout_trans g c a b d :
  connectedWithout g c a b -> connectedWithout g c b d ->
  connectedWithout g c a d.
Proof.
  intros Hab Hbd. induction Hbd as [|b d d' _ IH Hadj]; [done|].
  eapply conn_step; [by apply IH|done].
Qed.

Lemma connectedWithout_sym g c a b :
  connectedWithout g c a b -> connectedWithout g c b a.
Proof.
  induction 1 as [a|a b b' _ IH Hadj]; [constructor|].
  eapply connectedWithout_trans; [|exact IH].
  eapply conn_step; [constructor|]. by apply adjacentWithout_sym.
Qed.

Lemma path8_adjacent (i : Z) :
  0 <= i < 7 -> adjacentWithout path8 [] i (i + 1).
Proof.
  intros Hi. exists (mkEdge i (Some i) (Some (i + 1)) 1 0).
  split; [|split; [done|by left]].
  assert (E : i = 0 \/ i = 1 \/ i = 2 \/ i = 3 \/ i = 4 \/ i = 5 \/ i = 6)
    by lia.
  cbn. rewrite !elem_of_cons.
  destruct E as [->|[->|[->|[->|[->|[->| ->]]]]]]; simpl; auto 10.
Qed.

Lemma path8_from_0 (n : nat) :
  (n <= 7)%nat -> connectedWithout path8 [] 0 (Z.of_nat n).
Proof.
  induction n as [|n IH]; intros Hn; [constructor|].
  eapply conn_step; [apply IH; lia|].
  replace (Z.of_nat (S n)) with (Z.of_nat n + 1) by lia.
  apply path8_adjacent. lia.
Qed.

Lemma path8_connected : connected path8.
Proof.
  assert (H0 : forall a, a ∈ ids path8 -> connectedWithout path8 [] 0 a).
  { intros a Ha. unfold ids in Ha. cbn in Ha.
    assert (E : 0 <= a <= 7).
    { rewrite !elem_of_cons in Ha.
      destruct Ha as [->|[->|[->|[->|[->|[->|[->|[->|Ha]]]]]]]];
        try lia. by apply not_elem_of_nil in Ha. }
    replace a with (Z.of_nat (Z.to_nat a)) by lia.
    apply path8_from_0. lia. }
  intros a b Ha Hb.
  eapply connectedWithout_trans; [apply connectedWithout_sym|]; by apply H0.
Qed.

(** X28: in float64 a connected graph with positive weights and draws
    strictly between 0 and 1 does not make [FastRandMinCut] return.  On
    the path of eight nodes with the weights 2^55, 1, ..., 1 and every
    draw 1/2 the first selection leaves the root total 0 while six edges
    keep their weight; with seven supernodes left [fastRandMinCut] then
    calls itself on the same context without end: no amount of fuel gives
    a result. *)
Theorem FastRandMinCut_float64_path_never_returns (fuel : nat) (iter : Z) :
  1 <= iter ->
  wfGraph path8 = true /\ connected path8 /\
  (forall e, e ∈ compEdges path8 -> (0 <? heavyFirst e)%float = true) /\
  (forall n, (0 <? halves n)%float = true /\ (halves n <? 1)%float = true) /\
  F64.FastRandMinCut heavyFirst fuel path8 iter halves = Timeout.
Proof.
  intros Hi. split; [vm_compute; reflexivity|].
  split; [exact path8_connected|]. split.
  { intros e He. cbn in He.
    repeat (apply elem_of_cons in He as [->|He]; [vm_compute; reflexivity|]).
    by apply not_elem_of_nil in He. }
  split; [intros n; split; vm_compute; reflexivity|].
  destruct path8_first_contraction
    as (ka0 & ka & ka7 & rs' & Hnew & Hinit & Ho & _ & Hc & Ho7 & Hex).
  unfold F64.FastRandMinCut. rewrite Hnew, bind_Done, Hinit, bind_Done.
  replace (Z.to_nat iter) with (S (Z.to_nat iter - 1)) by lia.
  cbn [F64.driverLoop].
  assert (Hrun : F64.fastRandMinCut heavyFirst fuel ka halves = Timeout).
  { destruct fuel as [|f]; [done|]. cbn [F64.fastRandMinCut].
    rewrite Ho. change (8 <=? 6) with false. cbv iota.
    change (contractTarget 8) with 7. unfold F64.randContract.
    change (S f) with (1 + f)%nat.
    rewrite (f64_contractLoop_more_fuel 1 f 7 ka halves _ Hc), bind_Done.
    rewrite f64_fastRandMinCut_stuck by (done || lia). done. }
  by rewrite Hrun.
Qed.

Lemma FastRandMinCut_float64_path_never_returns_witness :
  1 <= 3 /\
  (wfGraph path8 = true /\ connected path8 /\
   (forall e, e ∈ compEdges path8 -> (0 <? heavyFirst e)%float = true) /\
   (forall n, (0 <? halves n)%float = true /\ (halves n <? 1)%float = true) /\
   F64.FastRandMinCut heavyFirst 50 path8 3 halves = Timeout).
Proof.
  split; [lia|].
  apply (FastRandMinCut_float64_path_never_returns 50 3). lia.
Defined.

(** * What rounding does to the selector *)

(** X2: [Select] does not keep the float64 tree of sums.  On the
    initialised selector of 0.1, 0.2 and 0.3, where every total is the
    rounded sum of its weight and the totals of its children, a draw of
    1/8 selects item 0 and leaves the root total 0.50000000000000011,
    while the weight 0 and the totals 0.3 and 0.2 of the children add up
    to 0.5. *)
Theorem Select_float64_breaks_tree_of_sums :
  F64.treeOrder (F64.Init tenths) /\
  exists s',
    F64.Select (F64.Init tenths) 0x1p-3%float = Done (s', 0, None) /\
    F64.rootTotal s' = 0x1.0000000000001p-1%float /\
    F64.rootTotal (F64.Init s') = 0x1p-1%float /\
    ~ F64.treeOrder s'.
Proof.
  split; [apply f64_Init_treeOrder|].
  eexists. split; [vm_compute; reflexivity|].
  split; [vm_compute; reflexivity|].
  split; [vm_compute; reflexivity|].
  intros H. specialize (H 0%nat _ eq_refl).
  apply (f_equal (fun x => PrimFloat.eqb x 0x1p-1%float)) in H.
  vm_compute in H. discriminate.
Qed.

(** X3: on an initialised selector with no negative weight and a root
    total above zero, a draw strictly between 0 and 1 can make [Select]
    index past the slice.  With the weights 0, 1, 4, 2^54 - 2, 5, 0, 0 the
    totals 2^54 + 4 and 2^54 + 8 are rounded, the draw 1 - 2^-52 passes
    the items at the positions 1, 3 and 4, and the descent reads [s[9]]
    in a slice of seven items: the call panics. *)
Theorem Select_float64_reads_past_the_slice :
  F64.treeOrder (F64.Init sevenItems) /\
  (forall it, it ∈ sevenItems -> (0 <=? F64.Weight it)%float = true) /\
  (0 <? F64.rootTotal (F64.Init sevenItems))%float = true /\
  (0 <? 0x1.ffffffffffffep-1)%float = true /\
  (0x1.ffffffffffffep-1 <? 1)%float = true /\
  F64.descend (length (F64.Init sevenItems)) (F64.Init sevenItems)
    (F64.rootTotal (F64.Init sevenItems) * 0x1.ffffffffffffep-1)%float 1
    = Panicked /\
  F64.Select (F64.Init sevenItems) 0x1.ffffffffffffep-1%float = Panicked.
Proof.
  split; [apply f64_Init_treeOrder|]. split.
  { intros it Hin. unfold sevenItems in Hin.
    repeat (apply elem_of_cons in Hin as [->|Hin]; [vm_compute; reflexivity|]).
    inversion Hin. }
  split_and!; vm_compute; reflexivity.
Qed.
